(** * Word Ladder: word-graph construction and the three path searches

    A shallow embedding of [src/Word-Ladder-Game.py]: the methods
    [build_word_graph], [heuristic], [a_star_search],
    [uniform_cost_search], [breadth_first_search] and
    [check_path_exists] of class [WordLadderGame], and the properties of
    the graph and of the searches.

    Python strings are lists of characters, Python sets are [gset], the
    [defaultdict(list)] that holds the graph is a [gmap] whose lookup
    inserts an empty list under a missing key, and every [while] loop is
    a loop body iterated under a fuel bound.

    The development also covers the methods that play the game on that
    graph: [is_valid_move], [get_hint], [start_new_game], [make_move],
    [change_game_mode], [create_custom_ladder],
    [show_algorithm_comparison] and the lookups of
    [update_graph_visualization].  The choices of [random] are
    arguments, a message box is a value returned, and the widgets are
    left out. *)

From Stdlib Require Import Ascii String.
From stdpp Require Import gmap list sets strings.

Local Open Scope nat_scope.

(** ** Words: Python [str] values *)

Abbreviation str := (list ascii).
Abbreviation graph := (gmap (list ascii) (list (list ascii))).

(** A string literal as a word. *)
Definition w (s : string) : str := list_ascii_of_string s.

(** ['abcdefghijklmnopqrstuvwxyz'] *)
Definition alphabet : list ascii :=
  list_ascii_of_string "abcdefghijklmnopqrstuvwxyz".

(** [word[:i] + c + word[i+1:]] *)
Definition substitute (word : str) (i : nat) (c : ascii) : str :=
  take i word ++ [c] ++ drop (S i) word.

(** ** Python results: a value or a raised exception *)

Inductive exn := ValueError.

Inductive py (A : Type) :=
  | Ret (a : A)
  | Raise (e : exn).
Arguments Ret {A} a.
Arguments Raise {A} e.

Global Instance py_bind : MBind py := λ A B k m,
  match m with
  | Ret a => k a
  | Raise e => Raise e
  end.

(** [random.sample(population, k)]: the generator's choice is the
    argument [pick]; the call raises [ValueError] when the sample is
    larger than the population. *)
Definition random_sample {A} (pick : list A) (population : list A) (k : nat)
  : py (list A) :=
  if length population <? k then Raise ValueError else Ret pick.

(** What [random.sample] can return: [k] elements taken at distinct
    positions of the population. *)
Definition is_sample {A} (pick population : list A) (k : nat) : Prop :=
  length pick = k ∧ NoDup pick ∧ Forall (λ x, x ∈ population) pick.

(** ** The [defaultdict(list)] holding the graph *)

(** The adjacency list read under a key, [[]] for a missing key. *)
Definition adj (g : graph) (k : str) : list str :=
  default [] (g !! k).

(** [g[k]] on a [defaultdict(list)]: a missing key is inserted with an
    empty list. *)
Definition dd_get (g : graph) (k : str) : list str * graph :=
  match g !! k with
  | Some l => (l, g)
  | None => ([], <[k := []]> g)
  end.

(** [g[k].append(v)] *)
Definition dd_append (g : graph) (k v : str) : graph :=
  let '(l, g) := dd_get g k in <[k := l ++ [v]]> g.

(** ** Game state *)

Inductive mode := Beginner | Advanced | Challenge.

Global Instance mode_eq_dec : EqDecision mode.
Proof. solve_decision. Defined.

Record game := Game {
  dictionaries : mode → gset str;
  word_graph : graph;
  current_word : str;
  target_word : str;
  game_mode : mode;
  banned_words : gset str;
  restricted_letters : gset ascii
}.

(** ** [build_word_graph] *)

Section build.
Variable game_mode : mode.
Variable restricted_letters : gset ascii.
Variable current_dict : gset str.

(** Body of [for c in 'abc...z'] for a fixed [word] and position [i]. *)
Definition try_letter (word : str) (i : nat) (g : graph) (c : ascii)
  : graph :=
  if bool_decide (game_mode = Challenge) && bool_decide (c ∈ restricted_letters)
  then g
  else
    let new_word := substitute word i c in
    if bool_decide (new_word ∈ current_dict) && bool_decide (new_word ≠ word)
    then dd_append g word new_word
    else g.

(** Body of [for i in range(len(word))]. *)
Definition try_position (word : str) (g : graph) (i : nat) : graph :=
  foldl (try_letter word i) g alphabet.

(** Body of [for word in current_dict]. *)
Definition try_word (g : graph) (word : str) : graph :=
  foldl (try_position word) g (seq 0 (length word)).

(** The three nested loops, started on the cleared graph. *)
Definition fill_graph : graph :=
  foldl try_word ∅ (elements current_dict).
End build.

Definition build_word_graph (self : game)
    (rnd_words : list str) (rnd_letters : list ascii) : py game :=
  let current_dict := dictionaries self (game_mode self) in
  if bool_decide (game_mode self = Challenge) then
    picked ← random_sample rnd_words (elements current_dict) 5;
    let banned : gset str := list_to_set picked in
    letters ← random_sample rnd_letters alphabet 3;
    let restricted : gset ascii := list_to_set letters in
    let current_dict := current_dict ∖ banned in
    Ret (Game (dictionaries self)
              (fill_graph (game_mode self) restricted current_dict)
              (current_word self) (target_word self) (game_mode self)
              banned restricted)
  else
    Ret (Game (dictionaries self)
              (fill_graph (game_mode self) (restricted_letters self) current_dict)
              (current_word self) (target_word self) (game_mode self)
              (banned_words self) (restricted_letters self)).

(** ** Python's ordering of the heap items *)

(** [<] on sequences: the first position where the two differ decides;
    a proper prefix is smaller. *)
Fixpoint seq_ltb {A} `{EqDecision A} (ltb : A → A → bool) (a b : list A)
  : bool :=
  match a, b with
  | [], [] => false
  | [], _ :: _ => true
  | _ :: _, [] => false
  | x :: a, y :: b => if decide (x = y) then seq_ltb ltb a b else ltb x y
  end.

(** Characters compare by code point. *)
Definition char_ltb (a b : ascii) : bool := nat_of_ascii a <? nat_of_ascii b.
Definition str_ltb : str → str → bool := seq_ltb char_ltb.
Definition path_ltb : list str → list str → bool := seq_ltb str_ltb.

(** Items [(cost, word, path)] of [uniform_cost_search]. *)
Abbreviation ucs_item := (nat * list ascii * list (list ascii))%type.

Definition ucs_ltb (a b : ucs_item) : bool :=
  let '(c1, w1, p1) := a in
  let '(c2, w2, p2) := b in
  if decide (c1 = c2) then
    if decide (w1 = w2) then path_ltb p1 p2 else str_ltb w1 w2
  else c1 <? c2.

(** Items [(priority, cost, word, path)] of [a_star_search]. *)
Abbreviation astar_item := (nat * nat * list ascii * list (list ascii))%type.

Definition astar_ltb (a b : astar_item) : bool :=
  let '(f1, c1, w1, p1) := a in
  let '(f2, c2, w2, p2) := b in
  if decide (f1 = f2) then ucs_ltb (c1, w1, p1) (c2, w2, p2) else f1 <? f2.

(** ** [heapq]

    The heap is the bag of its items: [heappop] removes and returns the
    smallest item, whatever the arrangement inside the array, and the
    order on the items above is total, so the popped item is determined
    by the bag. *)

Section heapq.
Context {E : Type} (ltb : E → E → bool).

(** The smallest item of [x :: l], and the others. *)
Fixpoint pop_least (x : E) (l : list E) : E * list E :=
  match l with
  | [] => (x, [])
  | y :: l' =>
      let '(m, r) := pop_least y l' in
      if ltb m x then (m, x :: r) else (x, l)
  end.

Definition heappop (heap : list E) : option (E * list E) :=
  match heap with
  | [] => None
  | x :: l => Some (pop_least x l)
  end.

Definition heappush (heap : list E) (item : E) : list E := item :: heap.
End heapq.

(** A strict total order, as [<] is on integers, strings and the tuples
    and lists built from them. *)
Record strict_total {A} (ltb : A → A → bool) : Prop := {
  st_irrefl a : ltb a a = false;
  st_trans a b c : ltb a b = true → ltb b c = true → ltb a c = true;
  st_total a b : a = b ∨ ltb a b = true ∨ ltb b a = true
}.

(** ** [while] loops *)

Inductive step (S R : Type) :=
  | Continue (s : S)
  | Return (r : R).
Arguments Continue {S R} s.
Arguments Return {S R} r.

Global Instance step_eq_dec {S R : Type} `{EqDecision S, EqDecision R} :
  EqDecision (step S R).
Proof. solve_decision. Defined.

(** [while_loop body fuel s] runs the loop body at most [fuel] times;
    [None] when the fuel runs out before the loop returns. *)
Fixpoint while_loop {S R} (body : S → step S R) (fuel : nat) (s : S)
  : option R :=
  match fuel with
  | 0 => None
  | S fuel =>
      match body s with
      | Return r => Some r
      | Continue s' => while_loop body fuel s'
      end
  end.

(** ** The searches *)

(** A search returns [(cost, path)], or [(None, None)] when there is no
    path. *)
Abbreviation result := (option (nat * list (list ascii))).

Definition set_word_graph (self : game) (g : graph) : game :=
  Game (dictionaries self) g (current_word self) (target_word self)
       (game_mode self) (banned_words self) (restricted_letters self).

(** The game with [current_word] and [target_word] set to a query. *)
Definition set_words (self : game) (start goal : str) : game :=
  Game (dictionaries self) (word_graph self) start goal
       (game_mode self) (banned_words self) (restricted_letters self).

(** [sum(1 for a, b in zip(word, self.target_word) if a != b)] *)
Definition heuristic (target_word word : str) : nat :=
  sum_list ((λ _, 1) <$> filter (λ ab : ascii * ascii, ab.1 ≠ ab.2)
                                (zip word target_word)).

(** *** [a_star_search] *)

Abbreviation astar_state :=
  (gmap (list ascii) (list (list ascii)) * list astar_item * gset (list ascii))%type.

(** Body of [for next_word in self.word_graph[current]]. *)
Definition a_star_visit (goal : str) (cost : nat) (path : list str)
    (explored : gset str) (frontier : list astar_item) (next_word : str)
  : list astar_item :=
  if bool_decide (next_word ∉ explored) then
    let new_cost := cost + 1 in
    let new_path := path ++ [next_word] in
    let priority := new_cost + heuristic goal next_word in
    heappush frontier (priority, new_cost, next_word, new_path)
  else frontier.

(** Body of [while frontier]. *)
Definition a_star_body (goal : str) (st : astar_state)
  : step astar_state (result * graph) :=
  let '(word_graph, frontier, explored) := st in
  match heappop astar_ltb frontier with
  | None => Return (None, word_graph)
  | Some ((_, cost, current, path), frontier) =>
      if bool_decide (current = goal) then
        Return (Some (cost, path), word_graph)
      else if bool_decide (current ∈ explored) then
        Continue (word_graph, frontier, explored)
      else
        let explored := explored ∪ {[current]} in
        let '(nexts, word_graph) := dd_get word_graph current in
        Continue (word_graph,
                  foldl (a_star_visit goal cost path explored) frontier nexts,
                  explored)
  end.

(** The state before the loop; [heapq.heapify] leaves a list of one item
    as it is. *)
Definition a_star_init (self : game) : astar_state :=
  let start := current_word self in
  let goal := target_word self in
  (word_graph self, [(heuristic goal start, 0, start, [start])], ∅).

Definition a_star_search (fuel : nat) (self : game) : option (result * game) :=
  r ← while_loop (a_star_body (target_word self)) fuel (a_star_init self);
  Some (r.1, set_word_graph self r.2).

(** *** [uniform_cost_search] *)

Abbreviation ucs_state :=
  (gmap (list ascii) (list (list ascii)) * list ucs_item * gset (list ascii))%type.

Definition ucs_visit (cost : nat) (path : list str)
    (explored : gset str) (frontier : list ucs_item) (next_word : str)
  : list ucs_item :=
  if bool_decide (next_word ∉ explored) then
    let new_cost := cost + 1 in
    let new_path := path ++ [next_word] in
    heappush frontier (new_cost, next_word, new_path)
  else frontier.

Definition ucs_body (goal : str) (st : ucs_state)
  : step ucs_state (result * graph) :=
  let '(word_graph, frontier, explored) := st in
  match heappop ucs_ltb frontier with
  | None => Return (None, word_graph)
  | Some ((cost, current, path), frontier) =>
      if bool_decide (current = goal) then
        Return (Some (cost, path), word_graph)
      else if bool_decide (current ∈ explored) then
        Continue (word_graph, frontier, explored)
      else
        let explored := explored ∪ {[current]} in
        let '(nexts, word_graph) := dd_get word_graph current in
        Continue (word_graph,
                  foldl (ucs_visit cost path explored) frontier nexts,
                  explored)
  end.

(** The state before the loop. *)
Definition ucs_init (self : game) : ucs_state :=
  let start := current_word self in
  (word_graph self, [(0, start, [start])], ∅).

Definition uniform_cost_search (fuel : nat) (self : game)
  : option (result * game) :=
  r ← while_loop (ucs_body (target_word self)) fuel (ucs_init self);
  Some (r.1, set_word_graph self r.2).

(** *** [breadth_first_search] *)

Abbreviation bfs_state :=
  (gmap (list ascii) (list (list ascii)) * list (list ascii * list (list ascii))
   * gset (list ascii))%type.

Definition bfs_visit (path : list str)
    (acc : gset str * list (str * list str)) (next_word : str)
  : gset str * list (str * list str) :=
  let '(explored, queue) := acc in
  if bool_decide (next_word ∉ explored) then
    let explored := explored ∪ {[next_word]} in
    let new_path := path ++ [next_word] in
    (explored, queue ++ [(next_word, new_path)])
  else acc.

Definition bfs_body (goal : str) (st : bfs_state)
  : step bfs_state (result * graph) :=
  let '(word_graph, queue, explored) := st in
  match queue with
  | [] => Return (None, word_graph)
  | (current, path) :: queue =>
      if bool_decide (current = goal) then
        Return (Some (length path - 1, path), word_graph)
      else
        let '(nexts, word_graph) := dd_get word_graph current in
        let '(explored, queue) := foldl (bfs_visit path) (explored, queue) nexts in
        Continue (word_graph, queue, explored)
  end.

(** The state before the loop. *)
Definition bfs_init (self : game) : bfs_state :=
  let start := current_word self in
  (word_graph self, [(start, [start])], {[start]}).

Definition breadth_first_search (fuel : nat) (self : game)
  : option (result * game) :=
  r ← while_loop (bfs_body (target_word self)) fuel (bfs_init self);
  Some (r.1, set_word_graph self r.2).

(** *** [check_path_exists] *)

Abbreviation cpe_state :=
  (gmap (list ascii) (list (list ascii)) * list (list ascii) * gset (list ascii))%type.

(** [for next_word in self.word_graph[word]], which returns [True] from
    inside the loop. *)
Fixpoint cpe_scan (target : str) (nexts : list str)
    (visited : gset str) (queue : list str)
  : step (gset str * list str) bool :=
  match nexts with
  | [] => Continue (visited, queue)
  | next_word :: nexts =>
      if bool_decide (next_word = target) then Return true
      else if bool_decide (next_word ∉ visited) then
        cpe_scan target nexts (visited ∪ {[next_word]}) (queue ++ [next_word])
      else cpe_scan target nexts visited queue
  end.

Definition cpe_body (target : str) (st : cpe_state)
  : step cpe_state (bool * graph) :=
  let '(word_graph, queue, visited) := st in
  match queue with
  | [] => Return (false, word_graph)
  | word :: queue =>
      let '(nexts, word_graph) := dd_get word_graph word in
      match cpe_scan target nexts visited queue with
      | Return b => Return (b, word_graph)
      | Continue (visited, queue) => Continue (word_graph, queue, visited)
      end
  end.

Definition check_path_exists (fuel : nat) (self : game) (start target : str)
  : option (bool * game) :=
  if bool_decide (start = target) then Some (true, self)
  else
    r ← while_loop (cpe_body target) fuel (word_graph self, [start], {[start]});
    Some (r.1, set_word_graph self r.2).

(** ** Specification vocabulary *)

(** [u] and [v] have the same length and differ exactly at position [i]. *)
Definition one_letter_apart (u v : str) (i : nat) : Prop :=
  length u = length v ∧ u !! i ≠ v !! i ∧ ∀ j, j ≠ i → u !! j = v !! j.

(** Words made of the 26 lowercase letters only. *)
Definition lowercase (word : str) : Prop := Forall (λ c, c ∈ alphabet) word.
Definition lowercase_dict (d : gset str) : Prop := set_Forall lowercase d.

(** The exclusion policy in force for the graph of [self]: the banned
    words and restricted letters in Challenge mode, none otherwise. *)
Definition effective_words (self : game) : gset str :=
  if bool_decide (game_mode self = Challenge)
  then dictionaries self (game_mode self) ∖ banned_words self
  else dictionaries self (game_mode self).

Definition active_letters (self : game) : gset ascii :=
  if bool_decide (game_mode self = Challenge)
  then restricted_letters self else ∅.

(** The letter [c] at position [i] turns [word] into the neighbour [v]. *)
Definition edge_via (gm : mode) (rl : gset ascii) (d : gset str)
    (word : str) (i : nat) (c : ascii) (v : str) : Prop :=
  ¬ (gm = Challenge ∧ c ∈ rl) ∧ v = substitute word i c ∧ v ∈ d ∧ v ≠ word.

(** [walk g start x n]: [n] entries of the graph lead from [start] to [x]. *)
Inductive walk (g : graph) (start : str) : str → nat → Prop :=
  | walk_O : walk g start start 0
  | walk_S x y n : walk g start x n → y ∈ adj g x → walk g start y (S n).

Definition reachable (g : graph) (start goal : str) : Prop :=
  ∃ n, walk g start goal n.

(** [path_to g start x p]: the list [p] runs from [start] to [x] along
    entries of the graph. *)
Inductive path_to (g : graph) (start : str) : str → list str → Prop :=
  | path_start : path_to g start start [start]
  | path_step x y p :
      path_to g start x p → y ∈ adj g x → path_to g start y (p ++ [y]).

(** What a search may do to the [defaultdict]: keep every entry and add
    empty lists under new keys. *)
Definition only_empty_added (g g' : graph) : Prop :=
  ∀ k, g' !! k = g !! k ∨ (g !! k = None ∧ g' !! k = Some []).

(** *** Measures of the loops *)

(** Work left under key [kl.1]: nothing once explored, else the pop and
    one push per entry. *)
Definition pending (explored : gset str) (kl : str * list str) : nat :=
  if decide (kl.1 ∈ explored) then 0 else S (length kl.2).

Definition pot (g : graph) (explored : gset str) : nat :=
  sum_list_with (pending explored) (map_to_list g).

(** The words that occur in some adjacency list. *)
Definition targets (g : graph) : gset str :=
  list_to_set (mjoin (map_to_list g).*2).

(** Priority-queue searches: items in the frontier, plus the work left. *)
Definition heap_measure {E} (st : graph * list E * gset str) : nat :=
  length st.1.2 + pot st.1.1 st.2.

(** Queue searches: items in the queue, plus the words not yet seen. *)
Definition queue_measure {E} (st : graph * list E * gset str) : nat :=
  length st.1.2 + size (targets st.1.1 ∖ st.2).

(** Iterations that suffice for any search on [g]. *)
Definition search_fuel (g : graph) : nat :=
  2 + pot g ∅ + size (targets g).

(** A game whose three tiers all hold the dictionary [d]. *)
Definition game_of (gm : mode) (d : list string) : game :=
  Game (λ _, list_to_set (w <$> d)) ∅ [] [] gm ∅ ∅.

(** Challenge mode over eight words; the generator draws the last five
    as banned words and the letters o, q, z. *)
Definition hot_hat_cat : game :=
  game_of Challenge
    ["hot"; "hat"; "cat"; "dig"; "dug"; "pen"; "pin"; "sun"]%string.
Definition hot_hat_cat_banned : list str :=
  w <$> ["dig"; "dug"; "pen"; "pin"; "sun"]%string.
Definition hot_hat_cat_letters : list ascii := list_ascii_of_string "oqz".

(** The game a call returned, [self] when it raised. *)
Definition returned (self : game) (m : py game) : game :=
  match m with
  | Ret self' => self'
  | Raise _ => self
  end.

Definition is_ret {A} (m : py A) : bool :=
  match m with
  | Ret _ => true
  | Raise _ => false
  end.

(** The game after [build_word_graph] under these draws. *)
Definition hot_hat_cat_built : game :=
  returned hot_hat_cat
    (build_word_graph hot_hat_cat hot_hat_cat_banned hot_hat_cat_letters).

(** ** Results, invariants of the loops, and runs *)

(** What a search result must be on the graph [g0]. *)
Definition shortest (g0 : graph) (start goal : str) (r : result) : Prop :=
  match r with
  | Some (c, p) =>
      path_to g0 start goal p ∧ length p = S c
      ∧ ∀ n, walk g0 start goal n → c ≤ n
  | None => ¬ reachable g0 start goal
  end.

(** A returned path is a path of the graph, of the returned cost. *)
Definition sound (g0 : graph) (start goal : str) (r : result) : Prop :=
  ∀ c p, r = Some (c, p) → path_to g0 start goal p ∧ length p = S c.

Definition astar_priority (e : astar_item) : nat := e.1.1.1.

Definition ucs_cost (e : ucs_item) : nat := e.1.1.

Definition astar_view (e : astar_item) : ucs_item := (e.1.1.2, e.1.2, e.2).

Definition bf_inv (g0 : graph) (start goal : str)
    (F : list ucs_item) (X : gset str) : Prop :=
  ∃ gc : str → nat,
    (∀ c x p, (c, x, p) ∈ F → path_to g0 start x p ∧ length p = S c)
    ∧ (∀ x n, x ∈ X → walk g0 start x n → gc x ≤ n)
    ∧ (∀ x y, x ∈ X → y ∈ adj g0 x → y ∉ X →
         ∃ c p, (c, y, p) ∈ F ∧ c ≤ S (gc x))
    ∧ (start ∈ X ∨ ∃ p, (0, start, p) ∈ F)
    ∧ goal ∉ X.

Definition ucs_inv (g0 : graph) (start goal : str) (st : ucs_state) : Prop :=
  (∀ u, adj st.1.1 u = adj g0 u) ∧ bf_inv g0 start goal st.1.2 st.2.

Definition astar_inv (g0 : graph) (start goal : str) (st : astar_state) : Prop :=
  (∀ u, adj st.1.1 u = adj g0 u)
  ∧ (∀ f c x p, (f, c, x, p) ∈ st.1.2 → f = c + heuristic goal x)
  ∧ bf_inv g0 start goal (astar_view <$> st.1.2) st.2.

Definition astar_sound (g0 : graph) (start : str) (st : astar_state) : Prop :=
  (∀ u, adj st.1.1 u = adj g0 u)
  ∧ ∀ f c x p, (f, c, x, p) ∈ st.1.2 → path_to g0 start x p ∧ length p = S c.

(** The invariant of the queue; [gd] is the depth at which each explored
    word was enqueued. *)
Definition bfs_inv_at (g0 : graph) (start goal : str) (gd : str → nat)
    (queue : list (str * list str)) (X : gset str) : Prop :=
  (∀ x p, (x, p) ∈ queue → path_to g0 start x p ∧ length p = S (gd x) ∧ x ∈ X)
  ∧ (∃ d Q1 Q2, queue = Q1 ++ Q2
       ∧ Forall (λ e, gd e.1 = d) Q1 ∧ Forall (λ e, gd e.1 = S d) Q2)
  ∧ (∀ x n, x ∈ X → walk g0 start x n → gd x ≤ n)
  ∧ (∀ x, x ∈ X → (∃ p, (x, p) ∈ queue) ∨ ∀ y, y ∈ adj g0 x → y ∈ X)
  ∧ start ∈ X
  ∧ (goal ∈ X → ∃ p, (goal, p) ∈ queue).

Definition bfs_inv (g0 : graph) (start goal : str) (st : bfs_state) : Prop :=
  (∀ u, adj st.1.1 u = adj g0 u)
  ∧ ∃ gd, bfs_inv_at g0 start goal gd st.1.2 st.2.

(** [check_path_exists] answers [True] only for a reachable target. *)
Definition cpe_inv (g0 : graph) (start : str) (st : cpe_state) : Prop :=
  (∀ u, adj st.1.1 u = adj g0 u) ∧ ∀ x, x ∈ st.1.2 → reachable g0 start x.

(** The states a loop goes through: the state after [n] iterations. *)
Fixpoint iterate {S R} (body : S → step S R) (n : nat) (s : S) : option S :=
  match n with
  | 0 => Some s
  | S n =>
      match body s with
      | Continue s' => iterate body n s'
      | Return _ => None
      end
  end.

(** The next iteration pops an item of word [x] and expands it. *)
Definition astar_expands (goal : str) (st : astar_state) (x : str) : Prop :=
  ∃ f c p rest,
    heappop astar_ltb st.1.2 = Some ((f, c, x, p), rest) ∧ x ≠ goal ∧ x ∉ st.2.

Definition ucs_expands (goal : str) (st : ucs_state) (x : str) : Prop :=
  ∃ c p rest,
    heappop ucs_ltb st.1.2 = Some ((c, x, p), rest) ∧ x ≠ goal ∧ x ∉ st.2.

(** The graph an iteration leaves, whether the loop goes on or returns. *)
Definition graph_after {E R}
    (s : step (graph * list E * gset str) (R * graph)) : graph :=
  match s with
  | Continue st => st.1.1
  | Return rg => rg.2
  end.

(** The next iteration of [breadth_first_search] takes [x] from the queue
    and reads its adjacency list. *)
Definition bfs_expands (goal : str) (st : bfs_state) (x : str) : Prop :=
  ∃ p q, st.1.2 = (x, p) :: q ∧ x ≠ goal.

(** The next iteration of [check_path_exists] takes [x] from the queue
    and reads its adjacency list. *)
Definition cpe_expands (st : cpe_state) (x : str) : Prop :=
  ∃ q, st.1.2 = x :: q.

(** A path as the claims describe it, in the built game [self]. *)
Definition ladder (self : game) (start goal : str) (cost : nat)
    (path : list str) : Prop :=
  length path = cost + 1 ∧ head path = Some start ∧ last path = Some goal
  ∧ (∀ i x y, path !! i = Some x → path !! S i = Some y →
       ∃ k, one_letter_apart x y k)
  ∧ (∀ i x, 0 < i < cost → path !! i = Some x →
       x ∈ dom (word_graph self) ∧ x ∈ effective_words self).

(** What a search leaves of the game: every field but the graph, and in
    the graph every entry, with empty lists under the new keys. *)
Definition keeps_entries (self self' : game) : Prop :=
  self' = set_word_graph self (word_graph self')
  ∧ only_empty_added (word_graph self) (word_graph self')
  ∧ ∀ u, adj (word_graph self') u = adj (word_graph self) u.

Definition cat_dog : game := game_of Beginner ["cat"; "dog"]%string.

Definition cat_dog_built : game :=
  returned cat_dog (build_word_graph cat_dog [] []).

Definition five_words : game :=
  game_of Beginner ["cat"; "bat"; "hat"; "hot"; "dot"]%string.

Definition five_words_built : game :=
  returned five_words (build_word_graph five_words [] []).

(** The frontier of [a_star_search] from cat to dot after two
    iterations, and the state of [uniform_cost_search] after three and
    after four. *)
Definition astar_cat_dot_2 : list astar_item :=
  [(4, 2, w "hat", w <$> ["cat"; "bat"; "hat"]%string);
   (3, 1, w "hat", w <$> ["cat"; "hat"]%string)].

Definition ucs_cat_dot_3 : ucs_state :=
  (word_graph five_words_built,
   [(2, w "hot", w <$> ["cat"; "hat"; "hot"]%string);
    (2, w "hat", w <$> ["cat"; "bat"; "hat"]%string)],
   list_to_set (w <$> ["cat"; "bat"; "hat"]%string)).

Definition ucs_cat_dot_4 : ucs_state :=
  (word_graph five_words_built,
   [(2, w "hot", w <$> ["cat"; "hat"; "hot"]%string)],
   list_to_set (w <$> ["cat"; "bat"; "hat"]%string)).

Definition astar_cat_dot_3 : astar_state :=
  (word_graph five_words_built,
   [(3, 2, w "hot", w <$> ["cat"; "hat"; "hot"]%string);
    (4, 2, w "hat", w <$> ["cat"; "bat"; "hat"]%string)],
   list_to_set (w <$> ["cat"; "bat"; "hat"]%string)).

(** ** Further vocabulary for the built graph *)

(** The words the loop over the letters appends under [word] at
    position [i], in the order of the alphabet. *)
Definition appended_at (gm : mode) (rl : gset ascii) (d : gset str)
    (word : str) (i : nat) : list str :=
  c ← alphabet;
  if bool_decide (gm = Challenge) && bool_decide (c ∈ rl) then []
  else
    let new_word := substitute word i c in
    if bool_decide (new_word ∈ d) && bool_decide (new_word ≠ word)
    then [new_word] else [].

(** The words the two inner loops append under [word]: position by
    position, and alphabetically at each position. *)
Definition appended (gm : mode) (rl : gset ascii) (d : gset str)
    (word : str) : list str :=
  i ← seq 0 (length word); appended_at gm rl d word i.

(** The neighbours of [word] in the game [self]. *)
Definition neighbours (self : game) (word : str) : list str :=
  appended (game_mode self) (restricted_letters self) (effective_words self) word.

(** ** Invariants for the searches on any graph *)

(** Every entry that leaves the explored words of [a_star_search] has an
    item waiting in the frontier. *)
Definition astar_cut (g0 : graph) (start goal : str) (st : astar_state) : Prop :=
  (∀ u, adj st.1.1 u = adj g0 u)
  ∧ (∀ x y, x ∈ st.2 → y ∈ adj g0 x → y ∉ st.2 →
       ∃ f c p, (f, c, y, p) ∈ st.1.2)
  ∧ (start ∈ st.2 ∨ ∃ f c p, (f, c, start, p) ∈ st.1.2)
  ∧ goal ∉ st.2.

(** The visited words of [check_path_exists] not waiting in the queue
    have all their neighbours visited, and the target is not visited. *)
Definition cpe_closed (g0 : graph) (start target : str) (st : cpe_state) : Prop :=
  (∀ u, adj st.1.1 u = adj g0 u)
  ∧ (∀ x, x ∈ st.2 → x ∈ st.1.2 ∨ ∀ y, y ∈ adj g0 x → y ∈ st.2)
  ∧ start ∈ st.2
  ∧ target ∉ st.2.

(** ** Moves and hints *)

(** The exceptions of the built-in operations the methods below use. *)
Inductive raised := StopIteration | UnboundLocalError.

(** What a call does: it returns a value or raises. *)
Inductive outcome (A : Type) :=
  | Returns (a : A)
  | Raises (e : raised).
Arguments Returns {A} a.
Arguments Raises {A} e.

(** [(a, b) for a, b in zip(current, new_word) if a != b] *)
Definition differing (current new_word : str) : list (ascii * ascii) :=
  filter (λ ab : ascii * ascii, ab.1 ≠ ab.2) (zip current new_word).

(** [next(b for a, b in zip(current, new_word) if a != b)] *)
Definition next_changed (current new_word : str) : outcome ascii :=
  match differing current new_word with
  | (_, b) :: _ => Returns b
  | [] => Raises StopIteration
  end.

(** *** [is_valid_move] *)

Definition is_valid_move (self : game) (new_word : str) : outcome bool :=
  if bool_decide (new_word = []) then Returns false
  else if bool_decide (new_word ∉ dictionaries self (game_mode self)) then
    Returns false
  else if bool_decide (new_word ∈ banned_words self) then Returns false
  else
    let diff_count :=
      sum_list ((λ _, 1) <$> differing (current_word self) new_word) in
    if bool_decide (diff_count ≠ 1) then Returns false
    else if bool_decide (game_mode self = Challenge) then
      match next_changed (current_word self) new_word with
      | Returns changed_letter =>
          if bool_decide (changed_letter ∈ restricted_letters self)
          then Returns false else Returns true
      | Raises e => Raises e
      end
    else Returns true.

(** *** [get_hint] *)

(** [if path and len(path) > 1: return path[1]], else [None]; the path
    is [None] when the search found none. *)
Definition second_word (path : option (list str)) : option str :=
  match path with
  | Some path =>
      if bool_decide (path ≠ []) && bool_decide (1 < length path)
      then path !! 1 else None
  | None => None
  end.

(** An [algorithm] other than the three names leaves [path] unbound. *)
Definition get_hint (fuel : nat) (self : game) (algorithm : string)
  : option (outcome (option str) * game) :=
  if bool_decide (algorithm = "A*"%string) then
    r ← a_star_search fuel self;
    Some (Returns (second_word (snd <$> r.1)), r.2)
  else if bool_decide (algorithm = "UCS"%string) then
    r ← uniform_cost_search fuel self;
    Some (Returns (second_word (snd <$> r.1)), r.2)
  else if bool_decide (algorithm = "BFS"%string) then
    r ← breadth_first_search fuel self;
    Some (Returns (second_word (snd <$> r.1)), r.2)
  else Some (Raises UnboundLocalError, self).

(** A game on the words cat, bat and bath, with cat the current word. *)
Definition cat_bat_bath : game :=
  set_words (game_of Beginner ["cat"; "bat"; "bath"]%string) (w "cat") (w "bat").

(** ** The rest of the game state, and the methods that play the game *)

Inductive player := Player1 | Player2.

Global Instance player_eq_dec : EqDecision player.
Proof. solve_decision. Defined.

(** The attributes of [WordLadderGame] that [game] leaves out. *)
Record session := Session {
  game_state : game;
  moves : list str;
  max_moves : nat;
  score : Z;
  multiplayer_mode : bool;
  player_scores : player → Z;
  current_player : player
}.

Definition set_game (self : session) (g : game) : session :=
  Session g (moves self) (max_moves self) (score self)
          (multiplayer_mode self) (player_scores self) (current_player self).

(** [self.difficulty_levels[mode]["max_moves"]] *)
Definition mode_max_moves (gm : mode) : nat :=
  match gm with
  | Beginner => 10
  | Advanced => 15
  | Challenge => 12
  end.

(** The message boxes the methods show, with the values their texts
    are built from. *)
Inductive message :=
  | NotEnoughValidWords
  | NoValidWordPair
  | ChallengeModeRules (banned : gset str) (letters : gset ascii)
  | InvalidMove
  | GameOverWins (winner : player) (player1 player2 : Z)
  | Congratulations (final_score : Z)
  | TurnOver (next : player)
  | MaximumMovesReached
  | WordsMustBeSameLength
  | BothWordsMustBeInDictionary
  | NoValidPathExists.

(** *** [start_new_game] *)

(** [while attempts < max_attempts]: [n] is [max_attempts - attempts],
    and [picks k] is what [random.choice(valid_words)] returns at
    attempt [k].  The result is the final [attempts]. *)
Fixpoint choose_target (fuel : nat) (picks : nat → str) (n attempts : nat)
    (self : game) : option (nat * game) :=
  match n with
  | 0 => Some (attempts, self)
  | S n =>
      let self := set_words self (current_word self) (picks attempts) in
      if bool_decide (target_word self ≠ current_word self) then
        r ← check_path_exists fuel self (current_word self) (target_word self);
        if r.1 : bool then Some (attempts, r.2)
        else choose_target fuel picks n (attempts + 1) r.2
      else choose_target fuel picks n (attempts + 1) self
  end.

(** [first] is what [random.choice(valid_words)] returns for the
    current word. *)
Definition start_new_game (fuel : nat) (self : session) (first : str)
    (picks : nat → str) : option (list message * session) :=
  let g := game_state self in
  let current_dict := dictionaries g (game_mode g) in
  let self :=
    Session g [] (mode_max_moves (game_mode g)) 100
            (multiplayer_mode self) (player_scores self) (current_player self) in
  let valid_words := elements (current_dict ∖ banned_words g) in
  if length valid_words <? 2 then Some ([NotEnoughValidWords], self)
  else
    let g := set_words g first (target_word g) in
    let max_attempts := 100 in
    r ← choose_target fuel picks max_attempts 0 g;
    let self := set_game self r.2 in
    if bool_decide (max_attempts ≤ r.1) then Some ([NoValidWordPair], self)
    else if bool_decide (game_mode g = Challenge) then
      Some ([ChallengeModeRules (banned_words g) (restricted_letters g)], self)
    else Some ([], self).

(** *** [update_graph_visualization]: what it does to the graph *)

(** The loop reads [self.word_graph[word]] for every word shown. *)
Definition update_graph_visualization (self : session) : session :=
  let g := game_state self in
  if bool_decide (current_word g = []) || bool_decide (target_word g = [])
  then self
  else
    let words_to_show : gset str :=
      list_to_set ([current_word g; target_word g] ++ moves self) in
    set_game self
      (set_word_graph g
         (foldl (λ wg word, (dd_get wg word).2) (word_graph g)
            (elements words_to_show))).

(** *** [make_move] *)

(** ["Player 2" if self.current_player == "Player 1" else "Player 1"] *)
Definition switch_player (p : player) : player :=
  if bool_decide (p = Player1) then Player2 else Player1.

(** [new_word] is the lowercased text of the entry. *)
Definition make_move (fuel : nat) (self : session) (new_word : str)
    (first : str) (picks : nat → str)
  : option (outcome (list message * session)) :=
  match is_valid_move (game_state self) new_word with
  | Raises e => Some (Raises e)
  | Returns false => Some (Returns ([InvalidMove], self))
  | Returns true =>
      let g := game_state self in
      let self :=
        Session (set_words g new_word (target_word g)) (moves self ++ [new_word])
                (max_moves self) (score self - 5)
                (multiplayer_mode self) (player_scores self)
                (current_player self) in
      let self := update_graph_visualization self in
      if bool_decide (new_word = target_word (game_state self)) then
        let '(shown, self) :=
          if multiplayer_mode self then
            let scores := λ p,
              if bool_decide (p = current_player self)
              then (player_scores self p + score self)%Z
              else player_scores self p in
            ([GameOverWins (current_player self) (scores Player1) (scores Player2)],
             Session (game_state self) (moves self) (max_moves self) (score self)
                     (multiplayer_mode self) scores
                     (switch_player (current_player self)))
          else ([Congratulations (score self)], self) in
        r ← start_new_game fuel self first picks;
        Some (Returns (shown ++ r.1, r.2))
      else if bool_decide (max_moves self ≤ length (moves self)) then
        let '(shown, self) :=
          if multiplayer_mode self then
            let next := switch_player (current_player self) in
            ([TurnOver next],
             Session (game_state self) (moves self) (max_moves self) (score self)
                     (multiplayer_mode self) (player_scores self) next)
          else ([MaximumMovesReached], self) in
        r ← start_new_game fuel self first picks;
        Some (Returns (shown ++ r.1, r.2))
      else Some (Returns ([], self))
  end.

(** *** [create_custom_ladder] *)

(** [start] and [target] are the lowercased texts of the two entries. *)
Definition create_custom_ladder (fuel : nat) (self : session)
    (start target : str) : option (list message * session) :=
  let g := game_state self in
  if bool_decide (length start ≠ length target) then
    Some ([WordsMustBeSameLength], self)
  else if negb (bool_decide (start ∈ dictionaries g (game_mode g))
                && bool_decide (target ∈ dictionaries g (game_mode g))) then
    Some ([BothWordsMustBeInDictionary], self)
  else
    r ← check_path_exists fuel g start target;
    if negb r.1 then Some ([NoValidPathExists], set_game self r.2)
    else
      Some ([], Session (set_words r.2 start target) [] (max_moves self)
                  (score self) (multiplayer_mode self) (player_scores self)
                  (current_player self)).

(** Iterations that suffice for [check_path_exists] on [g], and on [g]
    with empty lists added under new keys. *)
Definition scan_fuel (g : graph) : nat := 2 + size (targets g).

(** The score and the moves of a game in play. *)
Definition in_play (self : session) : Prop :=
  score self = (100 - 5 * Z.of_nat (length (moves self)))%Z
  ∧ length (moves self) < max_moves self.

(** *** [show_algorithm_comparison] *)

(** What the loop stores under [name]: the cost, the length of the path
    and the path, when the path is neither [None] nor empty.  (The time
    measured is left out.) *)
Definition comparison_entry (name : string) (r : result)
  : list (string * (nat * nat * list str)) :=
  match r with
  | Some (cost, path) =>
      if bool_decide (path ≠ []) then [(name, (cost, length path, path))]
      else []
  | None => []
  end.

(** The [results] of the three searches, in the order of the dictionary
    of algorithms. *)
Definition show_algorithm_comparison (fuel : nat) (self : game)
  : option (list (string * (nat * nat * list str)) * game) :=
  a ← a_star_search fuel self;
  u ← uniform_cost_search fuel a.2;
  b ← breadth_first_search fuel u.2;
  Some (comparison_entry "A*" a.1 ++ comparison_entry "UCS" u.1
          ++ comparison_entry "BFS" b.1, b.2).

(** Work left under a key, empty lists counting for nothing. *)
Definition owed (explored : gset str) (kl : str * list str) : nat :=
  if decide (kl.1 ∈ explored) then 0 else length kl.2.

Definition work (g : graph) (explored : gset str) : nat :=
  sum_list_with (owed explored) (map_to_list g).

Definition heap_work {E} (st : graph * list E * gset str) : nat :=
  length st.1.2 + work st.1.1 st.2.

(** Iterations that suffice for any search on [g], and on [g] with
    empty lists added under new keys. *)
Definition stable_fuel (g : graph) : nat :=
  2 + work g ∅ + size (targets g).

(** No path waiting in the frontier of [a_star_search] holds a word
    twice: its words other than the last are explored already. *)
Definition astar_fresh (st : astar_state) : Prop :=
  ∀ f c x p, (f, c, x, p) ∈ st.1.2 →
    NoDup p ∧ last p = Some x ∧ ∀ z, z ∈ p → z = x ∨ z ∈ st.2.

(** Challenge mode over two words: too few to draw five banned words. *)
Definition cat_dog_challenge : game :=
  game_of Challenge ["cat"; "dog"]%string.

(** *** [change_game_mode] *)

Definition set_game_mode (self : game) (gm : mode) : game :=
  Game (dictionaries self) (word_graph self) (current_word self)
       (target_word self) gm (banned_words self) (restricted_letters self).

(** [mode_var] is the mode chosen in the menu.  The method does not
    catch what [build_word_graph] raises. *)
Definition change_game_mode (fuel : nat) (self : session) (mode_var : mode)
    (rnd_words : list str) (rnd_letters : list ascii)
    (first : str) (picks : nat → str)
  : py (option (list message * session)) :=
  let self := set_game self (set_game_mode (game_state self) mode_var) in
  built ← build_word_graph (game_state self) rnd_words rnd_letters;
  Ret (start_new_game fuel (set_game self built) first picks).

(** * Properties of the graph construction *)

(** Closed decidable facts are settled by evaluation. *)
Ltac by_compute := apply (bool_decide_unpack _); vm_compute; exact I.

Lemma returned_Ret self (m : py game) : is_ret m = true → m = Ret (returned self m).
Proof. by destruct m. Qed.

(** A call evaluated far enough to see that it returns. *)
Ltac by_return := apply returned_Ret; vm_compute; reflexivity.

Lemma adj_dd_append g k v u :
  adj (dd_append g k v) u = if decide (u = k) then adj g k ++ [v] else adj g u.
Proof.
  unfold dd_append, dd_get, adj.
  destruct (g !! k) as [l|] eqn:Hk; case_decide; subst;
    rewrite ?lookup_insert_eq, ?Hk; try done;
    rewrite !lookup_insert_ne by done; done.
Qed.

Lemma adj_empty u : adj ∅ u = [].
Proof. unfold adj. by rewrite lookup_empty. Qed.

Lemma adj_nonempty_dom (g : graph) u v : v ∈ adj g u → u ∈ dom g.
Proof.
  unfold adj. intros Hv. apply elem_of_dom.
  destruct (g !! u); [eauto | by apply elem_of_nil in Hv].
Qed.

(** One rule for the three nested loops: a fold whose body only adds the
    entries described by [P] adds exactly those of the items folded. *)
Lemma elem_of_adj_foldl {X} (f : graph → X → graph) (P : X → str → str → Prop) :
  (∀ g x u v, v ∈ adj (f g x) u ↔ v ∈ adj g u ∨ P x u v) →
  ∀ xs g u v,
    v ∈ adj (foldl f g xs) u ↔ v ∈ adj g u ∨ ∃ x, x ∈ xs ∧ P x u v.
Proof.
  intros Hf xs. induction xs as [|x xs IH]; intros g u v; simpl.
  - split; [by left | intros [?|(x & Hx & _)]; [done | by apply elem_of_nil in Hx]].
  - rewrite IH, Hf. split.
    + intros [[?|?]|(y & Hy & ?)]; [by left | right; exists x | right; exists y];
        (split; [set_solver | done]).
    + intros [?|(y & Hy & ?)]; [by left; left |].
      apply elem_of_cons in Hy as [->|Hy]; [by left; right | right; eauto].
Qed.

Section build_facts.
Variable gm : mode.
Variable rl : gset ascii.
Variable d : gset str.

Lemma elem_of_adj_try_letter word i g c u v :
  v ∈ adj (try_letter gm rl d word i g c) u
  ↔ v ∈ adj g u ∨ (u = word ∧ edge_via gm rl d word i c v).
Proof.
  unfold try_letter, edge_via. rewrite <- !bool_decide_and.
  case_bool_decide as Hskip; [naive_solver |].
  simpl. case_bool_decide as Hadd.
  - destruct Hadd as [Hin Hne]. rewrite adj_dd_append. case_decide; subst.
    + rewrite elem_of_app, list_elem_of_singleton. naive_solver.
    + naive_solver.
  - naive_solver.
Qed.

Lemma elem_of_adj_try_word g word u v :
  v ∈ adj (try_word gm rl d g word) u
  ↔ v ∈ adj g u
    ∨ (u = word ∧ ∃ i c, i < length word ∧ c ∈ alphabet
                         ∧ edge_via gm rl d word i c v).
Proof.
  unfold try_word.
  rewrite (elem_of_adj_foldl _
    (λ i u v, u = word ∧ ∃ c, c ∈ alphabet ∧ edge_via gm rl d word i c v)).
  - setoid_rewrite elem_of_seq. split.
    + intros [?|(i & Hi & -> & c & ? & ?)]; [by left | right].
      split; [done | exists i, c; split_and!; [lia | done..]].
    + intros [?|(-> & i & c & ? & ? & ?)]; [by left | right].
      exists i. split; [lia | eauto].
  - intros g' i u' v'. unfold try_position.
    rewrite (elem_of_adj_foldl _
      (λ c u v, u = word ∧ edge_via gm rl d word i c v)).
    + naive_solver.
    + intros. apply elem_of_adj_try_letter.
Qed.

(** The entries of the graph built over [d]. *)
Lemma elem_of_adj_fill_graph u v :
  v ∈ adj (fill_graph gm rl d) u
  ↔ u ∈ d ∧ ∃ i c, i < length u ∧ c ∈ alphabet ∧ edge_via gm rl d u i c v.
Proof.
  unfold fill_graph.
  rewrite (elem_of_adj_foldl _
    (λ word u v, u = word ∧ ∃ i c, i < length word ∧ c ∈ alphabet
                            ∧ edge_via gm rl d word i c v)).
  - rewrite adj_empty. setoid_rewrite elem_of_elements. split.
    + intros [H|(word & ? & -> & ?)]; [by apply elem_of_nil in H | done].
    + intros [? ?]. right. eauto.
  - intros. apply elem_of_adj_try_word.
Qed.
End build_facts.

Lemma substitute_insert (u : str) i c :
  i < length u → substitute u i c = <[i:=c]> u.
Proof. intros. unfold substitute. symmetry. by apply insert_take_drop. Qed.

Lemma one_letter_apart_lt u v i : one_letter_apart u v i → i < length u.
Proof.
  intros (Hlen & Hi & _). destruct (decide (i < length u)); [done |].
  destruct Hi. rewrite !lookup_ge_None_2; [done | lia..].
Qed.

(** Replacing one letter by a different one is the same as differing at
    exactly that position. *)
Lemma substitute_spec (u v : str) i c :
  i < length u →
  (v = substitute u i c ∧ v ≠ u) ↔ (one_letter_apart u v i ∧ v !! i = Some c).
Proof.
  intros Hi. rewrite substitute_insert by done. split.
  - intros [-> Hne]. split; [split_and! |].
    + by rewrite length_insert.
    + rewrite list_lookup_insert_eq by done. intros Hu.
      apply Hne. by apply list_insert_id.
    + intros j Hj. by rewrite list_lookup_insert_ne.
    + by apply list_lookup_insert_eq.
  - intros [(Hlen & Hdiff & Hsame) Hc]. split.
    + apply list_eq. intros j. destruct (decide (j = i)) as [->|Hj].
      * by rewrite list_lookup_insert_eq.
      * rewrite list_lookup_insert_ne by done. symmetry. by apply Hsame.
    + intros ->. done.
Qed.

Lemma build_word_graph_frame self rw rl self' :
  build_word_graph self rw rl = Ret self' →
  dictionaries self' = dictionaries self ∧ game_mode self' = game_mode self
  ∧ word_graph self'
    = fill_graph (game_mode self') (restricted_letters self') (effective_words self').
Proof.
  unfold build_word_graph, effective_words. case_bool_decide as Hm.
  - unfold random_sample.
    destruct (length (elements _) <? 5); [by cbn |]. cbn.
    intros [= <-]. simpl. by rewrite bool_decide_true.
  - intros [= <-]. simpl. by rewrite bool_decide_false.
Qed.

Lemma effective_words_subseteq self :
  effective_words self ⊆ dictionaries self (game_mode self).
Proof. unfold effective_words. case_bool_decide; set_solver. Qed.

(** The entries of a built graph, in the terms of the loop. *)
Lemma build_word_graph_adj self rw rl self' u v :
  build_word_graph self rw rl = Ret self' →
  v ∈ adj (word_graph self') u
  ↔ u ∈ effective_words self'
    ∧ ∃ i c, i < length u ∧ c ∈ alphabet ∧ c ∉ active_letters self'
             ∧ v = substitute u i c ∧ v ∈ effective_words self' ∧ v ≠ u.
Proof.
  intros (_ & _ & ->)%build_word_graph_frame.
  rewrite elem_of_adj_fill_graph. unfold edge_via, active_letters.
  case_bool_decide.
  - naive_solver.
  - split.
    + intros (? & i & c & ?). split; [done |]. exists i, c. set_solver.
    + intros (? & i & c & ?). split; [done |]. exists i, c. naive_solver.
Qed.

(** Every entry of a built graph replaces one letter. *)
Lemma build_word_graph_one_letter self rw rl self' u v :
  build_word_graph self rw rl = Ret self' →
  v ∈ adj (word_graph self') u → ∃ i, one_letter_apart u v i.
Proof.
  intros Hb (_ & i & c & Hi & _ & _ & Hv & _ & Hne)%(build_word_graph_adj _ _ _ _ _ _ Hb).
  exists i. by apply (substitute_spec u v i c Hi).
Qed.

Lemma built_edge_iff self rnd_words rnd_letters self' :
  lowercase_dict (dictionaries self (game_mode self)) →
  build_word_graph self rnd_words rnd_letters = Ret self' →
  ∀ u v,
    v ∈ adj (word_graph self') u
    ↔ u ∈ effective_words self' ∧ v ∈ effective_words self' ∧ v ≠ u
      ∧ ∃ i, one_letter_apart u v i
             ∧ ∀ c, v !! i = Some c → c ∉ active_letters self'.
Proof.
  intros Hlow Hb u v.
  rewrite (build_word_graph_adj _ _ _ _ _ _ Hb). split.
  - intros (Hu & i & c & Hi & Hc & Hnr & Hv & Hvd & Hne).
    split_and!; [done..|]. exists i.
    destruct (proj1 (substitute_spec u v i c Hi) (conj Hv Hne)) as [Hone Hvi].
    split; [done | intros c' ?; by simplify_eq].
  - intros (Hu & Hv & Hne & i & Hone & Hnr). split; [done |].
    pose proof (one_letter_apart_lt _ _ _ Hone) as Hi.
    destruct (v !! i) as [c|] eqn:Hvi.
    2:{ apply lookup_ge_None in Hvi. destruct Hone as [? _]. lia. }
    exists i, c. split_and!; [done | | by apply Hnr | | done..].
    + destruct (build_word_graph_frame _ _ _ _ Hb) as (Hd & Hm & _).
      assert (lowercase v) as Hlv.
      { apply Hlow. rewrite <- Hd, <- Hm. by apply effective_words_subseteq. }
      unfold lowercase in Hlv. rewrite Forall_forall in Hlv.
      apply Hlv. by eapply list_elem_of_lookup_2.
    + by apply (substitute_spec u v i c Hi).
Qed.

(** C1. The built graph has the entry [u -> v] exactly when [u] and [v]
    are words of the effective set (the dictionary without the banned
    words), of equal length, different, differing at exactly one
    position, and the letter of [v] there is not a restricted letter.
    Dictionaries hold words of lowercase letters.  With 'o' restricted
    and the effective set hot, hat, cat: no entry hat -> hot, and an
    entry cat -> hat. *)
Theorem build_word_graph_edges :
  (∀ self rnd_words rnd_letters self',
     lowercase_dict (dictionaries self (game_mode self)) →
     build_word_graph self rnd_words rnd_letters = Ret self' →
     ∀ u v,
       v ∈ adj (word_graph self') u
       ↔ u ∈ effective_words self' ∧ v ∈ effective_words self' ∧ v ≠ u
         ∧ ∃ i, one_letter_apart u v i
                ∧ ∀ c, v !! i = Some c → c ∉ active_letters self')
  ∧ (build_word_graph hot_hat_cat hot_hat_cat_banned hot_hat_cat_letters
     = Ret hot_hat_cat_built
     ∧ effective_words hot_hat_cat_built
       = list_to_set (w <$> ["hot"; "hat"; "cat"]%string)
     ∧ "o"%char ∈ active_letters hot_hat_cat_built
     ∧ w "hot" ∉ adj (word_graph hot_hat_cat_built) (w "hat")
     ∧ w "hat" ∈ adj (word_graph hot_hat_cat_built) (w "cat")).
Proof.
  split; [apply built_edge_iff |].
  split_and!; [by_return | by_compute..].
Qed.

Lemma build_word_graph_edges_witness :
  lowercase_dict (dictionaries hot_hat_cat (game_mode hot_hat_cat))
  ∧ build_word_graph hot_hat_cat hot_hat_cat_banned hot_hat_cat_letters
    = Ret hot_hat_cat_built
  ∧ (w "hat" ∈ adj (word_graph hot_hat_cat_built) (w "cat")
     ↔ w "cat" ∈ effective_words hot_hat_cat_built
       ∧ w "hat" ∈ effective_words hot_hat_cat_built ∧ w "hat" ≠ w "cat"
       ∧ ∃ i, one_letter_apart (w "cat") (w "hat") i
              ∧ ∀ c, w "hat" !! i = Some c → c ∉ active_letters hot_hat_cat_built).
Proof.
  assert (lowercase_dict (dictionaries hot_hat_cat (game_mode hot_hat_cat)))
    as Hlow by by_compute.
  assert (build_word_graph hot_hat_cat hot_hat_cat_banned hot_hat_cat_letters
          = Ret hot_hat_cat_built) as Hb by by_return.
  split_and!; [exact Hlow | exact Hb |].
  exact (proj1 build_word_graph_edges _ _ _ _ Hlow Hb (w "cat") (w "hat")).
Defined.

Lemma one_letter_apart_sym u v i : one_letter_apart u v i → one_letter_apart v u i.
Proof. intros (? & ? & Hs). split_and!; [done.. |]. intros j ?. symmetry. eauto. Qed.

(** C3 as stated fails once a letter is restricted: with 'o' restricted,
    hot -> hat is an entry and hat -> hot is not.  The draws are draws
    [random.sample] can make. *)
Lemma build_word_graph_not_symmetric :
  build_word_graph hot_hat_cat hot_hat_cat_banned hot_hat_cat_letters
  = Ret hot_hat_cat_built
  ∧ is_sample hot_hat_cat_banned
      (elements (dictionaries hot_hat_cat (game_mode hot_hat_cat))) 5
  ∧ is_sample hot_hat_cat_letters alphabet 3
  ∧ lowercase_dict (dictionaries hot_hat_cat (game_mode hot_hat_cat))
  ∧ ¬ (∀ u v, v ∈ adj (word_graph hot_hat_cat_built) u
              ↔ u ∈ adj (word_graph hot_hat_cat_built) v).
Proof.
  split_and!; [by_return | by_compute.. |].
  intros Hsym.
  assert (w "hot" ∉ adj (word_graph hot_hat_cat_built) (w "hat")) as Hno
    by by_compute.
  apply Hno, Hsym. by_compute.
Qed.

(** C3, amended.  In a built graph the entry [u -> v] has its reverse
    [v -> u] whenever the letter of [u] at the position where the two
    differ is not restricted; with no restricted letter in force (every
    mode but Challenge) the graph is symmetric. *)
Theorem build_word_graph_symmetry self rnd_words rnd_letters self' :
  lowercase_dict (dictionaries self (game_mode self)) →
  build_word_graph self rnd_words rnd_letters = Ret self' →
  (∀ u v i,
     v ∈ adj (word_graph self') u →
     one_letter_apart u v i →
     (∀ c, u !! i = Some c → c ∉ active_letters self') →
     u ∈ adj (word_graph self') v)
  ∧ (active_letters self' = ∅ →
     ∀ u v, v ∈ adj (word_graph self') u ↔ u ∈ adj (word_graph self') v)
  ∧ (game_mode self ≠ Challenge → active_letters self' = ∅).
Proof.
  intros Hlow Hb.
  assert (∀ u v i,
     v ∈ adj (word_graph self') u → one_letter_apart u v i →
     (∀ c, u !! i = Some c → c ∉ active_letters self') →
     u ∈ adj (word_graph self') v) as Hrev.
  { intros u v i Huv Hone Hok.
    apply (built_edge_iff _ _ _ _ Hlow Hb) in Huv as (Hu & Hv & Hne & _).
    apply (built_edge_iff _ _ _ _ Hlow Hb). split_and!; [done.. |].
    exists i. split; [by apply one_letter_apart_sym | done]. }
  split_and!; [done | |].
  - intros Hnone.
    assert (∀ u v, v ∈ adj (word_graph self') u → u ∈ adj (word_graph self') v)
      as Hone.
    { intros u v Huv.
      destruct (build_word_graph_one_letter _ _ _ _ _ _ Hb Huv) as [i Hi].
      apply (Hrev u v i); [done.. |]. intros c _. rewrite Hnone. set_solver. }
    intros u v. split; apply Hone.
  - intros Hm. destruct (build_word_graph_frame _ _ _ _ Hb) as (_ & Hgm & _).
    unfold active_letters. rewrite Hgm. by rewrite bool_decide_false.
Qed.

Lemma build_word_graph_symmetry_witness :
  lowercase_dict (dictionaries hot_hat_cat (game_mode hot_hat_cat))
  ∧ build_word_graph hot_hat_cat hot_hat_cat_banned hot_hat_cat_letters
    = Ret hot_hat_cat_built
  ∧ (w "hat" ∈ adj (word_graph hot_hat_cat_built) (w "cat") →
     one_letter_apart (w "cat") (w "hat") 0 →
     (∀ c, w "cat" !! 0 = Some c → c ∉ active_letters hot_hat_cat_built) →
     w "cat" ∈ adj (word_graph hot_hat_cat_built) (w "hat")).
Proof.
  assert (lowercase_dict (dictionaries hot_hat_cat (game_mode hot_hat_cat)))
    as Hlow by by_compute.
  assert (build_word_graph hot_hat_cat hot_hat_cat_banned hot_hat_cat_letters
          = Ret hot_hat_cat_built) as Hb by by_return.
  split_and!; [exact Hlow | exact Hb |].
  exact (proj1 (build_word_graph_symmetry _ _ _ _ Hlow Hb) (w "cat") (w "hat") 0).
Defined.

(** * The loop combinator *)

Section while_facts.
Context {S R : Type} (body : S → step S R).

Lemma while_loop_mono n m s r :
  while_loop body n s = Some r → n ≤ m → while_loop body m s = Some r.
Proof.
  revert m s. induction n as [|n IH]; intros m s; [done |].
  destruct m as [|m]; [lia |]. simpl.
  destruct (body s); [|done]. intros ? ?. apply IH; [done | lia].
Qed.

(** A measure that every iteration decreases bounds the iterations. *)
Lemma while_loop_terminates (mu : S → nat) :
  (∀ s s', body s = Continue s' → mu s' < mu s) →
  ∀ fuel s, mu s < fuel → is_Some (while_loop body fuel s).
Proof.
  intros Hmu fuel. induction fuel as [|fuel IH]; intros s Hs; [lia |].
  simpl. destruct (body s) as [s'|r] eqn:Hb; [|by eexists].
  apply IH. apply Hmu in Hb. lia.
Qed.

(** An invariant of the iterations holds where the loop returns. *)
Lemma while_loop_post (Inv : S → Prop) (Post : R → Prop) :
  (∀ s s', Inv s → body s = Continue s' → Inv s') →
  (∀ s r, Inv s → body s = Return r → Post r) →
  ∀ fuel s r, Inv s → while_loop body fuel s = Some r → Post r.
Proof.
  intros Hstep Hret fuel. induction fuel as [|fuel IH]; intros s r Hs; [done |].
  simpl. destruct (body s) as [s'|r'] eqn:Hb.
  - apply IH. by eapply Hstep.
  - intros [= <-]. by eapply Hret.
Qed.
End while_facts.

(** * The [defaultdict] under lookups *)

Lemma dd_get_fst g k : (dd_get g k).1 = adj g k.
Proof. unfold dd_get, adj. by destruct (g !! k). Qed.

Lemma dd_get_adj g k u : adj (dd_get g k).2 u = adj g u.
Proof.
  unfold dd_get, adj. destruct (g !! k) eqn:Hk; [done |]. simpl.
  destruct (decide (u = k)) as [->|Hne].
  - by rewrite lookup_insert_eq, Hk.
  - by rewrite lookup_insert_ne.
Qed.

Lemma dd_get_only_empty_added g k : only_empty_added g (dd_get g k).2.
Proof.
  unfold dd_get. intros u. destruct (g !! k) eqn:Hk; [by left |]. simpl.
  destruct (decide (u = k)) as [->|Hne].
  - right. by rewrite lookup_insert_eq.
  - left. by rewrite lookup_insert_ne.
Qed.

Lemma only_empty_added_refl g : only_empty_added g g.
Proof. intros k. by left. Qed.

Lemma only_empty_added_trans g1 g2 g3 :
  only_empty_added g1 g2 → only_empty_added g2 g3 → only_empty_added g1 g3.
Proof.
  intros H12 H23 k. destruct (H12 k) as [E12|[E1 E2]], (H23 k) as [E23|[E2' E3]].
  - left. congruence.
  - right. split; congruence.
  - right. split; congruence.
  - congruence.
Qed.

Lemma only_empty_added_adj g g' u : only_empty_added g g' → adj g' u = adj g u.
Proof. intros H. unfold adj. destruct (H u) as [->|[-> ->]]; done. Qed.

(** * Termination measures *)

Lemma pending_mono X X' kl : X ⊆ X' → pending X' kl ≤ pending X kl.
Proof. intros HX. unfold pending. repeat case_decide; try lia. set_solver. Qed.

Lemma sum_list_with_mono {A} (f f' : A → nat) l :
  (∀ x, f x ≤ f' x) → sum_list_with f l ≤ sum_list_with f' l.
Proof. intros H. induction l as [|x l IH]; simpl; [done |]. specialize (H x). lia. Qed.

(** Exploring [k] pays for the pushes of its entries. *)
Lemma pot_dd_get g k X :
  k ∉ X →
  pot (dd_get g k).2 (X ∪ {[k]}) + length (dd_get g k).1 ≤ pot g X.
Proof.
  intros Hk. unfold pot, dd_get. destruct (g !! k) as [l|] eqn:Hg; simpl.
  - rewrite <- (map_to_list_delete g k l Hg). simpl.
    unfold pending at 1. simpl. rewrite decide_True by set_solver.
    unfold pending at 2. simpl. rewrite decide_False by done.
    pose proof (sum_list_with_mono (pending (X ∪ {[k]})) (pending X)
      (map_to_list (delete k g))) as Hle.
    specialize (Hle (λ kl, pending_mono X (X ∪ {[k]}) kl ltac:(set_solver))). lia.
  - rewrite (map_to_list_insert g k [] Hg). simpl.
    unfold pending at 1. simpl. rewrite decide_True by set_solver.
    pose proof (sum_list_with_mono (pending (X ∪ {[k]})) (pending X)
      (map_to_list g)) as Hle.
    specialize (Hle (λ kl, pending_mono X (X ∪ {[k]}) kl ltac:(set_solver))). lia.
Qed.

Lemma elem_of_targets g y :
  y ∈ targets g ↔ ∃ k, y ∈ adj g k.
Proof.
  unfold targets, adj. rewrite elem_of_list_to_set, list_elem_of_join. split.
  - intros (l & Hy & Hl). apply list_elem_of_fmap in Hl as ([k l'] & -> & Hkl).
    apply elem_of_map_to_list in Hkl. exists k. by rewrite Hkl.
  - intros (k & Hy). destruct (g !! k) as [l|] eqn:Hg; [|by apply elem_of_nil in Hy].
    exists l. split; [done |]. apply list_elem_of_fmap. exists (k, l).
    split; [done |]. by apply elem_of_map_to_list.
Qed.

Lemma targets_dd_get g k : targets (dd_get g k).2 = targets g.
Proof.
  apply set_eq. intros y. rewrite !elem_of_targets.
  by setoid_rewrite dd_get_adj.
Qed.

Lemma size_unseen (T X : gset str) y :
  y ∈ T → y ∉ X → S (size (T ∖ (X ∪ {[y]}))) ≤ size (T ∖ X).
Proof. intros ? ?. apply subset_size. set_solver. Qed.

(** * The heap *)

Section heap_facts.
Context {E : Type} (ltb : E → E → bool) (key : E → nat).
Hypothesis ltb_key : ∀ a b, ltb a b = true → key a ≤ key b.
Hypothesis nltb_key : ∀ a b, ltb a b = false → key b ≤ key a.

Lemma pop_least_perm x l : x :: l ≡ₚ (pop_least ltb x l).1 :: (pop_least ltb x l).2.
Proof.
  revert x. induction l as [|y l IH]; intros x; simpl; [done |].
  specialize (IH y). destruct (pop_least ltb y l) as [m r]. simpl in IH.
  destruct (ltb m x); simpl; [|done].
  rewrite IH. apply perm_swap.
Qed.

Lemma pop_least_key x l e : e ∈ x :: l → key (pop_least ltb x l).1 ≤ key e.
Proof.
  revert x e. induction l as [|y l IH]; intros x e He; simpl.
  - apply list_elem_of_singleton in He as ->. done.
  - specialize (IH y). destruct (pop_least ltb y l) as [m r]. simpl in IH.
    destruct (ltb m x) eqn:Hmx; simpl.
    + apply elem_of_cons in He as [->|He]; [by apply ltb_key | by apply IH].
    + apply nltb_key in Hmx.
      apply elem_of_cons in He as [->|He]; [done |].
      specialize (IH e He). lia.
Qed.

(** [heappop] splits the heap into an item of least key and the rest. *)
Lemma heappop_Some heap m r :
  heappop ltb heap = Some (m, r) →
  heap ≡ₚ m :: r ∧ ∀ e, e ∈ heap → key m ≤ key e.
Proof.
  destruct heap as [|x l]; [done |]. simpl. intros [= Hp]. split.
  - pose proof (pop_least_perm x l) as H. by rewrite Hp in H.
  - intros e He. pose proof (pop_least_key x l e He) as H. by rewrite Hp in H.
Qed.

Lemma heappop_None heap : heappop ltb heap = None → heap = [].
Proof. by destruct heap. Qed.
End heap_facts.

Lemma heappop_perm {E} (ltb : E → E → bool) heap m r :
  heappop ltb heap = Some (m, r) → heap ≡ₚ m :: r.
Proof.
  destruct heap as [|x l]; [done |]. simpl. intros [= Hp].
  pose proof (pop_least_perm ltb x l) as H. by rewrite Hp in H.
Qed.

Lemma ucs_ltb_cost a b : ucs_ltb a b = true → ucs_cost a ≤ ucs_cost b.
Proof.
  destruct a as [[c1 w1] p1], b as [[c2 w2] p2]. unfold ucs_ltb, ucs_cost. simpl.
  case_decide; [lia |]. intros ?%Nat.ltb_lt. lia.
Qed.

Lemma ucs_nltb_cost a b : ucs_ltb a b = false → ucs_cost b ≤ ucs_cost a.
Proof.
  destruct a as [[c1 w1] p1], b as [[c2 w2] p2]. unfold ucs_ltb, ucs_cost. simpl.
  case_decide; [lia |]. intros ?%Nat.ltb_ge. lia.
Qed.

Lemma astar_ltb_priority a b :
  astar_ltb a b = true → astar_priority a ≤ astar_priority b.
Proof.
  destruct a as [[[f1 c1] w1] p1], b as [[[f2 c2] w2] p2].
  unfold astar_ltb, astar_priority. simpl.
  case_decide; [lia |]. intros ?%Nat.ltb_lt. lia.
Qed.

Lemma astar_nltb_priority a b :
  astar_ltb a b = false → astar_priority b ≤ astar_priority a.
Proof.
  destruct a as [[[f1 c1] w1] p1], b as [[[f2 c2] w2] p2].
  unfold astar_ltb, astar_priority. simpl.
  case_decide; [lia |]. intros ?%Nat.ltb_ge. lia.
Qed.

(** ** The order of the items is total, so the heap is a bag *)

Lemma nat_ltb_strict : strict_total Nat.ltb.
Proof.
  split.
  - intros a. apply Nat.ltb_irrefl.
  - intros a b c ?%Nat.ltb_lt ?%Nat.ltb_lt. apply Nat.ltb_lt. lia.
  - intros a b. destruct (lt_eq_lt_dec a b) as [[?|?]|?];
      [right; left | left | right; right]; try done; by apply Nat.ltb_lt.
Qed.

Lemma char_ltb_strict : strict_total char_ltb.
Proof.
  unfold char_ltb. split.
  - intros a. apply Nat.ltb_irrefl.
  - intros a b c ?%Nat.ltb_lt ?%Nat.ltb_lt. apply Nat.ltb_lt. lia.
  - intros a b. destruct (lt_eq_lt_dec (nat_of_ascii a) (nat_of_ascii b))
      as [[?|Heq]|?]; [right; left | left | right; right];
      try by apply Nat.ltb_lt.
    rewrite <- (ascii_nat_embedding a), <- (ascii_nat_embedding b). by rewrite Heq.
Qed.

(** Lexicographic composition with a decidable first component. *)
Lemma lex_strict {A B} `{EqDecision A} (lta : A → A → bool) (ltb : B → B → bool) :
  strict_total lta → strict_total ltb →
  strict_total (λ x y : A * B,
    if decide (x.1 = y.1) then ltb x.2 y.2 else lta x.1 y.1).
Proof.
  intros [Hi1 Ht1 Htot1] [Hi2 Ht2 Htot2]. split.
  - intros [a b]. simpl. by rewrite decide_True.
  - intros [a1 b1] [a2 b2] [a3 b3]. simpl.
    repeat case_decide; simplify_eq; eauto.
    intros H12 H23. pose proof (Ht1 _ _ _ H12 H23) as H13. by rewrite Hi1 in H13.
  - intros [a1 b1] [a2 b2]. simpl.
    repeat case_decide; simplify_eq.
    + destruct (Htot2 b1 b2) as [->|?]; [by left | by right].
    + right. destruct (Htot1 a1 a2) as [?|?]; done.
Qed.

Lemma seq_ltb_strict {A} `{EqDecision A} (ltb : A → A → bool) :
  strict_total ltb → strict_total (seq_ltb ltb).
Proof.
  intros [Hirr Htr Htot]. split.
  - intros a. induction a as [|x a IH]; simpl; [done |]. by rewrite decide_True.
  - intros a. induction a as [|x a IH]; intros [|y b] [|z c]; simpl; try done.
    repeat case_decide; simplify_eq; eauto.
    intros H12 H23. pose proof (Htr _ _ _ H12 H23) as H13. by rewrite Hirr in H13.
  - intros a. induction a as [|x a IH]; intros [|y b]; simpl; auto.
    repeat case_decide; simplify_eq.
    + destruct (IH b) as [->|?]; [by left | by right].
    + right. destruct (Htot x y) as [?|?]; done.
Qed.

Lemma str_ltb_strict : strict_total str_ltb.
Proof. apply seq_ltb_strict, char_ltb_strict. Qed.

Lemma path_ltb_strict : strict_total path_ltb.
Proof. apply seq_ltb_strict, str_ltb_strict. Qed.

Lemma ucs_ltb_strict : strict_total ucs_ltb.
Proof.
  pose proof (lex_strict Nat.ltb _ nat_ltb_strict
                (lex_strict str_ltb path_ltb str_ltb_strict path_ltb_strict)) as H.
  destruct H as [Hi Ht Htot]. split.
  - intros [[c x] p]. apply (Hi (c, (x, p))).
  - intros [[c1 x1] p1] [[c2 x2] p2] [[c3 x3] p3].
    apply (Ht (c1, (x1, p1)) (c2, (x2, p2)) (c3, (x3, p3))).
  - intros [[c1 x1] p1] [[c2 x2] p2].
    destruct (Htot (c1, (x1, p1)) (c2, (x2, p2))) as [[= -> -> ->]|?]; [by left | by right].
Qed.

Lemma astar_ltb_strict : strict_total astar_ltb.
Proof.
  pose proof (lex_strict Nat.ltb _ nat_ltb_strict ucs_ltb_strict) as [Hi Ht Htot].
  split.
  - intros [[[f c] x] p]. apply (Hi (f, (c, x, p))).
  - intros [[[f1 c1] x1] p1] [[[f2 c2] x2] p2] [[[f3 c3] x3] p3].
    apply (Ht (f1, (c1, x1, p1)) (f2, (c2, x2, p2)) (f3, (c3, x3, p3))).
  - intros [[[f1 c1] x1] p1] [[[f2 c2] x2] p2].
    destruct (Htot (f1, (c1, x1, p1)) (f2, (c2, x2, p2))) as [[= -> -> -> ->]|?];
      [by left | by right].
Qed.

Section heap_bag.
Context {E : Type} (ltb : E → E → bool).
Hypothesis ltb_strict : strict_total ltb.

Lemma strict_total_asym a b : ltb a b = true → ltb b a = false.
Proof.
  intros Hab. destruct (ltb b a) eqn:Hba; [|done].
  pose proof (st_trans ltb ltb_strict _ _ _ Hab Hba) as Haa.
  by rewrite (st_irrefl ltb ltb_strict) in Haa.
Qed.

Lemma strict_total_neg_trans a b c :
  ltb a b = false → ltb b c = false → ltb a c = false.
Proof.
  intros Hab Hbc. destruct (ltb a c) eqn:Hac; [|done].
  destruct (st_total ltb ltb_strict a b) as [->|[?|Hba]]; [congruence.. |].
  destruct (st_total ltb ltb_strict b c) as [->|[?|Hcb]]; [congruence.. |].
  pose proof (st_trans ltb ltb_strict _ _ _ Hcb Hba) as Hca.
  pose proof (strict_total_asym _ _ Hca). congruence.
Qed.

(** No item of the heap is smaller than the popped one. *)
Lemma pop_least_least x l e : e ∈ x :: l → ltb e (pop_least ltb x l).1 = false.
Proof.
  revert x e. induction l as [|y l IH]; intros x e He; simpl.
  - apply list_elem_of_singleton in He as ->. apply (st_irrefl ltb ltb_strict).
  - specialize (IH y). destruct (pop_least ltb y l) as [m r]. simpl in IH.
    destruct (ltb m x) eqn:Hmx; simpl.
    + apply elem_of_cons in He as [->|He]; [by apply strict_total_asym | by apply IH].
    + apply elem_of_cons in He as [->|He]; [apply (st_irrefl ltb ltb_strict) |].
      eapply strict_total_neg_trans; [by apply IH | done].
Qed.

(** Two arrangements of the same bag pop the same item and leave the
    same bag. *)
Lemma heappop_bag heap heap' m r :
  heap ≡ₚ heap' → heappop ltb heap = Some (m, r) →
  ∃ r', heappop ltb heap' = Some (m, r') ∧ r ≡ₚ r'.
Proof.
  intros Hperm Hpop.
  destruct heap as [|x l]; [done |]. destruct heap' as [|x' l'].
  { by apply Permutation_nil_r in Hperm. }
  simpl in *. injection Hpop as Hpop.
  pose proof (pop_least_perm ltb x l) as Hp. rewrite Hpop in Hp. simpl in Hp.
  pose proof (pop_least_perm ltb x' l') as Hp'.
  pose proof (λ e, pop_least_least x l e) as Hl. rewrite Hpop in Hl. simpl in Hl.
  pose proof (λ e, pop_least_least x' l' e) as Hl'.
  destruct (pop_least ltb x' l') as [m' r']. simpl in *.
  assert (m' = m) as ->.
  { assert (m' ∈ x :: l) as Hin by (rewrite Hperm, Hp'; set_solver).
    assert (m ∈ x' :: l') as Hin' by (rewrite <- Hperm, Hp; set_solver).
    specialize (Hl _ Hin). specialize (Hl' _ Hin').
    destruct (st_total ltb ltb_strict m' m) as [?|[?|?]]; [done | congruence..]. }
  exists r'. split; [done |].
  apply (Permutation_cons_inv (a := m)). by rewrite <- Hp, <- Hp', Hperm.
Qed.
End heap_bag.

(** The frontiers of the two priority searches are such bags. *)
Lemma ucs_heappop_bag heap heap' m r :
  heap ≡ₚ heap' → heappop ucs_ltb heap = Some (m, r) →
  ∃ r', heappop ucs_ltb heap' = Some (m, r') ∧ r ≡ₚ r'.
Proof. apply heappop_bag, ucs_ltb_strict. Qed.

Lemma astar_heappop_bag heap heap' m r :
  heap ≡ₚ heap' → heappop astar_ltb heap = Some (m, r) →
  ∃ r', heappop astar_ltb heap' = Some (m, r') ∧ r ≡ₚ r'.
Proof. apply heappop_bag, astar_ltb_strict. Qed.

(** * What the inner loops push *)

Lemma elem_of_a_star_visits goal cost path explored nexts frontier e :
  e ∈ foldl (a_star_visit goal cost path explored) frontier nexts
  ↔ e ∈ frontier
    ∨ ∃ y, y ∈ nexts ∧ y ∉ explored
           ∧ e = (cost + 1 + heuristic goal y, cost + 1, y, path ++ [y]).
Proof.
  revert frontier. induction nexts as [|y nexts IH]; intros frontier; simpl.
  - split; [by left | intros [?|(y & Hy & _)]; [done | by apply elem_of_nil in Hy]].
  - rewrite IH. unfold a_star_visit, heappush. case_bool_decide as Hy.
    + rewrite elem_of_cons. split.
      * intros [[->|?]|(z & ? & ?)]; [right; exists y | by left | right; exists z];
          (split; [set_solver | done]).
      * intros [?|(z & Hz & ? & ?)]; [by left; right |].
        apply elem_of_cons in Hz as [->|Hz]; [by left; left | right; eauto].
    + split.
      * intros [?|(z & ? & ?)]; [by left | right; exists z]. split; [set_solver | done].
      * intros [?|(z & Hz & ? & ?)]; [by left |].
        apply elem_of_cons in Hz as [->|Hz]; [done | right; eauto].
Qed.

Lemma length_a_star_visits goal cost path explored nexts frontier :
  length (foldl (a_star_visit goal cost path explored) frontier nexts)
  ≤ length frontier + length nexts.
Proof.
  revert frontier. induction nexts as [|y nexts IH]; intros frontier; simpl; [lia |].
  etrans; [apply IH |]. unfold a_star_visit, heappush.
  case_bool_decide; simpl; lia.
Qed.

Lemma elem_of_ucs_visits cost path explored nexts frontier e :
  e ∈ foldl (ucs_visit cost path explored) frontier nexts
  ↔ e ∈ frontier
    ∨ ∃ y, y ∈ nexts ∧ y ∉ explored ∧ e = (cost + 1, y, path ++ [y]).
Proof.
  revert frontier. induction nexts as [|y nexts IH]; intros frontier; simpl.
  - split; [by left | intros [?|(y & Hy & _)]; [done | by apply elem_of_nil in Hy]].
  - rewrite IH. unfold ucs_visit, heappush. case_bool_decide as Hy.
    + rewrite elem_of_cons. split.
      * intros [[->|?]|(z & ? & ?)]; [right; exists y | by left | right; exists z];
          (split; [set_solver | done]).
      * intros [?|(z & Hz & ? & ?)]; [by left; right |].
        apply elem_of_cons in Hz as [->|Hz]; [by left; left | right; eauto].
    + split.
      * intros [?|(z & ? & ?)]; [by left | right; exists z]. split; [set_solver | done].
      * intros [?|(z & Hz & ? & ?)]; [by left |].
        apply elem_of_cons in Hz as [->|Hz]; [done | right; eauto].
Qed.

Lemma length_ucs_visits cost path explored nexts frontier :
  length (foldl (ucs_visit cost path explored) frontier nexts)
  ≤ length frontier + length nexts.
Proof.
  revert frontier. induction nexts as [|y nexts IH]; intros frontier; simpl; [lia |].
  etrans; [apply IH |]. unfold ucs_visit, heappush.
  case_bool_decide; simpl; lia.
Qed.

(** * Every iteration decreases the measure *)

Lemma a_star_body_measure goal st st' :
  a_star_body goal st = Continue st' → heap_measure st' < heap_measure st.
Proof.
  destruct st as [[g fr] X]. unfold a_star_body, heap_measure. simpl.
  destruct (heappop astar_ltb fr) as [[[[[f c] x] p] rest]|] eqn:Hpop; [|done].
  apply heappop_perm, Permutation_length in Hpop. simpl in Hpop.
  case_bool_decide; [done |]. case_bool_decide as HX.
  - intros [= <-]. simpl. lia.
  - pose proof (pot_dd_get g x X HX) as Hpot.
    pose proof (dd_get_fst g x) as Hfst.
    destruct (dd_get g x) as [nexts g'] eqn:Hget. simpl in *.
    intros [= <-]. simpl.
    pose proof (length_a_star_visits goal c p (X ∪ {[x]}) nexts rest). lia.
Qed.

Lemma ucs_body_measure goal st st' :
  ucs_body goal st = Continue st' → heap_measure st' < heap_measure st.
Proof.
  destruct st as [[g fr] X]. unfold ucs_body, heap_measure. simpl.
  destruct (heappop ucs_ltb fr) as [[[[c x] p] rest]|] eqn:Hpop; [|done].
  apply heappop_perm, Permutation_length in Hpop. simpl in Hpop.
  case_bool_decide; [done |]. case_bool_decide as HX.
  - intros [= <-]. simpl. lia.
  - pose proof (pot_dd_get g x X HX) as Hpot.
    pose proof (dd_get_fst g x) as Hfst.
    destruct (dd_get g x) as [nexts g'] eqn:Hget. simpl in *.
    intros [= <-]. simpl.
    pose proof (length_ucs_visits c p (X ∪ {[x]}) nexts rest). lia.
Qed.

Lemma bfs_visits_measure (T : gset str) path nexts X Q :
  (∀ y, y ∈ nexts → y ∈ T) →
  length (foldl (bfs_visit path) (X, Q) nexts).2
  + size (T ∖ (foldl (bfs_visit path) (X, Q) nexts).1)
  ≤ length Q + size (T ∖ X).
Proof.
  revert X Q. induction nexts as [|y nexts IH]; intros X Q HT; simpl; [done |].
  assert (∀ z, z ∈ nexts → z ∈ T) as HT' by set_solver.
  case_bool_decide as Hy.
  - etrans; [apply IH, HT' |]. rewrite length_app. simpl.
    pose proof (size_unseen T X y (HT y ltac:(set_solver)) Hy). lia.
  - by apply IH.
Qed.

(** The words [bfs_visit] marks and enqueues along an adjacency list. *)
Lemma bfs_visits_spec path nexts X Q :
  ∃ new,
    foldl (bfs_visit path) (X, Q) nexts
    = (X ∪ list_to_set nexts, Q ++ ((λ y, (y, path ++ [y])) <$> new))
    ∧ ∀ y, y ∈ new ↔ y ∈ nexts ∧ y ∉ X.
Proof.
  revert X Q. induction nexts as [|y nexts IH]; intros X Q; simpl.
  - exists []. split; [|set_solver]. simpl. rewrite app_nil_r. f_equal. set_solver.
  - case_bool_decide as Hy.
    + destruct (IH (X ∪ {[y]}) (Q ++ [(y, path ++ [y])])) as (new & -> & Hnew).
      exists (y :: new). split.
      * rewrite <- app_assoc. simpl. f_equal. set_solver.
      * intros z. rewrite !elem_of_cons, Hnew. clear -Hy.
        destruct (decide (z = y)); set_solver.
    + destruct (IH X Q) as (new & -> & Hnew). exists new. split.
      * f_equal. set_solver.
      * intros z. rewrite Hnew, elem_of_cons. set_solver.
Qed.

Lemma bfs_body_measure goal st st' :
  bfs_body goal st = Continue st' → queue_measure st' < queue_measure st.
Proof.
  destruct st as [[g q] X]. unfold bfs_body, queue_measure. simpl.
  destruct q as [|[x p] q]; [done |]. case_bool_decide; [done |].
  pose proof (dd_get_fst g x) as Hfst. pose proof (targets_dd_get g x) as HT.
  destruct (dd_get g x) as [nexts g'] eqn:Hget. simpl in *.
  pose proof (bfs_visits_measure (targets g) p nexts X q) as Hm.
  destruct (foldl (bfs_visit p) (X, q) nexts) as [X' q'].
  intros [= <-]. simpl in *. rewrite HT.
  assert (length q' + size (targets g ∖ X') ≤ length q + size (targets g ∖ X)); [|lia].
  apply Hm. intros y Hy. apply elem_of_targets. exists x. by rewrite <- Hfst.
Qed.

Lemma cpe_scan_measure (T : gset str) target nexts X Q X' Q' :
  (∀ y, y ∈ nexts → y ∈ T) →
  cpe_scan target nexts X Q = Continue (X', Q') →
  length Q' + size (T ∖ X') ≤ length Q + size (T ∖ X).
Proof.
  revert X Q. induction nexts as [|y nexts IH]; intros X Q HT; simpl.
  - by intros [= <- <-].
  - assert (∀ z, z ∈ nexts → z ∈ T) as HT' by set_solver.
    case_bool_decide; [done |]. case_bool_decide as Hy.
    + intros Hs. etrans; [by apply (IH _ _ HT' Hs) |]. rewrite length_app. simpl.
      pose proof (size_unseen T X y (HT y ltac:(set_solver)) Hy). lia.
    + by apply IH.
Qed.

Lemma cpe_body_measure target st st' :
  cpe_body target st = Continue st' → queue_measure st' < queue_measure st.
Proof.
  destruct st as [[g q] X]. unfold cpe_body, queue_measure. simpl.
  destruct q as [|x q]; [done |].
  pose proof (dd_get_fst g x) as Hfst. pose proof (targets_dd_get g x) as HT.
  destruct (dd_get g x) as [nexts g'] eqn:Hget. simpl in *.
  destruct (cpe_scan target nexts X q) as [[X' q']|b] eqn:Hscan; [|done].
  intros [= <-]. simpl. rewrite HT.
  assert (length q' + size (targets g ∖ X') ≤ length q + size (targets g ∖ X)); [|lia].
  eapply cpe_scan_measure; [|done].
  intros y Hy. apply elem_of_targets. exists x. by rewrite <- Hfst.
Qed.

(** The fuel [search_fuel] covers the measure of every initial state. *)
Lemma heap_measure_init {E : Type} (g : graph) (e : E) :
  heap_measure (g, [e], (∅ : gset str)) < search_fuel g.
Proof. unfold heap_measure, search_fuel. simpl. lia. Qed.

Lemma queue_measure_init {E : Type} (g : graph) (e : E) (X : gset str) :
  queue_measure (g, [e], X) < search_fuel g.
Proof.
  unfold queue_measure, search_fuel. simpl.
  pose proof (subseteq_size (targets g ∖ X) (targets g) ltac:(set_solver)). lia.
Qed.

(** * Walks and paths *)

Lemma path_to_walk g start x p :
  path_to g start x p → ∃ n, length p = S n ∧ walk g start x n.
Proof.
  induction 1 as [|x y p _ (n & Hn & Hw) Hy].
  - exists 0. split; [done | constructor].
  - exists (S n). split; [rewrite length_app; simpl; lia | by econstructor].
Qed.

Lemma path_to_last g start x p : path_to g start x p → last p = Some x.
Proof. induction 1; [done | by rewrite last_snoc]. Qed.

Lemma path_to_head g start x p : path_to g start x p → head p = Some start.
Proof.
  induction 1 as [|x y p _ IH _]; [done |]. by destruct p.
Qed.

Lemma path_to_adjacent g start x p i a b :
  path_to g start x p → p !! i = Some a → p !! S i = Some b → b ∈ adj g a.
Proof.
  intros Hp. revert i a b. induction Hp as [|x y p Hp IH Hy]; intros i a b Ha Hb.
  - by destruct i.
  - pose proof (path_to_last _ _ _ _ Hp) as Hlast.
    destruct (decide (S i < length p)) as [Hlt|Hge].
    + rewrite lookup_app_l in Ha by lia. rewrite lookup_app_l in Hb by lia. eauto.
    + assert (S i = length p) as Hi.
      { apply lookup_lt_Some in Hb. rewrite length_app in Hb. simpl in Hb. lia. }
      rewrite lookup_app_l in Ha by lia.
      rewrite lookup_app_r in Hb by lia.
      rewrite Hi, Nat.sub_diag in Hb. simpl in Hb. simplify_eq.
      rewrite last_lookup in Hlast. rewrite <- Hi in Hlast. simpl in Hlast.
      by simplify_eq.
Qed.

(** * Best-first search: the invariant behind [uniform_cost_search] and
    [a_star_search]

    The frontier is seen as a bag of [(cost, word, path)]; the priority
    of an item is its cost plus an estimate [h] that no entry of the
    graph lowers by more than one. *)

(** A walk to a word not yet explored crosses the frontier. *)
Lemma bf_cut g0 start goal F X t n :
  bf_inv g0 start goal F X → walk g0 start t n → t ∉ X →
  ∃ c y p i k, (c, y, p) ∈ F ∧ y ∉ X ∧ c ≤ i ∧ i + k = n ∧ walk g0 y t k.
Proof.
  intros (gc & HA & HC & HD & HE & HG) Hw.
  induction Hw as [|x t n Hw IH Ht]; intros HtX.
  - destruct HE as [?|[p Hp]]; [done |].
    exists 0, start, p, 0, 0. split_and!; [done.. | constructor].
  - destruct (decide (x ∈ X)) as [Hx|Hx].
    + destruct (HD x t Hx Ht HtX) as (c & p & Hin & Hc).
      specialize (HC x n Hx Hw).
      exists c, t, p, (S n), 0. split_and!; [done | done | lia | lia | constructor].
    + destruct (IH Hx) as (c & y & p & i & k & Hin & Hy & Hc & Hik & Hyx).
      exists c, y, p, i, (S k). split_and!; [done | done | done | lia |].
      by econstructor.
Qed.

Lemma bf_init g0 start goal : bf_inv g0 start goal [(0, start, [start])] ∅.
Proof.
  exists (λ _, 0). split_and!.
  - intros c x p [= -> -> ->]%list_elem_of_singleton. split; [constructor | done].
  - set_solver.
  - set_solver.
  - right. exists [start]. set_solver.
  - set_solver.
Qed.

Lemma bf_skip g0 start goal F X c x p R :
  bf_inv g0 start goal F X → F ≡ₚ (c, x, p) :: R → x ∈ X →
  bf_inv g0 start goal R X.
Proof.
  intros (gc & HA & HC & HD & HE & HG) HF Hx.
  assert (∀ e, e ∈ R → e ∈ F) as HRF by (intros e; rewrite HF; set_solver).
  assert (∀ c' y p', (c', y, p') ∈ F → y ∉ X → (c', y, p') ∈ R) as HFR.
  { intros c' y p'. rewrite HF. intros [[= -> -> ->]|?]%elem_of_cons; done. }
  exists gc. split_and!; [by eauto | done | | | done].
  - intros a b Ha Hb HbX. destruct (HD a b Ha Hb HbX) as (c' & p' & ? & ?).
    exists c', p'. eauto.
  - destruct HE as [?|[p' Hp']]; [by left |].
    destruct (decide (start ∈ X)); [by left | right; eauto].
Qed.

Section best_first.
Variable g0 : graph.
Variables start goal : str.
Variable h : str → nat.
Hypothesis h_consistent : ∀ u v, v ∈ adj g0 u → h u ≤ S (h v).

Lemma walk_estimate y t k : walk g0 y t k → h y ≤ k + h t.
Proof.
  induction 1 as [|x t n _ IH Ht]; [lia |].
  apply h_consistent in Ht. lia.
Qed.

(** The item of least priority carries the least cost to its word. *)
Lemma bf_pop_optimal F X c x p n :
  bf_inv g0 start goal F X → (c, x, p) ∈ F →
  (∀ c' y p', (c', y, p') ∈ F → c + h x ≤ c' + h y) →
  x ∉ X → walk g0 start x n → c ≤ n.
Proof.
  intros Hinv Hin Hmin HxX Hw.
  destruct (bf_cut g0 start goal F X x n Hinv Hw HxX) as (c' & y & p' & i & k & Hy & _ & Hc & Hik & Hyx).
  specialize (Hmin c' y p' Hy). apply walk_estimate in Hyx. lia.
Qed.

Lemma bf_expand F X c x p R F' :
  bf_inv g0 start goal F X → F ≡ₚ (c, x, p) :: R → x ∉ X → x ≠ goal →
  (∀ c' y p', (c', y, p') ∈ F → c + h x ≤ c' + h y) →
  (∀ e, e ∈ F' ↔ e ∈ R ∨ ∃ y, y ∈ adj g0 x ∧ y ∉ X ∪ {[x]}
                              ∧ e = (c + 1, y, p ++ [y])) →
  bf_inv g0 start goal F' (X ∪ {[x]}).
Proof.
  intros Hinv HF Hx Hxg Hmin HF'.
  assert ((c, x, p) ∈ F) as Hin by (rewrite HF; set_solver).
  pose proof (bf_pop_optimal F X c x p) as Hopt.
  specialize (λ n, Hopt n Hinv Hin Hmin Hx).
  destruct Hinv as (gc & HA & HC & HD & HE & HG).
  assert (∀ e, e ∈ R → e ∈ F) as HRF by (intros e; rewrite HF; set_solver).
  assert (∀ c' y p', (c', y, p') ∈ F → y ≠ x → (c', y, p') ∈ R) as HFR.
  { intros c' y p'. rewrite HF. intros [[= -> -> ->]|?]%elem_of_cons; done. }
  destruct (HA c x p Hin) as [Hpath Hlen].
  exists (λ y, if decide (y = x) then c else gc y). split_and!.
  - intros c' y p' [?|(z & Hz & _ & [= -> -> ->])]%HF'; [by eauto |].
    split; [by econstructor |]. rewrite length_app. simpl. lia.
  - intros y n Hy Hw. case_decide as Hyx; [subst; by apply Hopt |].
    apply HC; [set_solver | done].
  - intros a b Ha Hb HbX. case_decide as Hax.
    + subst a. exists (c + 1), (p ++ [b]). split; [|lia].
      apply HF'. right. eauto.
    + destruct (HD a b) as (c' & p' & Hin' & Hc'); [set_solver | done | set_solver |].
      exists c', p'. split; [|done]. apply HF'. left. apply HFR; [done | set_solver].
  - destruct HE as [?|[p' Hp']]; [left; set_solver |].
    destruct (decide (start = x)) as [->|Hsx]; [left; set_solver |].
    right. exists p'. apply HF'. left. by apply HFR.
  - set_solver.
Qed.
End best_first.

(** * [uniform_cost_search] and [a_star_search] return a shortest path *)

Lemma ucs_body_inv g0 start goal st st' :
  ucs_inv g0 start goal st → ucs_body goal st = Continue st' →
  ucs_inv g0 start goal st'.
Proof.
  destruct st as [[g fr] X]. intros [Hadj Hinv]. simpl in *. unfold ucs_body.
  destruct (heappop ucs_ltb fr) as [[[[c x] p] rest]|] eqn:Hpop; [|done].
  apply (heappop_Some ucs_ltb ucs_cost ucs_ltb_cost ucs_nltb_cost) in Hpop
    as [Hperm Hmin].
  case_bool_decide as Hgoal; [done |]. case_bool_decide as HX.
  - intros [= <-]. split; simpl; [done |]. by eapply bf_skip.
  - pose proof (dd_get_fst g x) as Hfst. pose proof (dd_get_adj g x) as Hadj'.
    destruct (dd_get g x) as [nexts g'] eqn:Hget. simpl in *. subst nexts.
    intros [= <-]. split; simpl.
    + intros u. by rewrite Hadj'.
    + eapply (bf_expand g0 start goal (λ _, 0)); [lia | done.. | |].
      * intros c' y p' Hin. specialize (Hmin _ Hin). unfold ucs_cost in Hmin.
        simpl in Hmin. lia.
      * intros e. rewrite elem_of_ucs_visits, Hadj. done.
Qed.

Lemma ucs_body_ret g0 start goal st r g' :
  ucs_inv g0 start goal st → ucs_body goal st = Return (r, g') →
  shortest g0 start goal r.
Proof.
  destruct st as [[g fr] X]. intros [Hadj Hinv]. simpl in *. unfold ucs_body.
  destruct (heappop ucs_ltb fr) as [[[[c x] p] rest]|] eqn:Hpop.
  - apply (heappop_Some ucs_ltb ucs_cost ucs_ltb_cost ucs_nltb_cost) in Hpop
      as [Hperm Hmin].
    assert ((c, x, p) ∈ fr) as Hin by (rewrite Hperm; set_solver).
    case_bool_decide as Hgoal.
    2:{ case_bool_decide; [done |]. by destruct (dd_get g x). }
    intros [= <- <-]. subst x. simpl.
    pose proof Hinv as (gc & HA & _ & _ & _ & HG).
    destruct (HA _ _ _ Hin) as [Hp Hlen]. split_and!; [done.. |].
    intros n Hw. eapply (bf_pop_optimal g0 start goal (λ _, 0)); [lia | done.. | | done | done].
    intros c' y p' Hin'. specialize (Hmin _ Hin'). unfold ucs_cost in Hmin.
    simpl in Hmin. lia.
  - apply heappop_None in Hpop as ->. intros [= <- <-]. simpl.
    intros [n Hw]. pose proof Hinv as (gc & _ & _ & _ & _ & HG).
    destruct (bf_cut g0 start goal [] X goal n Hinv Hw HG) as (? & ? & ? & ? & ? & Hin & _).
    by apply elem_of_nil in Hin.
Qed.

Lemma elem_of_astar_view (fr : list astar_item) (c : nat) (x : str) (p : list str) :
  (c, x, p) ∈ astar_view <$> fr ↔ ∃ f, (f, c, x, p) ∈ fr.
Proof.
  rewrite list_elem_of_fmap. split.
  - intros ([[[f c'] x'] p'] & [= -> -> ->] & ?). eauto.
  - intros [f ?]. by exists (f, c, x, p).
Qed.

Section a_star.
Variable g0 : graph.
Variables start goal : str.
Hypothesis consistent :
  ∀ u v, v ∈ adj g0 u → heuristic goal u ≤ S (heuristic goal v).

Lemma astar_min (fr : list astar_item) f c x p :
  (∀ f c x p, (f, c, x, p) ∈ fr → f = c + heuristic goal x) →
  (f, c, x, p) ∈ fr →
  (∀ e, e ∈ fr → astar_priority (f, c, x, p) ≤ astar_priority e) →
  ∀ c' y p', (c', y, p') ∈ astar_view <$> fr →
             c + heuristic goal x ≤ c' + heuristic goal y.
Proof.
  intros Hpri Hin Hmin c' y p' [f' Hin']%elem_of_astar_view.
  specialize (Hmin _ Hin'). unfold astar_priority in Hmin. simpl in Hmin.
  rewrite (Hpri _ _ _ _ Hin), (Hpri _ _ _ _ Hin') in Hmin. done.
Qed.

Lemma a_star_body_inv st st' :
  astar_inv g0 start goal st → a_star_body goal st = Continue st' →
  astar_inv g0 start goal st'.
Proof.
  destruct st as [[g fr] X]. intros (Hadj & Hpri & Hinv). simpl in *.
  unfold a_star_body.
  destruct (heappop astar_ltb fr) as [[[[[f c] x] p] rest]|] eqn:Hpop; [|done].
  apply (heappop_Some astar_ltb astar_priority astar_ltb_priority
           astar_nltb_priority) in Hpop as [Hperm Hmin].
  assert ((f, c, x, p) ∈ fr) as Hin by (rewrite Hperm; set_solver).
  assert (∀ e, e ∈ rest → e ∈ fr) as Hrest by (intros e; rewrite Hperm; set_solver).
  assert (astar_view <$> fr ≡ₚ (c, x, p) :: (astar_view <$> rest)) as Hperm'.
  { by rewrite Hperm. }
  case_bool_decide as Hgoal; [done |]. case_bool_decide as HX.
  - intros [= <-]. split_and!; simpl; [done | by eauto |]. by eapply bf_skip.
  - pose proof (dd_get_fst g x) as Hfst. pose proof (dd_get_adj g x) as Hadj'.
    destruct (dd_get g x) as [nexts g'] eqn:Hget. simpl in *. subst nexts.
    intros [= <-]. split_and!; simpl.
    + intros u. by rewrite Hadj'.
    + intros f' c' y p' [?|(z & _ & _ & [= -> -> -> ->])]%elem_of_a_star_visits;
        [by eauto | done].
    + eapply (bf_expand g0 start goal (heuristic goal)); [done.. | |].
      * by eapply astar_min.
      * intros [[c' y] p']. rewrite !elem_of_astar_view.
        setoid_rewrite elem_of_a_star_visits. rewrite Hadj. split.
        -- intros (f' & [?|(z & ? & ? & [= -> -> -> ->])]); [left; eauto | right; eauto].
        -- intros [[f' ?]|(z & ? & ? & [= -> -> ->])]; [exists f'; by left |].
           eexists. right. exists z. eauto.
Qed.

Lemma a_star_body_ret st r g' :
  astar_inv g0 start goal st → a_star_body goal st = Return (r, g') →
  shortest g0 start goal r.
Proof.
  destruct st as [[g fr] X]. intros (Hadj & Hpri & Hinv). simpl in *.
  unfold a_star_body.
  destruct (heappop astar_ltb fr) as [[[[[f c] x] p] rest]|] eqn:Hpop.
  - apply (heappop_Some astar_ltb astar_priority astar_ltb_priority
             astar_nltb_priority) in Hpop as [Hperm Hmin].
    assert ((f, c, x, p) ∈ fr) as Hin by (rewrite Hperm; set_solver).
    case_bool_decide as Hgoal.
    2:{ case_bool_decide; [done |]. by destruct (dd_get g x). }
    intros [= <- <-]. subst x. simpl.
    assert ((c, goal, p) ∈ astar_view <$> fr) as Hin'
      by (apply elem_of_astar_view; eauto).
    pose proof Hinv as (gc & HA & _ & _ & _ & HG).
    destruct (HA _ _ _ Hin') as [Hp Hlen]. split_and!; [done.. |].
    intros n Hw.
    eapply (bf_pop_optimal g0 start goal (heuristic goal)); [done.. | | done | done].
    by eapply astar_min.
  - apply heappop_None in Hpop as ->. intros [= <- <-]. simpl.
    intros [n Hw]. pose proof Hinv as (gc & _ & _ & _ & _ & HG).
    destruct (bf_cut g0 start goal _ X goal n Hinv Hw HG) as (? & ? & ? & ? & ? & Hin & _).
    by apply elem_of_nil in Hin.
Qed.
End a_star.

(** * [breadth_first_search] returns a shortest path *)

(** A walk to a word not yet seen passes through a queued word. *)
Lemma bfs_cut g0 start goal gd queue X t n :
  bfs_inv_at g0 start goal gd queue X → walk g0 start t n → t ∉ X →
  ∃ x p i, (x, p) ∈ queue ∧ gd x ≤ i ∧ i < n.
Proof.
  intros (HA & HS & HC & HD & HE & HG) Hw.
  induction Hw as [|x t n Hw IH Ht]; intros HtX; [done |].
  destruct (decide (x ∈ X)) as [Hx|Hx].
  - destruct (HD x Hx) as [[p Hp]|Hall]; [|by specialize (Hall t Ht)].
    exists x, p, n. split_and!; [done | by apply HC | lia].
  - destruct (IH Hx) as (z & p & i & ? & ? & ?). exists z, p, i.
    split_and!; [done.. | lia].
Qed.

(** The head of the queue is a shallowest item, and no item is more
    than one level deeper. *)
Lemma bfs_levels_head (gd : str → nat) (w : str) (p : list str)
    (rest : list (str * list str)) :
  (∃ d Q1 Q2, (w, p) :: rest = Q1 ++ Q2
     ∧ Forall (λ e, gd e.1 = d) Q1 ∧ Forall (λ e, gd e.1 = S d) Q2) →
  ∀ e, e ∈ (w, p) :: rest → gd w ≤ gd e.1 ∧ gd e.1 ≤ S (gd w).
Proof.
  intros (d & Q1 & Q2 & Hq & H1 & H2) e He.
  rewrite Forall_forall in H1. rewrite Forall_forall in H2.
  assert (e ∈ Q1 ∨ e ∈ Q2) as Hin by (rewrite Hq in He; set_solver).
  destruct Q1 as [|e1 Q1]; simpl in Hq.
  - destruct Hin as [Hin|Hin]; [by apply elem_of_nil in Hin |].
    assert ((w, p) ∈ Q2) as Hw by (rewrite <- Hq; set_solver).
    apply H2 in Hw, Hin. simpl in *. lia.
  - injection Hq as <- _.
    specialize (H1 (w, p) ltac:(set_solver)) as Hw. simpl in Hw.
    destruct Hin as [Hin|Hin]; [apply H1 in Hin | apply H2 in Hin]; lia.
Qed.

(** Popping the head and enqueueing items one level below it keeps the
    two levels. *)
Lemma bfs_levels_step (gd gd' : str → nat) (w : str) (p : list str)
    (rest new : list (str * list str)) :
  (∃ d Q1 Q2, (w, p) :: rest = Q1 ++ Q2
     ∧ Forall (λ e, gd e.1 = d) Q1 ∧ Forall (λ e, gd e.1 = S d) Q2) →
  (∀ e, e ∈ rest → gd' e.1 = gd e.1) →
  (∀ e, e ∈ new → gd' e.1 = S (gd w)) →
  ∃ d Q1 Q2, rest ++ new = Q1 ++ Q2
     ∧ Forall (λ e, gd' e.1 = d) Q1 ∧ Forall (λ e, gd' e.1 = S d) Q2.
Proof.
  intros (d & Q1 & Q2 & Hq & H1 & H2) Hold Hnew.
  rewrite Forall_forall in H1. rewrite Forall_forall in H2.
  destruct Q1 as [|e1 Q1]; simpl in Hq.
  - assert (gd w = S d) as Hw by (apply (H2 (w, p)); rewrite <- Hq; set_solver).
    exists (S d), rest, new. split_and!; [done | |].
    + apply Forall_forall. intros e He. rewrite (Hold e He).
      apply H2. rewrite <- Hq. set_solver.
    + apply Forall_forall. intros e He. rewrite (Hnew e He). lia.
  - injection Hq as <- ->.
    assert (gd w = d) as Hw by (apply (H1 (w, p)); set_solver).
    exists d, Q1, (Q2 ++ new). split_and!; [by rewrite app_assoc | |].
    + apply Forall_forall. intros e He. rewrite (Hold e ltac:(set_solver)).
      apply H1. set_solver.
    + apply Forall_forall. intros e [He|He]%elem_of_app.
      * rewrite (Hold e ltac:(set_solver)). by apply H2.
      * rewrite (Hnew e He). lia.
Qed.

Lemma bfs_init_inv g start goal :
  bfs_inv g start goal (g, [(start, [start])], {[start]}).
Proof.
  split; [done |]. exists (λ _, 0). simpl. split_and!.
  - intros x p [= -> ->]%list_elem_of_singleton.
    split_and!; [constructor | done | set_solver].
  - exists 0, [(start, [start])], []. split_and!; [done | | done].
    by apply Forall_singleton.
  - intros; lia.
  - intros x ->%elem_of_singleton. left. exists [start]. set_solver.
  - set_solver.
  - intros <-%elem_of_singleton. exists [goal]. set_solver.
Qed.

Lemma bfs_body_inv g0 start goal st st' :
  bfs_inv g0 start goal st → bfs_body goal st = Continue st' →
  bfs_inv g0 start goal st'.
Proof.
  destruct st as [[g q] X]. intros [Hadj (gd & Hinv)]. simpl in *.
  unfold bfs_body. destruct q as [|[w p] rest]; [done |].
  case_bool_decide as Hgoal; [done |].
  pose proof (dd_get_fst g w) as Hfst. pose proof (dd_get_adj g w) as Hadj'.
  destruct (dd_get g w) as [nexts g'] eqn:Hget. simpl in *. subst nexts.
  rewrite Hadj.
  destruct (bfs_visits_spec p (adj g0 w) X rest) as (new & -> & Hnew).
  intros [= <-]. split; simpl; [intros u; by rewrite Hadj' |].
  pose proof (λ t n, bfs_cut _ _ _ _ _ _ t n Hinv) as Hcut.
  destruct Hinv as (HA & HS & HC & HD & HE & HG).
  pose proof (bfs_levels_head gd w p rest HS) as Hhead.
  destruct (HA w p ltac:(set_solver)) as (Hwp & Hwlen & HwX).
  set (gd' := λ y : str, if decide (y ∈ X) then gd y else S (gd w)).
  assert (∀ y, y ∈ X → gd' y = gd y) as Hold
    by (intros y Hy; unfold gd'; by rewrite decide_True).
  assert (∀ y, y ∉ X → gd' y = S (gd w)) as Hfresh
    by (intros y Hy; unfold gd'; by rewrite decide_False).
  exists gd'. clearbody gd'. split_and!.
  - intros x q [Hin|Hin]%elem_of_app.
    + destruct (HA x q ltac:(set_solver)) as (? & ? & ?).
      rewrite Hold by done. split_and!; [done.. | set_solver].
    + apply list_elem_of_fmap in Hin as (y & [= -> ->] & Hy).
      apply Hnew in Hy as [Hy HyX]. rewrite Hfresh by done.
      split_and!; [by econstructor | | set_solver].
      rewrite length_app. simpl. lia.
  - apply (bfs_levels_step gd gd' w p); [done | |].
    + intros [x q] Hin. simpl.
      destruct (HA x q ltac:(set_solver)) as (_ & _ & ?). by apply Hold.
    + intros e (y & -> & [_ Hy]%Hnew)%list_elem_of_fmap. simpl.
      by apply Hfresh.
  - intros x n Hx Hw. destruct (decide (x ∈ X)) as [HxX|HxX].
    { rewrite Hold by done. by apply HC. }
    rewrite Hfresh by done.
    destruct (Hcut x n Hw HxX) as (z & q & i & Hz & Hi & Hlt).
    destruct (Hhead _ Hz) as [Hle _]. simpl in Hle. lia.
  - intros x Hx. destruct (decide (x = w)) as [->|Hxw].
    { right. intros y Hy. set_solver. }
    destruct (decide (x ∈ X)) as [HxX|HxX].
    + destruct (HD x HxX) as [[q Hq]|Hall].
      * left. exists q. set_solver.
      * right. intros y Hy. specialize (Hall y Hy). set_solver.
    + left. exists (p ++ [x]). apply elem_of_app. right.
      apply list_elem_of_fmap. exists x. split; [done |]. apply Hnew. set_solver.
  - set_solver.
  - intros Hg. destruct (decide (goal ∈ X)) as [HgX|HgX].
    + destruct (HG HgX) as [q Hq]. exists q. set_solver.
    + exists (p ++ [goal]). apply elem_of_app. right.
      apply list_elem_of_fmap. exists goal. split; [done |]. apply Hnew. set_solver.
Qed.

Lemma bfs_body_ret g0 start goal st r g' :
  bfs_inv g0 start goal st → bfs_body goal st = Return (r, g') →
  shortest g0 start goal r.
Proof.
  destruct st as [[g q] X]. intros [Hadj (gd & Hinv)]. simpl in *.
  unfold bfs_body. destruct q as [|[w p] rest].
  - intros [= <- <-]. simpl. intros [n Hw].
    destruct Hinv as (HA & HS & HC & HD & HE & HG).
    destruct (decide (goal ∈ X)) as [HgX|HgX].
    + destruct (HG HgX) as [q Hq]. by apply elem_of_nil in Hq.
    + destruct (bfs_cut _ _ _ _ _ _ _ _
        (conj HA (conj HS (conj HC (conj HD (conj HE HG))))) Hw HgX)
        as (? & ? & ? & Hq & _). by apply elem_of_nil in Hq.
  - case_bool_decide as Hgoal.
    2:{ destruct (dd_get g w). by destruct (foldl _ _ _). }
    intros [= <- <-]. subst w. simpl.
    destruct Hinv as (HA & HS & HC & HD & HE & HG).
    destruct (HA goal p ltac:(set_solver)) as (Hp & Hlen & HgX).
    split_and!; [done | lia |]. intros n Hw. specialize (HC goal n HgX Hw). lia.
Qed.

(** * Paths returned on any graph *)

Lemma a_star_body_sound g0 start goal st st' :
  astar_sound g0 start st → a_star_body goal st = Continue st' →
  astar_sound g0 start st'.
Proof.
  destruct st as [[g fr] X]. intros [Hadj Hfr]. simpl in *. unfold a_star_body.
  destruct (heappop astar_ltb fr) as [[[[[f c] x] p] rest]|] eqn:Hpop; [|done].
  apply heappop_perm in Hpop.
  assert (∀ e, e ∈ rest → e ∈ fr) as Hrest by (intros e; rewrite Hpop; set_solver).
  destruct (Hfr f c x p ltac:(rewrite Hpop; set_solver)) as [Hp Hlen].
  case_bool_decide; [done |]. case_bool_decide.
  - intros [= <-]. split; simpl; [done | by eauto].
  - pose proof (dd_get_fst g x) as Hfst. pose proof (dd_get_adj g x) as Hadj'.
    destruct (dd_get g x) as [nexts g'] eqn:Hget. simpl in *. subst nexts.
    intros [= <-]. split; simpl; [intros u; by rewrite Hadj' |].
    intros f' c' y p' [?|(z & Hz & _ & [= -> -> -> ->])]%elem_of_a_star_visits;
      [by eauto |].
    rewrite Hadj in Hz. split; [by econstructor |].
    rewrite length_app. simpl. lia.
Qed.

Lemma a_star_body_sound_ret g0 start goal st r g' :
  astar_sound g0 start st → a_star_body goal st = Return (r, g') →
  sound g0 start goal r.
Proof.
  destruct st as [[g fr] X]. intros [Hadj Hfr]. simpl in *. unfold a_star_body.
  destruct (heappop astar_ltb fr) as [[[[[f c] x] p] rest]|] eqn:Hpop.
  - apply heappop_perm in Hpop.
    destruct (Hfr f c x p ltac:(rewrite Hpop; set_solver)) as [Hp Hlen].
    case_bool_decide as Hgoal.
    2:{ case_bool_decide; [done |]. by destruct (dd_get g x). }
    intros [= <- <-] c' p' [= <- <-]. by subst x.
  - by intros [= <- <-] c' p' [=].
Qed.

Lemma shortest_sound g0 start goal r :
  shortest g0 start goal r → sound g0 start goal r.
Proof. intros Hs c p ->. simpl in Hs. naive_solver. Qed.

Lemma sound_unreachable g0 start goal r :
  sound g0 start goal r → ¬ reachable g0 start goal → r = None.
Proof.
  intros Hs Hnr. destruct r as [[c p]|]; [|done].
  destruct (Hs c p eq_refl) as [(n & _ & Hw)%path_to_walk _].
  destruct Hnr. by exists n.
Qed.

Lemma cpe_scan_inv g0 start target nexts X Q :
  (∀ y, y ∈ nexts → reachable g0 start y) →
  (∀ x, x ∈ Q → reachable g0 start x) →
  match cpe_scan target nexts X Q with
  | Continue (X', Q') => ∀ x, x ∈ Q' → reachable g0 start x
  | Return b => b = true ∧ reachable g0 start target
  end.
Proof.
  revert X Q. induction nexts as [|y nexts IH]; intros X Q Hn HQ; simpl; [done |].
  case_bool_decide as Hy; [subst; split; [done | apply Hn; set_solver] |].
  case_bool_decide.
  - apply IH; [set_solver |]. intros x [?|Hx%list_elem_of_singleton]%elem_of_app;
      [by apply HQ | subst; apply Hn; set_solver].
  - apply IH; [set_solver | done].
Qed.

Lemma cpe_body_inv g0 start target st :
  cpe_inv g0 start st →
  match cpe_body target st with
  | Continue st' => cpe_inv g0 start st'
  | Return (b, _) => b = true → reachable g0 start target
  end.
Proof.
  destruct st as [[g q] X]. intros [Hadj Hq]. simpl in *. unfold cpe_body.
  destruct q as [|x q]; [done |].
  pose proof (dd_get_fst g x) as Hfst. pose proof (dd_get_adj g x) as Hadj'.
  destruct (dd_get g x) as [nexts g'] eqn:Hget. simpl in *. subst nexts.
  pose proof (cpe_scan_inv g0 start target (adj g x) X q) as Hscan.
  destruct (cpe_scan target (adj g x) X q) as [[X' q']|b].
  - split; simpl; [intros u; by rewrite Hadj' |]. apply Hscan; [|set_solver].
    intros y Hy. destruct (Hq x ltac:(set_solver)) as [n Hw].
    exists (S n). econstructor; [done |]. by rewrite <- Hadj.
  - intros _. apply Hscan; [|set_solver].
    intros y Hy. destruct (Hq x ltac:(set_solver)) as [n Hw].
    exists (S n). econstructor; [done |]. by rewrite <- Hadj.
Qed.

(** * What the searches do to the graph *)

Lemma a_star_body_graph goal st :
  match a_star_body goal st with
  | Continue st' => only_empty_added st.1.1 st'.1.1
  | Return (_, g') => g' = st.1.1
  end.
Proof.
  destruct st as [[g fr] X]. unfold a_star_body. simpl.
  destruct (heappop astar_ltb fr) as [[[[[f c] x] p] rest]|]; [|done].
  case_bool_decide; [done |]. case_bool_decide; [apply only_empty_added_refl |].
  pose proof (dd_get_only_empty_added g x). by destruct (dd_get g x).
Qed.

Lemma ucs_body_graph goal st :
  match ucs_body goal st with
  | Continue st' => only_empty_added st.1.1 st'.1.1
  | Return (_, g') => g' = st.1.1
  end.
Proof.
  destruct st as [[g fr] X]. unfold ucs_body. simpl.
  destruct (heappop ucs_ltb fr) as [[[[c x] p] rest]|]; [|done].
  case_bool_decide; [done |]. case_bool_decide; [apply only_empty_added_refl |].
  pose proof (dd_get_only_empty_added g x). by destruct (dd_get g x).
Qed.

Lemma bfs_body_graph goal st :
  match bfs_body goal st with
  | Continue st' => only_empty_added st.1.1 st'.1.1
  | Return (_, g') => g' = st.1.1
  end.
Proof.
  destruct st as [[g q] X]. unfold bfs_body. simpl.
  destruct q as [|[x p] q]; [done |]. case_bool_decide; [done |].
  pose proof (dd_get_only_empty_added g x).
  destruct (dd_get g x). by destruct (foldl _ _ _).
Qed.

Lemma cpe_body_graph target st :
  match cpe_body target st with
  | Continue st' => only_empty_added st.1.1 st'.1.1
  | Return (_, g') => only_empty_added st.1.1 g'
  end.
Proof.
  destruct st as [[g q] X]. unfold cpe_body. simpl.
  destruct q as [|x q]; [apply only_empty_added_refl |].
  pose proof (dd_get_only_empty_added g x).
  destruct (dd_get g x). by destruct (cpe_scan _ _ _ _) as [[? ?]|?].
Qed.

(** A loop whose iterations only add empty lists returns such a graph. *)
Lemma while_loop_graph {E R : Type}
    (body : graph * list E * gset str → step (graph * list E * gset str) (R * graph))
    fuel st r g' :
  (∀ st, match body st with
         | Continue st' => only_empty_added st.1.1 st'.1.1
         | Return (_, g') => only_empty_added st.1.1 g'
         end) →
  while_loop body fuel st = Some (r, g') → only_empty_added st.1.1 g'.
Proof.
  intros Hbody Hrun.
  apply (while_loop_post body (λ s, only_empty_added st.1.1 s.1.1)
           (λ rg, only_empty_added st.1.1 rg.2)) in Hrun; [done | | |].
  - intros s s' Hs Hb. specialize (Hbody s). rewrite Hb in Hbody.
    by eapply only_empty_added_trans.
  - intros s [r' g''] Hs Hb. specialize (Hbody s). rewrite Hb in Hbody.
    by eapply only_empty_added_trans.
  - apply only_empty_added_refl.
Qed.

(** * The heuristic on built graphs *)

Lemma heuristic_nil_r t : heuristic t [] = 0.
Proof. done. Qed.

Lemma heuristic_nil_l u : heuristic [] u = 0.
Proof. unfold heuristic. by destruct u. Qed.

Lemma heuristic_cons a u b t :
  heuristic (b :: t) (a :: u) = (if decide (a = b) then 0 else 1) + heuristic t u.
Proof.
  unfold heuristic. simpl. rewrite filter_cons. simpl.
  destruct (decide (a = b)) as [->|Hne].
  - by rewrite decide_False by (intros H; by apply H).
  - by rewrite decide_True by done.
Qed.

(** Replacing one letter lowers the estimate by at most one. *)
Lemma heuristic_insert t u i c : heuristic t u ≤ S (heuristic t (<[i:=c]> u)).
Proof.
  revert t i. induction u as [|a u IH]; intros t i; [simpl; rewrite heuristic_nil_r; lia |].
  destruct t as [|b t]; [rewrite !heuristic_nil_l; lia |].
  destruct i as [|i]; simpl; rewrite !heuristic_cons.
  - repeat case_decide; lia.
  - specialize (IH t i). lia.
Qed.

Lemma built_consistent self rw rl built goal u v :
  build_word_graph self rw rl = Ret built →
  v ∈ adj (word_graph built) u → heuristic goal u ≤ S (heuristic goal v).
Proof.
  intros Hb (_ & i & c & Hi & _ & _ & -> & _)%(build_word_graph_adj _ _ _ _ _ _ Hb).
  rewrite substitute_insert by done. apply heuristic_insert.
Qed.

Lemma built_walk_length self rw rl built start x n :
  build_word_graph self rw rl = Ret built →
  walk (word_graph built) start x n → length x = length start.
Proof.
  intros Hb. induction 1 as [|x y n _ IH Hy]; [done |].
  apply (build_word_graph_one_letter _ _ _ _ _ _ Hb) in Hy as (i & Hlen & _).
  congruence.
Qed.

(** * The loops, run to their result *)

Lemma bfs_run g start goal fuel :
  search_fuel g ≤ fuel →
  ∃ r g', while_loop (bfs_body goal) fuel (g, [(start, [start])], {[start]})
          = Some (r, g')
          ∧ shortest g start goal r ∧ only_empty_added g g'.
Proof.
  intros Hfuel.
  destruct (while_loop_terminates (bfs_body goal) queue_measure
              (bfs_body_measure goal) fuel (g, [(start, [start])], {[start]}))
    as [[r g'] Hrun].
  { pose proof (queue_measure_init g (start, [start]) {[start]}). lia. }
  exists r, g'. split_and!; [done | |].
  - apply (while_loop_post (bfs_body goal) (bfs_inv g start goal)
             (λ rg, shortest g start goal rg.1)) in Hrun; [done | | |].
    + apply bfs_body_inv.
    + intros s [r' g'']. apply bfs_body_ret.
    + apply bfs_init_inv.
  - apply (while_loop_graph (bfs_body goal)) in Hrun; [done |].
    intros st. pose proof (bfs_body_graph goal st) as H.
    destruct (bfs_body goal st) as [?|[? ?]]; [done | subst; apply only_empty_added_refl].
Qed.

Lemma ucs_run g start goal fuel :
  search_fuel g ≤ fuel →
  ∃ r g', while_loop (ucs_body goal) fuel (g, [(0, start, [start])], ∅)
          = Some (r, g')
          ∧ shortest g start goal r ∧ only_empty_added g g'.
Proof.
  intros Hfuel.
  destruct (while_loop_terminates (ucs_body goal) heap_measure
              (ucs_body_measure goal) fuel (g, [(0, start, [start])], ∅))
    as [[r g'] Hrun].
  { pose proof (heap_measure_init g (0, start, [start])). lia. }
  exists r, g'. split_and!; [done | |].
  - apply (while_loop_post (ucs_body goal) (ucs_inv g start goal)
             (λ rg, shortest g start goal rg.1)) in Hrun; [done | | |].
    + apply ucs_body_inv.
    + intros s [r' g'']. apply ucs_body_ret.
    + split; [done | apply bf_init].
  - apply (while_loop_graph (ucs_body goal)) in Hrun; [done |].
    intros st. pose proof (ucs_body_graph goal st) as H.
    destruct (ucs_body goal st) as [?|[? ?]]; [done | subst; apply only_empty_added_refl].
Qed.

Lemma a_star_run_sound g start goal fuel :
  search_fuel g ≤ fuel →
  ∃ r g', while_loop (a_star_body goal) fuel
            (g, [(heuristic goal start, 0, start, [start])], ∅)
          = Some (r, g')
          ∧ sound g start goal r ∧ only_empty_added g g'.
Proof.
  intros Hfuel.
  destruct (while_loop_terminates (a_star_body goal) heap_measure
              (a_star_body_measure goal) fuel
              (g, [(heuristic goal start, 0, start, [start])], ∅))
    as [[r g'] Hrun].
  { pose proof (heap_measure_init g (heuristic goal start, 0, start, [start])). lia. }
  exists r, g'. split_and!; [done | |].
  - apply (while_loop_post (a_star_body goal) (astar_sound g start)
             (λ rg, sound g start goal rg.1)) in Hrun; [done | | |].
    + apply a_star_body_sound.
    + intros s [r' g'']. apply a_star_body_sound_ret.
    + split; [done |]. simpl.
      intros f c x p [= -> -> -> ->]%list_elem_of_singleton.
      split; [constructor | done].
  - apply (while_loop_graph (a_star_body goal)) in Hrun; [done |].
    intros st. pose proof (a_star_body_graph goal st) as H.
    destruct (a_star_body goal st) as [?|[? ?]]; [done | subst; apply only_empty_added_refl].
Qed.

Lemma a_star_run g start goal fuel r g' :
  (∀ u v, v ∈ adj g u → heuristic goal u ≤ S (heuristic goal v)) →
  while_loop (a_star_body goal) fuel
    (g, [(heuristic goal start, 0, start, [start])], ∅) = Some (r, g') →
  shortest g start goal r.
Proof.
  intros Hcons Hrun.
  apply (while_loop_post (a_star_body goal) (astar_inv g start goal)
           (λ rg, shortest g start goal rg.1)) in Hrun; [done | | |].
  - by apply a_star_body_inv.
  - intros s [r' g'']. by apply a_star_body_ret.
  - split_and!; [done | |]; simpl.
    + by intros f c x p [= -> -> -> ->]%list_elem_of_singleton.
    + apply bf_init.
Qed.

Lemma cpe_run g start target fuel :
  search_fuel g ≤ fuel →
  ∃ b g', while_loop (cpe_body target) fuel (g, [start], {[start]}) = Some (b, g')
          ∧ (b = true → reachable g start target) ∧ only_empty_added g g'.
Proof.
  intros Hfuel.
  destruct (while_loop_terminates (cpe_body target) queue_measure
              (cpe_body_measure target) fuel (g, [start], {[start]}))
    as [[b g'] Hrun].
  { pose proof (queue_measure_init g start {[start]}). lia. }
  exists b, g'. split_and!; [done | |].
  - change ((λ bg : bool * graph, bg.1 = true → reachable g start target) (b, g')).
    eapply (while_loop_post (cpe_body target) (cpe_inv g start)); [| | |exact Hrun].
    + intros s s' Hs Hb. pose proof (cpe_body_inv g start target s Hs) as H.
      by rewrite Hb in H.
    + intros s [b' g''] Hs Hb. pose proof (cpe_body_inv g start target s Hs) as H.
      by rewrite Hb in H.
    + split; [done |]. simpl. intros x ->%list_elem_of_singleton. exists 0. constructor.
  - apply (while_loop_graph (cpe_body target)) in Hrun; [done |].
    intros st. apply cpe_body_graph.
Qed.

(** * The searches as methods *)

Lemma set_word_graph_id self : set_word_graph self (word_graph self) = self.
Proof. by destruct self. Qed.

Lemma keeps_entries_set self g' :
  only_empty_added (word_graph self) g' →
  keeps_entries self (set_word_graph self g').
Proof.
  intros H. split_and!; [done | done |]. intros u. simpl.
  by apply only_empty_added_adj.
Qed.

Lemma breadth_first_search_run self fuel :
  search_fuel (word_graph self) ≤ fuel →
  ∃ r self', breadth_first_search fuel self = Some (r, self')
    ∧ shortest (word_graph self) (current_word self) (target_word self) r
    ∧ keeps_entries self self'.
Proof.
  intros Hfuel.
  destruct (bfs_run (word_graph self) (current_word self) (target_word self)
              fuel Hfuel) as (r & g' & Hrun & Hs & Hg).
  exists r, (set_word_graph self g'). unfold breadth_first_search, bfs_init.
  rewrite Hrun. split_and!; [done | done | by apply keeps_entries_set].
Qed.

Lemma uniform_cost_search_run self fuel :
  search_fuel (word_graph self) ≤ fuel →
  ∃ r self', uniform_cost_search fuel self = Some (r, self')
    ∧ shortest (word_graph self) (current_word self) (target_word self) r
    ∧ keeps_entries self self'.
Proof.
  intros Hfuel.
  destruct (ucs_run (word_graph self) (current_word self) (target_word self)
              fuel Hfuel) as (r & g' & Hrun & Hs & Hg).
  exists r, (set_word_graph self g'). unfold uniform_cost_search, ucs_init.
  rewrite Hrun. split_and!; [done | done | by apply keeps_entries_set].
Qed.

Lemma a_star_search_run self fuel :
  search_fuel (word_graph self) ≤ fuel →
  ∃ r self', a_star_search fuel self = Some (r, self')
    ∧ sound (word_graph self) (current_word self) (target_word self) r
    ∧ keeps_entries self self'
    ∧ ((∀ u v, v ∈ adj (word_graph self) u →
          heuristic (target_word self) u ≤ S (heuristic (target_word self) v)) →
       shortest (word_graph self) (current_word self) (target_word self) r).
Proof.
  intros Hfuel.
  destruct (a_star_run_sound (word_graph self) (current_word self)
              (target_word self) fuel Hfuel) as (r & g' & Hrun & Hs & Hg).
  exists r, (set_word_graph self g'). unfold a_star_search, a_star_init.
  rewrite Hrun. split_and!; [done | done | by apply keeps_entries_set |].
  intros Hcons. by eapply a_star_run.
Qed.

Lemma check_path_exists_run self start target fuel :
  search_fuel (word_graph self) ≤ fuel →
  ∃ b self', check_path_exists fuel self start target = Some (b, self')
    ∧ (b = true → reachable (word_graph self) start target)
    ∧ keeps_entries self self'.
Proof.
  intros Hfuel. unfold check_path_exists. case_bool_decide as Heq.
  - exists true, self. split_and!; [done | |].
    + intros _. subst. exists 0. constructor.
    + rewrite <- (set_word_graph_id self) at 2.
      apply keeps_entries_set, only_empty_added_refl.
  - destruct (cpe_run (word_graph self) start target fuel Hfuel)
      as (b & g' & Hrun & Hb & Hg).
    exists b, (set_word_graph self g'). rewrite Hrun.
    split_and!; [done | done | by apply keeps_entries_set].
Qed.

(** * Properties of the searches *)

(** C6. When start and goal are the same word, each of the three
    searches returns cost 0 and the path holding that word alone, and
    the game, its graph included, is left as it was: no adjacency list
    is read, so no key is inserted even when the word is not a key. *)
Theorem search_same_word self word fuel :
  breadth_first_search (S fuel) (set_words self word word)
  = Some (Some (0, [word]), set_words self word word)
  ∧ uniform_cost_search (S fuel) (set_words self word word)
    = Some (Some (0, [word]), set_words self word word)
  ∧ a_star_search (S fuel) (set_words self word word)
    = Some (Some (0, [word]), set_words self word word).
Proof.
  unfold breadth_first_search, uniform_cost_search, a_star_search.
  unfold bfs_init, ucs_init, a_star_init. simpl.
  rewrite !bool_decide_true by done. done.
Qed.

(** C7. [check_path_exists] with start equal to target returns [True],
    whatever the graph holds, and leaves the game as it was. *)
Theorem check_path_exists_same_word self word fuel :
  check_path_exists fuel self word word = Some (true, self).
Proof. unfold check_path_exists. by rewrite bool_decide_true. Qed.

(** C9. On every graph and for every query each of the four searches
    returns within [search_fuel] iterations.  Every iteration that does
    not return lowers the measure of its loop: the items waiting in the
    frontier or queue, plus, for the priority searches, the pops and
    pushes still owed by the keys not yet explored (an explored word is
    never expanded again) and, for the queue searches, the words not yet
    marked (a marked word is never enqueued again). *)
Theorem searches_terminate :
  (∀ goal st st',
     bfs_body goal st = Continue st' → queue_measure st' < queue_measure st)
  ∧ (∀ goal st st',
       ucs_body goal st = Continue st' → heap_measure st' < heap_measure st)
  ∧ (∀ goal st st',
       a_star_body goal st = Continue st' → heap_measure st' < heap_measure st)
  ∧ (∀ target st st',
       cpe_body target st = Continue st' → queue_measure st' < queue_measure st)
  ∧ (∀ self start goal fuel,
       search_fuel (word_graph self) ≤ fuel →
       is_Some (breadth_first_search fuel (set_words self start goal))
       ∧ is_Some (uniform_cost_search fuel (set_words self start goal))
       ∧ is_Some (a_star_search fuel (set_words self start goal))
       ∧ is_Some (check_path_exists fuel self start goal)).
Proof.
  split_and!.
  - apply bfs_body_measure.
  - apply ucs_body_measure.
  - apply a_star_body_measure.
  - apply cpe_body_measure.
  - intros self start goal fuel Hfuel.
    destruct (breadth_first_search_run (set_words self start goal) fuel Hfuel)
      as (? & ? & -> & _).
    destruct (uniform_cost_search_run (set_words self start goal) fuel Hfuel)
      as (? & ? & -> & _).
    destruct (a_star_search_run (set_words self start goal) fuel Hfuel)
      as (? & ? & -> & _).
    destruct (check_path_exists_run self start goal fuel Hfuel)
      as (? & ? & -> & _).
    by split_and!.
Qed.

Lemma searches_terminate_witness :
  search_fuel (word_graph five_words_built) ≤ 30
  ∧ is_Some (breadth_first_search 30 (set_words five_words_built (w "cat") (w "dot")))
  ∧ is_Some (uniform_cost_search 30 (set_words five_words_built (w "cat") (w "dot")))
  ∧ is_Some (a_star_search 30 (set_words five_words_built (w "cat") (w "dot")))
  ∧ is_Some (check_path_exists 30 five_words_built (w "cat") (w "dot")).
Proof.
  assert (search_fuel (word_graph five_words_built) ≤ 30) as Hfuel by by_compute.
  split; [exact Hfuel |].
  exact (proj2 (proj2 (proj2 (proj2 searches_terminate)))
           five_words_built (w "cat") (w "dot") 30 Hfuel).
Defined.

(** With no path from start to goal every search reports so. *)
Lemma no_path_results self start goal fuel :
  start ≠ goal →
  ¬ reachable (word_graph self) start goal →
  search_fuel (word_graph self) ≤ fuel →
  (∃ self', breadth_first_search fuel (set_words self start goal)
            = Some (None, self'))
  ∧ (∃ self', uniform_cost_search fuel (set_words self start goal)
              = Some (None, self'))
  ∧ (∃ self', a_star_search fuel (set_words self start goal)
              = Some (None, self'))
  ∧ (∃ self', check_path_exists fuel self start goal = Some (false, self')).
Proof.
  intros Hne Hnr Hfuel.
  destruct (breadth_first_search_run (set_words self start goal) fuel Hfuel)
    as (rb & sb & -> & Hb%shortest_sound & _).
  destruct (uniform_cost_search_run (set_words self start goal) fuel Hfuel)
    as (ru & su & -> & Hu%shortest_sound & _).
  destruct (a_star_search_run (set_words self start goal) fuel Hfuel)
    as (ra & sa & -> & Ha & _).
  destruct (check_path_exists_run self start goal fuel Hfuel)
    as (b & sc & -> & Hc & _).
  simpl in *.
  rewrite (sound_unreachable _ _ _ _ Hb Hnr), (sound_unreachable _ _ _ _ Hu Hnr),
    (sound_unreachable _ _ _ _ Ha Hnr).
  destruct b; [by destruct Hnr; apply Hc | eauto 10].
Qed.

Lemma unreachable_empty (g : graph) start goal :
  g = ∅ → start ≠ goal → ¬ reachable g start goal.
Proof.
  intros -> Hne [n Hw]. destruct Hw as [|x y n _ Hy]; [done |].
  rewrite adj_empty in Hy. by apply elem_of_nil in Hy.
Qed.

(** C8. When the goal differs from the start and no chain of adjacency
    entries leads to it, the three searches return the no-path result
    and [check_path_exists] returns [False]; so for cat and dog over the
    dictionary of these two words. *)
Theorem unreachable_no_path :
  (∀ self start goal fuel,
     start ≠ goal →
     ¬ reachable (word_graph self) start goal →
     search_fuel (word_graph self) ≤ fuel →
     (∃ self', breadth_first_search fuel (set_words self start goal)
               = Some (None, self'))
     ∧ (∃ self', uniform_cost_search fuel (set_words self start goal)
                 = Some (None, self'))
     ∧ (∃ self', a_star_search fuel (set_words self start goal)
                 = Some (None, self'))
     ∧ (∃ self', check_path_exists fuel self start goal = Some (false, self')))
  ∧ (build_word_graph cat_dog [] [] = Ret cat_dog_built
     ∧ fst <$> breadth_first_search 2 (set_words cat_dog_built (w "cat") (w "dog"))
       = Some None
     ∧ fst <$> uniform_cost_search 2 (set_words cat_dog_built (w "cat") (w "dog"))
       = Some None
     ∧ fst <$> a_star_search 2 (set_words cat_dog_built (w "cat") (w "dog"))
       = Some None
     ∧ fst <$> check_path_exists 2 cat_dog_built (w "cat") (w "dog") = Some false).
Proof.
  split; [apply no_path_results |].
  split_and!; [by_return | by_compute..].
Qed.

Lemma unreachable_no_path_witness :
  w "cat" ≠ w "dog"
  ∧ ¬ reachable (word_graph cat_dog_built) (w "cat") (w "dog")
  ∧ search_fuel (word_graph cat_dog_built) ≤ 2
  ∧ (∃ self', breadth_first_search 2 (set_words cat_dog_built (w "cat") (w "dog"))
              = Some (None, self'))
  ∧ (∃ self', uniform_cost_search 2 (set_words cat_dog_built (w "cat") (w "dog"))
              = Some (None, self'))
  ∧ (∃ self', a_star_search 2 (set_words cat_dog_built (w "cat") (w "dog"))
              = Some (None, self'))
  ∧ (∃ self', check_path_exists 2 cat_dog_built (w "cat") (w "dog")
              = Some (false, self')).
Proof.
  assert (w "cat" ≠ w "dog") as Hne by by_compute.
  assert (¬ reachable (word_graph cat_dog_built) (w "cat") (w "dog")) as Hnr
    by (apply unreachable_empty; [by_compute | exact Hne]).
  assert (search_fuel (word_graph cat_dog_built) ≤ 2) as Hfuel by by_compute.
  split_and!; [exact Hne | exact Hnr | exact Hfuel | ..];
    apply (proj1 unreachable_no_path cat_dog_built (w "cat") (w "dog") 2 Hne Hnr Hfuel).
Defined.

(** C4 as stated fails: a search reads [self.word_graph[current]] on a
    [defaultdict], which inserts the key when it is missing.  Over the
    dictionary of cat and dog the built graph has no key, and after any
    of the four searches from cat to dog it has the key cat. *)
Lemma search_inserts_missing_key :
  build_word_graph cat_dog [] [] = Ret cat_dog_built
  ∧ dom (word_graph cat_dog_built) = ∅
  ∧ (dom ∘ word_graph ∘ snd)
      <$> breadth_first_search 2 (set_words cat_dog_built (w "cat") (w "dog"))
    = Some {[ w "cat" ]}
  ∧ (dom ∘ word_graph ∘ snd)
      <$> uniform_cost_search 2 (set_words cat_dog_built (w "cat") (w "dog"))
    = Some {[ w "cat" ]}
  ∧ (dom ∘ word_graph ∘ snd)
      <$> a_star_search 2 (set_words cat_dog_built (w "cat") (w "dog"))
    = Some {[ w "cat" ]}
  ∧ (dom ∘ word_graph ∘ snd)
      <$> check_path_exists 2 cat_dog_built (w "cat") (w "dog")
    = Some {[ w "cat" ]}
  ∧ ({[ w "cat" ]} : gset str) ≠ ∅.
Proof. split_and!; [by_return | by_compute..]. Qed.

Lemma dd_get_lookup g k : (dd_get g k).2 !! k = Some (adj g k).
Proof.
  unfold dd_get, adj. destruct (g !! k) eqn:Hk; simpl; [done |].
  by rewrite lookup_insert_eq.
Qed.

Lemma bfs_body_reads goal st x :
  bfs_expands goal st x →
  graph_after (bfs_body goal st) !! x = Some (adj st.1.1 x).
Proof.
  destruct st as [[g q] X]. intros (p & q' & Hq & Hne). simpl in *. subst q.
  unfold bfs_body. rewrite bool_decide_false by done.
  pose proof (dd_get_lookup g x) as Hl.
  destruct (dd_get g x) as [nexts g1]. by destruct (foldl _ _ _).
Qed.

Lemma ucs_body_reads goal st x :
  ucs_expands goal st x →
  graph_after (ucs_body goal st) !! x = Some (adj st.1.1 x).
Proof.
  destruct st as [[g fr] X]. intros (c & p & rest & Hpop & Hg & HX).
  simpl in *. unfold ucs_body. rewrite Hpop.
  rewrite bool_decide_false by done. rewrite bool_decide_false by done.
  pose proof (dd_get_lookup g x) as Hl. by destruct (dd_get g x).
Qed.

Lemma a_star_body_reads goal st x :
  astar_expands goal st x →
  graph_after (a_star_body goal st) !! x = Some (adj st.1.1 x).
Proof.
  destruct st as [[g fr] X]. intros (f & c & p & rest & Hpop & Hg & HX).
  simpl in *. unfold a_star_body. rewrite Hpop.
  rewrite bool_decide_false by done. rewrite bool_decide_false by done.
  pose proof (dd_get_lookup g x) as Hl. by destruct (dd_get g x).
Qed.

Lemma cpe_body_reads target st x :
  cpe_expands st x →
  graph_after (cpe_body target st) !! x = Some (adj st.1.1 x).
Proof.
  destruct st as [[g q] X]. intros (q' & Hq). simpl in *. subst q.
  unfold cpe_body. pose proof (dd_get_lookup g x) as Hl.
  destruct (dd_get g x) as [nexts g1].
  by destruct (cpe_scan _ _ _ _) as [[? ?]|?].
Qed.

(** A key that an iteration of a run inserts is a key of the graph the
    run returns, under the list read at the start. *)
Lemma run_keeps_lookup {E R : Type}
    (body : graph * list E * gset str → step (graph * list E * gset str) (R * graph))
    n :
  (∀ st, match body st with
         | Continue st' => only_empty_added st.1.1 st'.1.1
         | Return (_, g') => only_empty_added st.1.1 g'
         end) →
  ∀ fuel s st r g' x,
    while_loop body fuel s = Some (r, g') →
    iterate body n s = Some st →
    graph_after (body st) !! x = Some (adj st.1.1 x) →
    g' !! x = Some (adj s.1.1 x).
Proof.
  intros Hbody. induction n as [|n IH]; intros fuel s st r g' x Hrun Hit Hx.
  - simpl in Hit. injection Hit as <-.
    destruct fuel as [|fuel]; [done |]. simpl in Hrun.
    destruct (body s) as [s'|[r0 g0]] eqn:Hb; simpl in Hx.
    + apply (while_loop_graph body) in Hrun; [|done].
      destruct (Hrun x) as [->|[Hnone _]]; [done | congruence].
    + by injection Hrun as <- <-.
  - simpl in Hit. destruct fuel as [|fuel]; [done |]. simpl in Hrun.
    pose proof (Hbody s) as Hs.
    destruct (body s) as [s'|[r0 g0]] eqn:Hb; [|done].
    rewrite (IH fuel s' st r g' x Hrun Hit Hx).
    by rewrite (only_empty_added_adj _ _ x Hs).
Qed.

Lemma bfs_body_only_adds goal st :
  match bfs_body goal st with
  | Continue st' => only_empty_added st.1.1 st'.1.1
  | Return (_, g') => only_empty_added st.1.1 g'
  end.
Proof.
  pose proof (bfs_body_graph goal st) as H.
  destruct (bfs_body goal st) as [?|[? ?]]; [done | subst; apply only_empty_added_refl].
Qed.

Lemma ucs_body_only_adds goal st :
  match ucs_body goal st with
  | Continue st' => only_empty_added st.1.1 st'.1.1
  | Return (_, g') => only_empty_added st.1.1 g'
  end.
Proof.
  pose proof (ucs_body_graph goal st) as H.
  destruct (ucs_body goal st) as [?|[? ?]]; [done | subst; apply only_empty_added_refl].
Qed.

Lemma a_star_body_only_adds goal st :
  match a_star_body goal st with
  | Continue st' => only_empty_added st.1.1 st'.1.1
  | Return (_, g') => only_empty_added st.1.1 g'
  end.
Proof.
  pose proof (a_star_body_graph goal st) as H.
  destruct (a_star_body goal st) as [?|[? ?]]; [done | subst; apply only_empty_added_refl].
Qed.

(** C4, amended.  An iteration of any of the four searches that reads
    the adjacency list of a word leaves that word a key of the graph,
    under the list it read: the empty list when the word was not a key.
    Each search returns a game in which only the graph may differ and
    every key keeps its adjacency list; every word whose list an
    iteration of the run read - the start word, when it is not the goal,
    and every word expanded later - is a key of the returned graph,
    under its old list, or the empty list if it was not a key; so the
    adjacency list read under any word is the same before and after. *)
Theorem searches_keep_entries :
  (∀ goal st x, bfs_expands goal st x →
     graph_after (bfs_body goal st) !! x = Some (adj st.1.1 x))
  ∧ (∀ goal st x, ucs_expands goal st x →
       graph_after (ucs_body goal st) !! x = Some (adj st.1.1 x))
  ∧ (∀ goal st x, astar_expands goal st x →
       graph_after (a_star_body goal st) !! x = Some (adj st.1.1 x))
  ∧ (∀ target st x, cpe_expands st x →
       graph_after (cpe_body target st) !! x = Some (adj st.1.1 x))
  ∧ ∀ self start goal fuel,
      search_fuel (word_graph self) ≤ fuel →
      (∃ r self',
         breadth_first_search fuel (set_words self start goal) = Some (r, self')
         ∧ keeps_entries (set_words self start goal) self'
         ∧ (∀ n st x,
              iterate (bfs_body goal) n (bfs_init (set_words self start goal))
              = Some st →
              bfs_expands goal st x →
              word_graph self' !! x = Some (adj (word_graph self) x))
         ∧ (start ≠ goal →
            word_graph self' !! start = Some (adj (word_graph self) start)))
      ∧ (∃ r self',
           uniform_cost_search fuel (set_words self start goal) = Some (r, self')
           ∧ keeps_entries (set_words self start goal) self'
           ∧ (∀ n st x,
                iterate (ucs_body goal) n (ucs_init (set_words self start goal))
                = Some st →
                ucs_expands goal st x →
                word_graph self' !! x = Some (adj (word_graph self) x))
           ∧ (start ≠ goal →
              word_graph self' !! start = Some (adj (word_graph self) start)))
      ∧ (∃ r self',
           a_star_search fuel (set_words self start goal) = Some (r, self')
           ∧ keeps_entries (set_words self start goal) self'
           ∧ (∀ n st x,
                iterate (a_star_body goal) n
                  (a_star_init (set_words self start goal)) = Some st →
                astar_expands goal st x →
                word_graph self' !! x = Some (adj (word_graph self) x))
           ∧ (start ≠ goal →
              word_graph self' !! start = Some (adj (word_graph self) start)))
      ∧ (∃ b self',
           check_path_exists fuel self start goal = Some (b, self')
           ∧ keeps_entries self self'
           ∧ (start ≠ goal →
              (∀ n st x,
                 iterate (cpe_body goal) n (word_graph self, [start], {[start]})
                 = Some st →
                 cpe_expands st x →
                 word_graph self' !! x = Some (adj (word_graph self) x))
              ∧ word_graph self' !! start = Some (adj (word_graph self) start))).
Proof.
  split_and!;
    [apply bfs_body_reads | apply ucs_body_reads | apply a_star_body_reads
    | apply cpe_body_reads |].
  intros self start goal fuel Hfuel. split_and!.
  - destruct (breadth_first_search_run (set_words self start goal) fuel Hfuel)
      as (r & self' & Hrun & _ & Hkeep).
    exists r, self'. split_and!; [done.. | |].
    + revert Hrun. unfold breadth_first_search. simpl.
      destruct (while_loop _ _ _) as [[r0 g']|] eqn:Hloop; [|done].
      intros [= <- <-] n st x Hit Hx. simpl.
      apply (run_keeps_lookup (bfs_body goal) n (bfs_body_only_adds goal)
               _ _ _ _ _ _ Hloop Hit).
      by apply bfs_body_reads.
    + intros Hne. revert Hrun. unfold breadth_first_search. simpl.
      destruct (while_loop _ _ _) as [[r0 g']|] eqn:Hloop; [|done].
      intros [= <- <-]. simpl.
      apply (run_keeps_lookup (bfs_body goal) 0 (bfs_body_only_adds goal)
               _ _ _ _ _ _ Hloop eq_refl).
      apply bfs_body_reads. by eexists _, _.
  - destruct (uniform_cost_search_run (set_words self start goal) fuel Hfuel)
      as (r & self' & Hrun & _ & Hkeep).
    exists r, self'. split_and!; [done.. | |].
    + revert Hrun. unfold uniform_cost_search. simpl.
      destruct (while_loop _ _ _) as [[r0 g']|] eqn:Hloop; [|done].
      intros [= <- <-] n st x Hit Hx. simpl.
      apply (run_keeps_lookup (ucs_body goal) n (ucs_body_only_adds goal)
               _ _ _ _ _ _ Hloop Hit).
      by apply ucs_body_reads.
    + intros Hne. revert Hrun. unfold uniform_cost_search. simpl.
      destruct (while_loop _ _ _) as [[r0 g']|] eqn:Hloop; [|done].
      intros [= <- <-]. simpl.
      apply (run_keeps_lookup (ucs_body goal) 0 (ucs_body_only_adds goal)
               _ _ _ _ _ _ Hloop eq_refl).
      apply ucs_body_reads. by eexists _, _, _.
  - destruct (a_star_search_run (set_words self start goal) fuel Hfuel)
      as (r & self' & Hrun & _ & Hkeep & _).
    exists r, self'. split_and!; [done.. | |].
    + revert Hrun. unfold a_star_search. simpl.
      destruct (while_loop _ _ _) as [[r0 g']|] eqn:Hloop; [|done].
      intros [= <- <-] n st x Hit Hx. simpl.
      apply (run_keeps_lookup (a_star_body goal) n (a_star_body_only_adds goal)
               _ _ _ _ _ _ Hloop Hit).
      by apply a_star_body_reads.
    + intros Hne. revert Hrun. unfold a_star_search. simpl.
      destruct (while_loop _ _ _) as [[r0 g']|] eqn:Hloop; [|done].
      intros [= <- <-]. simpl.
      apply (run_keeps_lookup (a_star_body goal) 0 (a_star_body_only_adds goal)
               _ _ _ _ _ _ Hloop eq_refl).
      apply a_star_body_reads. by eexists _, _, _, _.
  - destruct (check_path_exists_run self start goal fuel Hfuel)
      as (b & self' & Hrun & _ & Hkeep).
    exists b, self'. split_and!; [done.. |]. intros Hne.
    revert Hrun. unfold check_path_exists. rewrite bool_decide_false by done.
    destruct (while_loop _ _ _) as [[b0 g']|] eqn:Hloop; [|done].
    intros [= <- <-]. simpl. split.
    + intros n st x Hit Hx.
      apply (run_keeps_lookup (cpe_body goal) n (cpe_body_graph goal)
               _ _ _ _ _ _ Hloop Hit).
      by apply cpe_body_reads.
    + apply (run_keeps_lookup (cpe_body goal) 0 (cpe_body_graph goal)
               _ _ _ _ _ _ Hloop eq_refl).
      apply cpe_body_reads. by eexists.
Qed.

Lemma searches_keep_entries_witness :
  search_fuel (word_graph five_words_built) ≤ 30
  ∧ w "dog" ≠ w "dot"
  ∧ word_graph five_words_built !! w "dog" = None
  ∧ word_graph five_words_built !! w "cat" = Some (w <$> ["bat"; "hat"]%string)
  ∧ (∃ r self',
       breadth_first_search 30 (set_words five_words_built (w "dog") (w "dot"))
       = Some (r, self')
       ∧ word_graph self' !! w "dog" = Some []
       ∧ word_graph self' !! w "cat" = Some (w <$> ["bat"; "hat"]%string))
  ∧ (∃ r self',
       a_star_search 30 (set_words five_words_built (w "dog") (w "dot"))
       = Some (r, self')
       ∧ word_graph self' !! w "dog" = Some []
       ∧ word_graph self' !! w "cat" = Some (w <$> ["bat"; "hat"]%string))
  ∧ (∃ b self',
       check_path_exists 30 five_words_built (w "dog") (w "dot") = Some (b, self')
       ∧ word_graph self' !! w "dog" = Some []
       ∧ word_graph self' !! w "cat" = Some (w <$> ["bat"; "hat"]%string)).
Proof.
  assert (search_fuel (word_graph five_words_built) ≤ 30) as Hfuel by by_compute.
  assert (w "dog" ≠ w "dot") as Hne by by_compute.
  assert (word_graph five_words_built !! w "dog" = None) as Hdog by by_compute.
  assert (word_graph five_words_built !! w "cat"
          = Some (w <$> ["bat"; "hat"]%string)) as Hcat by by_compute.
  assert (adj (word_graph five_words_built) (w "dog") = []) as Hadj.
  { unfold adj. rewrite Hdog. reflexivity. }
  destruct (proj2 (proj2 (proj2 (proj2 searches_keep_entries)))
              five_words_built (w "dog") (w "dot") 30 Hfuel)
    as ((rb & sb & Hb & (_ & Hkb & _) & _ & Hsb)
        & _
        & (ra & sa & Ha & (_ & Hka & _) & _ & Hsa)
        & (bc & sc & Hc & (_ & Hkc & _) & Hsc)).
  split_and!; [exact Hfuel | exact Hne | exact Hdog | exact Hcat | | |].
  - exists rb, sb. split_and!; [exact Hb | |].
    + rewrite <- Hadj. exact (Hsb Hne).
    + destruct (Hkb (w "cat")) as [Heq|[Hnone _]].
      * cbn [set_words word_graph] in Heq. rewrite Heq. exact Hcat.
      * cbn [set_words word_graph] in Hnone. rewrite Hcat in Hnone. discriminate.
  - exists ra, sa. split_and!; [exact Ha | |].
    + rewrite <- Hadj. exact (Hsa Hne).
    + destruct (Hka (w "cat")) as [Heq|[Hnone _]].
      * cbn [set_words word_graph] in Heq. rewrite Heq. exact Hcat.
      * cbn [set_words word_graph] in Hnone. rewrite Hcat in Hnone. discriminate.
  - exists bc, sc. split_and!; [exact Hc | |].
    + rewrite <- Hadj. exact (proj2 (Hsc Hne)).
    + destruct (Hkc (w "cat")) as [Heq|[Hnone _]].
      * rewrite Heq. exact Hcat.
      * rewrite Hcat in Hnone. discriminate.
Defined.

(** In a built graph a walk of at least one entry joins two words of the
    effective dictionary. *)
Lemma built_walk_members self rw rl built start x n :
  build_word_graph self rw rl = Ret built →
  walk (word_graph built) start x n →
  x = start ∨ (start ∈ effective_words built ∧ x ∈ effective_words built).
Proof.
  intros Hb. induction 1 as [|x y n _ IH Hy]; [by left |]. right.
  apply (build_word_graph_adj _ _ _ _ _ _ Hb) in Hy
    as (Hx & _ & _ & _ & _ & _ & _ & Hy & _).
  destruct IH as [->|[? _]]; done.
Qed.

(** C5 as stated fails: no search checks the lengths of its words.  For
    cat and do, of lengths 3 and 2, the three searches return the
    no-path result as for any unreachable goal. *)
Lemma mismatched_lengths_not_rejected :
  build_word_graph five_words [] [] = Ret five_words_built
  ∧ length (w "cat") ≠ length (w "do")
  ∧ fst <$> breadth_first_search 30 (set_words five_words_built (w "cat") (w "do"))
    = Some None
  ∧ fst <$> uniform_cost_search 30 (set_words five_words_built (w "cat") (w "do"))
    = Some None
  ∧ fst <$> a_star_search 30 (set_words five_words_built (w "cat") (w "do"))
    = Some None.
Proof. split_and!; [by_return | by_compute..]. Qed.

(** C5, amended.  On a built graph, a query whose two words differ in
    length, or one of whose words is not in the effective dictionary
    (as when its length is not the dictionary's) while start and goal
    differ, gets the no-path result from each of the three searches;
    no error is signalled. *)
Theorem mismatched_query_no_path self rnd_words rnd_letters built start goal fuel :
  build_word_graph self rnd_words rnd_letters = Ret built →
  length start ≠ length goal
  ∨ (start ≠ goal
     ∧ (start ∉ effective_words built ∨ goal ∉ effective_words built)) →
  search_fuel (word_graph built) ≤ fuel →
  (∃ self', breadth_first_search fuel (set_words built start goal)
            = Some (None, self'))
  ∧ (∃ self', uniform_cost_search fuel (set_words built start goal)
              = Some (None, self'))
  ∧ (∃ self', a_star_search fuel (set_words built start goal)
              = Some (None, self')).
Proof.
  intros Hb Hq Hfuel.
  assert (start ≠ goal) as Hne by (destruct Hq as [?|[? _]]; [congruence | done]).
  assert (¬ reachable (word_graph built) start goal) as Hnr.
  { intros [n Hw]. destruct Hq as [Hlen|[_ Hout]].
    - apply Hlen. symmetry. by eapply built_walk_length.
    - destruct (built_walk_members _ _ _ _ _ _ _ Hb Hw) as [?|[? ?]]; [done |].
      by destruct Hout. }
  destruct (no_path_results built start goal fuel Hne Hnr Hfuel) as (? & ? & ? & _).
  done.
Qed.

Lemma mismatched_query_no_path_witness :
  build_word_graph five_words [] [] = Ret five_words_built
  ∧ (length (w "cat") ≠ length (w "do")
     ∨ (w "cat" ≠ w "do"
        ∧ (w "cat" ∉ effective_words five_words_built
           ∨ w "do" ∉ effective_words five_words_built)))
  ∧ search_fuel (word_graph five_words_built) ≤ 30
  ∧ (∃ self', breadth_first_search 30 (set_words five_words_built (w "cat") (w "do"))
              = Some (None, self'))
  ∧ (∃ self', uniform_cost_search 30 (set_words five_words_built (w "cat") (w "do"))
              = Some (None, self'))
  ∧ (∃ self', a_star_search 30 (set_words five_words_built (w "cat") (w "do"))
              = Some (None, self')).
Proof.
  assert (build_word_graph five_words [] [] = Ret five_words_built) as Hb
    by by_return.
  assert (length (w "cat") ≠ length (w "do")
     ∨ (w "cat" ≠ w "do"
        ∧ (w "cat" ∉ effective_words five_words_built
           ∨ w "do" ∉ effective_words five_words_built))) as Hq
    by (left; by_compute).
  assert (search_fuel (word_graph five_words_built) ≤ 30) as Hfuel by by_compute.
  split_and!; [exact Hb | exact Hq | exact Hfuel | ..];
    apply (mismatched_query_no_path five_words [] [] five_words_built
             (w "cat") (w "do") 30 Hb Hq Hfuel).
Defined.

(** * Agreement of the three searches *)

Lemma shortest_found g start goal r :
  shortest g start goal r → reachable g start goal → ∃ c p, r = Some (c, p).
Proof. destruct r as [[c p]|]; [eauto | by intros ? ?]. Qed.

Lemma shortest_cost g start goal c1 p1 c2 p2 :
  shortest g start goal (Some (c1, p1)) → shortest g start goal (Some (c2, p2)) →
  c1 = c2.
Proof.
  intros (Hp1 & Hl1 & Hmin1) (Hp2 & Hl2 & Hmin2).
  apply path_to_walk in Hp1 as (n1 & ? & Hw1).
  apply path_to_walk in Hp2 as (n2 & ? & Hw2).
  apply Hmin2 in Hw1. apply Hmin1 in Hw2. lia.
Qed.

Lemma path_to_ladder self rw rl built start goal c p :
  build_word_graph self rw rl = Ret built →
  path_to (word_graph built) start goal p → length p = S c →
  ladder built start goal c p.
Proof.
  intros Hb Hp Hlen. split_and!.
  - lia.
  - by eapply path_to_head.
  - by eapply path_to_last.
  - intros i x y Hx Hy.
    eapply (build_word_graph_one_letter _ _ _ _ _ _ Hb), path_to_adjacent; done.
  - intros i x [Hi Hic] Hx.
    destruct (lookup_lt_is_Some_2 p (S i) ltac:(lia)) as [y Hy].
    pose proof (path_to_adjacent _ _ _ _ _ _ _ Hp Hx Hy) as Hxy.
    split; [by eapply adj_nonempty_dom |].
    destruct i as [|i]; [lia |].
    destruct (lookup_lt_is_Some_2 p i ltac:(lia)) as [z Hz].
    pose proof (path_to_adjacent _ _ _ _ _ _ _ Hp Hz Hx) as Hzx.
    by apply (build_word_graph_adj _ _ _ _ _ _ Hb) in Hzx
      as (_ & _ & _ & _ & _ & _ & _ & ? & _).
Qed.

(** C2. On a built graph, for a goal reachable from the start, the three
    searches return the same cost, and each returns a path of cost + 1
    words from start to goal whose consecutive words differ in exactly
    one letter and whose intermediate words are keys of the graph and
    words of the effective dictionary.  The common cost is the least
    number of entries leading from start to goal. *)
Theorem searches_agree self rnd_words rnd_letters built start goal fuel :
  build_word_graph self rnd_words rnd_letters = Ret built →
  reachable (word_graph built) start goal →
  search_fuel (word_graph built) ≤ fuel →
  ∃ cost pb pu pa sb su sa,
    breadth_first_search fuel (set_words built start goal)
    = Some (Some (cost, pb), sb)
    ∧ uniform_cost_search fuel (set_words built start goal)
      = Some (Some (cost, pu), su)
    ∧ a_star_search fuel (set_words built start goal)
      = Some (Some (cost, pa), sa)
    ∧ ladder built start goal cost pb
    ∧ ladder built start goal cost pu
    ∧ ladder built start goal cost pa
    ∧ ∀ n, walk (word_graph built) start goal n → cost ≤ n.
Proof.
  intros Hb Hreach Hfuel.
  destruct (breadth_first_search_run (set_words built start goal) fuel Hfuel)
    as (rb & sb & Hrb & Hsb & _).
  destruct (uniform_cost_search_run (set_words built start goal) fuel Hfuel)
    as (ru & su & Hru & Hsu & _).
  destruct (a_star_search_run (set_words built start goal) fuel Hfuel)
    as (ra & sa & Hra & _ & _ & Hsa).
  simpl in *.
  specialize (Hsa (λ u v, built_consistent _ _ _ _ goal u v Hb)).
  destruct (shortest_found _ _ _ _ Hsb Hreach) as (cb & pb & ->).
  destruct (shortest_found _ _ _ _ Hsu Hreach) as (cu & pu & ->).
  destruct (shortest_found _ _ _ _ Hsa Hreach) as (ca & pa & ->).
  pose proof (shortest_cost _ _ _ _ _ _ _ Hsb Hsu) as <-.
  pose proof (shortest_cost _ _ _ _ _ _ _ Hsb Hsa) as <-.
  destruct Hsb as (? & ? & Hmin), Hsu as (? & ? & _), Hsa as (? & ? & _).
  exists cb, pb, pu, pa, sb, su, sa.
  split_and!; [done.. | | | | done]; by eapply path_to_ladder.
Qed.

Lemma searches_agree_witness :
  build_word_graph five_words [] [] = Ret five_words_built
  ∧ reachable (word_graph five_words_built) (w "cat") (w "hot")
  ∧ search_fuel (word_graph five_words_built) ≤ 30
  ∧ ∃ cost pb pu pa sb su sa,
      breadth_first_search 30 (set_words five_words_built (w "cat") (w "hot"))
      = Some (Some (cost, pb), sb)
      ∧ uniform_cost_search 30 (set_words five_words_built (w "cat") (w "hot"))
        = Some (Some (cost, pu), su)
      ∧ a_star_search 30 (set_words five_words_built (w "cat") (w "hot"))
        = Some (Some (cost, pa), sa)
      ∧ ladder five_words_built (w "cat") (w "hot") cost pb
      ∧ ladder five_words_built (w "cat") (w "hot") cost pu
      ∧ ladder five_words_built (w "cat") (w "hot") cost pa
      ∧ ∀ n, walk (word_graph five_words_built) (w "cat") (w "hot") n → cost ≤ n.
Proof.
  assert (build_word_graph five_words [] [] = Ret five_words_built) as Hb
    by by_return.
  assert (reachable (word_graph five_words_built) (w "cat") (w "hot")) as Hreach.
  { exists 2. apply (walk_S _ _ (w "hat")); [|by_compute].
    apply (walk_S _ _ (w "cat")); [constructor | by_compute]. }
  assert (search_fuel (word_graph five_words_built) ≤ 30) as Hfuel by by_compute.
  split_and!; [exact Hb | exact Hreach | exact Hfuel |].
  exact (searches_agree five_words [] [] five_words_built (w "cat") (w "hot") 30
           Hb Hreach Hfuel).
Defined.

(** * The explored set of the two priority searches *)

Lemma iterate_explored {E R : Type}
    (body : graph * list E * gset str → step (graph * list E * gset str) R)
    n st st' :
  (∀ s s', body s = Continue s' → s.2 ⊆ s'.2) →
  iterate body n st = Some st' → st.2 ⊆ st'.2.
Proof.
  intros Hbody. revert st. induction n as [|n IH]; intros st; simpl.
  - by intros [= ->].
  - destruct (body st) as [s|] eqn:Hb; [|done]. intros Hit.
    apply Hbody in Hb. specialize (IH _ Hit). set_solver.
Qed.

Lemma a_star_body_explored goal st st' :
  a_star_body goal st = Continue st' → st.2 ⊆ st'.2.
Proof.
  destruct st as [[g fr] X]. unfold a_star_body. simpl.
  destruct (heappop astar_ltb fr) as [[[[[f c] x] p] rest]|]; [|done].
  case_bool_decide; [done |]. case_bool_decide; [by intros [= <-] |].
  destruct (dd_get g x). intros [= <-]. simpl. set_solver.
Qed.

Lemma ucs_body_explored goal st st' :
  ucs_body goal st = Continue st' → st.2 ⊆ st'.2.
Proof.
  destruct st as [[g fr] X]. unfold ucs_body. simpl.
  destruct (heappop ucs_ltb fr) as [[[[c x] p] rest]|]; [|done].
  case_bool_decide; [done |]. case_bool_decide; [by intros [= <-] |].
  destruct (dd_get g x). intros [= <-]. simpl. set_solver.
Qed.

Lemma a_star_body_expands goal st x :
  astar_expands goal st x →
  ∃ st', a_star_body goal st = Continue st' ∧ st'.2 = st.2 ∪ {[x]}.
Proof.
  destruct st as [[g fr] X]. intros (f & c & p & rest & Hpop & Hg & HX).
  simpl in *. unfold a_star_body. rewrite Hpop.
  rewrite bool_decide_false by done. rewrite bool_decide_false by done.
  destruct (dd_get g x). eauto.
Qed.

Lemma ucs_body_expands goal st x :
  ucs_expands goal st x →
  ∃ st', ucs_body goal st = Continue st' ∧ st'.2 = st.2 ∪ {[x]}.
Proof.
  destruct st as [[g fr] X]. intros (c & p & rest & Hpop & Hg & HX).
  simpl in *. unfold ucs_body. rewrite Hpop.
  rewrite bool_decide_false by done. rewrite bool_decide_false by done.
  destruct (dd_get g x). eauto.
Qed.

(** C10. In [a_star_search] and [uniform_cost_search] the explored set
    only grows; popping a word already explored drops the item and
    changes nothing else; popping a word not yet explored adds it to
    the explored set, so no later iteration of the run expands it
    again.  A word can wait in the frontier twice: from cat towards dot
    over cat, bat, hat, hot, dot, after two iterations hat is there at
    cost 1 and at cost 2, and the fourth iteration of
    [uniform_cost_search] pops hat again and skips it. *)
Theorem explored_at_most_once :
  (∀ goal st st', a_star_body goal st = Continue st' → st.2 ⊆ st'.2)
  ∧ (∀ goal st st', ucs_body goal st = Continue st' → st.2 ⊆ st'.2)
  ∧ (∀ goal g frontier explored f c x p rest,
       heappop astar_ltb frontier = Some ((f, c, x, p), rest) →
       x ≠ goal → x ∈ explored →
       a_star_body goal (g, frontier, explored) = Continue (g, rest, explored))
  ∧ (∀ goal g frontier explored c x p rest,
       heappop ucs_ltb frontier = Some ((c, x, p), rest) →
       x ≠ goal → x ∈ explored →
       ucs_body goal (g, frontier, explored) = Continue (g, rest, explored))
  ∧ (∀ goal st x n st',
       astar_expands goal st x →
       iterate (a_star_body goal) (S n) st = Some st' →
       x ∈ st'.2 ∧ ¬ astar_expands goal st' x)
  ∧ (∀ goal st x n st',
       ucs_expands goal st x →
       iterate (ucs_body goal) (S n) st = Some st' →
       x ∈ st'.2 ∧ ¬ ucs_expands goal st' x)
  ∧ ((λ st : astar_state, st.1.2)
       <$> iterate (a_star_body (w "dot")) 2
             (a_star_init (set_words five_words_built (w "cat") (w "dot")))
     = Some astar_cat_dot_2)
  ∧ (iterate (ucs_body (w "dot")) 3
       (ucs_init (set_words five_words_built (w "cat") (w "dot")))
     = Some ucs_cat_dot_3
     ∧ heappop ucs_ltb ucs_cat_dot_3.1.2
       = Some ((2, w "hat", w <$> ["cat"; "bat"; "hat"]%string), ucs_cat_dot_4.1.2)
     ∧ w "hat" ∈ ucs_cat_dot_3.2
     ∧ ucs_body (w "dot") ucs_cat_dot_3 = Continue ucs_cat_dot_4).
Proof.
  split_and!.
  - apply a_star_body_explored.
  - apply ucs_body_explored.
  - intros goal g frontier explored f c x p rest Hpop Hg HX.
    unfold a_star_body. rewrite Hpop.
    rewrite bool_decide_false by done. by rewrite bool_decide_true.
  - intros goal g frontier explored c x p rest Hpop Hg HX.
    unfold ucs_body. rewrite Hpop.
    rewrite bool_decide_false by done. by rewrite bool_decide_true.
  - intros goal st x n st' Hexp Hit.
    destruct (a_star_body_expands goal st x Hexp) as (s1 & Hb & Hx).
    simpl in Hit. rewrite Hb in Hit.
    apply (iterate_explored (a_star_body goal)) in Hit;
      [|apply a_star_body_explored].
    assert (x ∈ st'.2) as Hin by set_solver.
    split; [done |]. by intros (? & ? & ? & ? & _ & _ & ?).
  - intros goal st x n st' Hexp Hit.
    destruct (ucs_body_expands goal st x Hexp) as (s1 & Hb & Hx).
    simpl in Hit. rewrite Hb in Hit.
    apply (iterate_explored (ucs_body goal)) in Hit;
      [|apply ucs_body_explored].
    assert (x ∈ st'.2) as Hin by set_solver.
    split; [done |]. by intros (? & ? & ? & _ & _ & ?).
  - by_compute.
  - by_compute.
  - by_compute.
  - by_compute.
  - by_compute.
Qed.

Lemma explored_at_most_once_witness :
  astar_expands (w "dot")
    (a_star_init (set_words five_words_built (w "cat") (w "dot"))) (w "cat")
  ∧ iterate (a_star_body (w "dot")) 3
      (a_star_init (set_words five_words_built (w "cat") (w "dot")))
    = Some astar_cat_dot_3
  ∧ w "cat" ∈ astar_cat_dot_3.2
  ∧ ¬ astar_expands (w "dot") astar_cat_dot_3 (w "cat").
Proof.
  assert (astar_expands (w "dot")
    (a_star_init (set_words five_words_built (w "cat") (w "dot"))) (w "cat"))
    as Hexp.
  { exists 2, 0, [w "cat"], []. split_and!; by_compute. }
  assert (iterate (a_star_body (w "dot")) 3
      (a_star_init (set_words five_words_built (w "cat") (w "dot")))
    = Some astar_cat_dot_3) as Hit by by_compute.
  split_and!; [exact Hexp | exact Hit | ..];
    apply (proj1 (proj2 (proj2 (proj2 (proj2 explored_at_most_once))))
             (w "dot") _ (w "cat") 2 _ Hexp Hit).
Defined.

(** * The built graph, entry by entry *)

Lemma dd_append_insert g k v : dd_append g k v = <[k := adj g k ++ [v]]> g.
Proof.
  unfold dd_append, dd_get, adj. destruct (g !! k) eqn:Hk; simpl; [done |].
  by rewrite insert_insert_eq.
Qed.

Lemma adj_insert_eq (g : graph) k l : adj (<[k := l]> g) k = l.
Proof. unfold adj. by rewrite lookup_insert_eq. Qed.

(** Appending a run of words under one key. *)
Lemma foldl_dd_append g k vs :
  foldl (λ g v, dd_append g k v) g vs
  = match vs with [] => g | _ => <[k := adj g k ++ vs]> g end.
Proof.
  revert g. induction vs as [|v vs IH]; intros g; simpl; [done |].
  rewrite IH, dd_append_insert. destruct vs as [|v' vs]; [done |].
  rewrite adj_insert_eq, insert_insert_eq. by rewrite <- app_assoc.
Qed.

Lemma foldl_bind {A B C} (f : A → B → A) (h : A → C → A) (e : B → list C) xs :
  (∀ a x, f a x = foldl h a (e x)) →
  ∀ a, foldl f a xs = foldl h a (xs ≫= e).
Proof.
  intros Hf. induction xs as [|x xs IH]; intros a; [done |].
  rewrite bind_cons, foldl_app, <- Hf. cbn [foldl]. apply IH.
Qed.

Section exact.
Variable gm : mode.
Variable rl : gset ascii.
Variable d : gset str.

Lemma try_word_appended g word :
  try_word gm rl d g word
  = foldl (λ g v, dd_append g word v) g (appended gm rl d word).
Proof.
  unfold try_word, appended. apply foldl_bind. intros g' i.
  unfold try_position, appended_at. apply foldl_bind. intros g'' c.
  unfold try_letter.
  destruct (bool_decide (gm = Challenge) && bool_decide (c ∈ rl)); [done |].
  simpl. by destruct (bool_decide _ && bool_decide _).
Qed.

Lemma try_word_lookup g word u :
  try_word gm rl d g word !! u
  = if decide (u = word ∧ appended gm rl d word ≠ [])
    then Some (adj g u ++ appended gm rl d u) else g !! u.
Proof.
  rewrite try_word_appended, foldl_dd_append.
  destruct (appended gm rl d word) as [|v vs] eqn:Happ.
  - rewrite decide_False; [done | by intros [_ ?]].
  - destruct (decide (u = word)) as [->|Hne].
    + rewrite decide_True by done. by rewrite lookup_insert_eq, Happ.
    + rewrite decide_False by (by intros [? _]). by rewrite lookup_insert_ne.
Qed.

(** The graph after the loop over the words [ws], whatever their order. *)
Lemma foldl_try_word_lookup ws g u :
  NoDup ws →
  foldl (try_word gm rl d) g ws !! u
  = if decide (u ∈ ws ∧ appended gm rl d u ≠ [])
    then Some (adj g u ++ appended gm rl d u) else g !! u.
Proof.
  intros Hnd. revert g. induction Hnd as [|x ws Hx Hnd IH]; intros g; cbn [foldl].
  - rewrite decide_False; [done | set_solver].
  - rewrite IH. unfold adj at 1. rewrite !try_word_lookup.
    destruct (decide (u = x)) as [->|Hne].
    + rewrite (decide_False (P := x ∈ ws ∧ _)) by (by intros [? _]).
      destruct (decide (appended gm rl d x = [])) as [Happ|Happ].
      * rewrite !decide_False; [done | by intros [_ ?] | by intros [_ ?]].
      * rewrite !decide_True; [done | set_solver | done].
    + rewrite (decide_False (P := u = x ∧ _)) by (by intros [? _]).
      destruct (decide (u ∈ ws ∧ appended gm rl d u ≠ [])) as [[? ?]|Hno].
      * rewrite decide_True by set_solver. done.
      * rewrite decide_False; [done |]. intros [[?|?]%elem_of_cons ?]; [done |].
        by apply Hno.
Qed.

Lemma fill_graph_lookup u :
  fill_graph gm rl d !! u
  = if decide (u ∈ d ∧ appended gm rl d u ≠ [])
    then Some (appended gm rl d u) else None.
Proof.
  unfold fill_graph. rewrite foldl_try_word_lookup by apply NoDup_elements.
  rewrite adj_empty, lookup_empty. simpl.
  destruct (decide (u ∈ d ∧ _)) as [[? ?]|Hno].
  - rewrite decide_True; [done |]. split; [by apply elem_of_elements | done].
  - rewrite decide_False; [done |]. intros [?%elem_of_elements ?]. by apply Hno.
Qed.

Lemma elem_of_appended_at word i v :
  v ∈ appended_at gm rl d word i
  ↔ ∃ c, c ∈ alphabet ∧ edge_via gm rl d word i c v.
Proof.
  unfold appended_at, edge_via. rewrite list_elem_of_bind.
  split.
  - intros (c & Hv & Hc). exists c. split; [done |].
    rewrite <- !bool_decide_and in Hv.
    case_bool_decide as H1; [by apply elem_of_nil in Hv |].
    simpl in Hv. case_bool_decide as H2; [|by apply elem_of_nil in Hv].
    apply list_elem_of_singleton in Hv as ->. naive_solver.
  - intros (c & Hc & Hno & -> & Hin & Hne). exists c. split; [|done].
    rewrite <- !bool_decide_and.
    rewrite bool_decide_false by done. simpl.
    rewrite bool_decide_true by done. by apply list_elem_of_singleton.
Qed.

Lemma elem_of_appended word v :
  v ∈ appended gm rl d word
  ↔ ∃ i c, i < length word ∧ c ∈ alphabet ∧ edge_via gm rl d word i c v.
Proof.
  unfold appended. rewrite list_elem_of_bind.
  setoid_rewrite elem_of_appended_at. setoid_rewrite elem_of_seq.
  split.
  - intros (i & (c & ? & ?) & ?). exists i, c. split_and!; [lia | done..].
  - intros (i & c & ? & ? & ?). exists i. split; [eauto | lia].
Qed.

Lemma NoDup_appended_at word i :
  i < length word → NoDup (appended_at gm rl d word i).
Proof.
  intros Hi. unfold appended_at. apply NoDup_bind.
  - intros c1 c2 v _ _ Hv1 Hv2.
    destruct (bool_decide (gm = Challenge) && bool_decide (c1 ∈ rl));
      [by apply elem_of_nil in Hv1 |].
    destruct (bool_decide (gm = Challenge) && bool_decide (c2 ∈ rl));
      [by apply elem_of_nil in Hv2 |].
    simpl in *.
    destruct (bool_decide _ && bool_decide _) in Hv1; [|by apply elem_of_nil in Hv1].
    destruct (bool_decide _ && bool_decide _) in Hv2; [|by apply elem_of_nil in Hv2].
    apply list_elem_of_singleton in Hv1, Hv2. subst v.
    rewrite !substitute_insert in Hv2 by done.
    assert (<[i:=c1]> word !! i = <[i:=c2]> word !! i) as Hl by by rewrite Hv2.
    rewrite !list_lookup_insert_eq in Hl by done. by simplify_eq.
  - intros c _. destruct (bool_decide _ && bool_decide _); [constructor |].
    simpl. destruct (bool_decide _ && bool_decide _);
      [apply NoDup_singleton | constructor].
  - by_compute.
Qed.

Lemma NoDup_appended word : NoDup (appended gm rl d word).
Proof.
  unfold appended. apply NoDup_bind.
  - intros i j v Hi%elem_of_seq Hj%elem_of_seq
      (c1 & _ & _ & Hv1 & _ & Hne1)%elem_of_appended_at
      (c2 & _ & _ & Hv2 & _ & Hne2)%elem_of_appended_at.
    destruct (proj1 (substitute_spec word v i c1 ltac:(lia)) (conj Hv1 Hne1))
      as [(_ & Hdiff & _) _].
    destruct (proj1 (substitute_spec word v j c2 ltac:(lia)) (conj Hv2 Hne2))
      as [(_ & _ & Hsame) _].
    destruct (decide (i = j)) as [|Hij]; [done |]. by destruct Hdiff; apply Hsame.
  - intros i Hi%elem_of_seq. apply NoDup_appended_at. lia.
  - apply NoDup_seq.
Qed.
End exact.

Lemma build_word_graph_lookup self rw rl built u :
  build_word_graph self rw rl = Ret built →
  word_graph built !! u
  = if decide (u ∈ effective_words built ∧ neighbours built u ≠ [])
    then Some (neighbours built u) else None.
Proof.
  intros (_ & _ & ->)%build_word_graph_frame. apply fill_graph_lookup.
Qed.

(** X1. Every key of a built graph is a word of the effective
    dictionary; its adjacency list is the list of its neighbours in
    the order the loops find them, is not empty, has no word twice,
    does not hold the key itself, and holds only words of the effective
    dictionary of the key's length.  A word of the effective dictionary
    with no neighbour is not a key. *)
Theorem built_graph_entries self rnd_words rnd_letters built :
  build_word_graph self rnd_words rnd_letters = Ret built →
  (∀ u l, word_graph built !! u = Some l →
     u ∈ effective_words built ∧ l = neighbours built u ∧ l ≠ [] ∧ NoDup l
     ∧ u ∉ l
     ∧ ∀ v, v ∈ l → v ∈ effective_words built ∧ length v = length u)
  ∧ (∀ u, word_graph built !! u = None ↔
       u ∉ effective_words built ∨ neighbours built u = []).
Proof.
  intros Hb. split.
  - intros u l Hl. rewrite (build_word_graph_lookup _ _ _ _ _ Hb) in Hl.
    case_decide as Hu; [|done]. destruct Hu as [Hu Hne]. simplify_eq.
    split_and!; [done.. | apply NoDup_appended | |].
    + intros Hin. unfold neighbours in Hin. apply elem_of_appended in Hin.
      by destruct Hin as (i & c & _ & _ & _ & _ & _ & ?).
    + intros v Hin. unfold neighbours in Hin. apply elem_of_appended in Hin.
      destruct Hin as (i & c & Hi & _ & _ & Hv & Hin & Hvu).
      split; [done |].
      destruct (proj1 (substitute_spec u v i c Hi) (conj Hv Hvu)) as [(? & _) _].
      done.
  - intros u. rewrite (build_word_graph_lookup _ _ _ _ _ Hb).
    case_decide as Hu; [naive_solver |]. split; [intros _ | done].
    destruct (decide (u ∈ effective_words built)); [right | by left].
    destruct (decide (neighbours built u = [])); [done | naive_solver].
Qed.

Lemma built_graph_entries_witness :
  build_word_graph hot_hat_cat hot_hat_cat_banned hot_hat_cat_letters
  = Ret hot_hat_cat_built
  ∧ (word_graph hot_hat_cat_built !! w "hat" = Some [w "cat"] →
     w "hat" ∈ effective_words hot_hat_cat_built
     ∧ [w "cat"] = neighbours hot_hat_cat_built (w "hat")
     ∧ [w "cat"] ≠ [] ∧ NoDup [w "cat"] ∧ w "hat" ∉ [w "cat"]
     ∧ ∀ v, v ∈ [w "cat"] →
         v ∈ effective_words hot_hat_cat_built ∧ length v = length (w "hat")).
Proof.
  assert (build_word_graph hot_hat_cat hot_hat_cat_banned hot_hat_cat_letters
          = Ret hot_hat_cat_built) as Hb by by_return.
  split; [exact Hb |].
  exact (proj1 (built_graph_entries _ _ _ _ Hb) (w "hat") [w "cat"]).
Defined.

(** X2. The built graph does not depend on the order in which the set
    of words is iterated: the loop run over any list that enumerates
    the dictionary once gives the graph [fill_graph] gives. *)
Theorem fill_graph_any_order (gm : mode) (rl : gset ascii) (d : gset str)
    (ws : list str) :
  NoDup ws → list_to_set ws = d →
  foldl (try_word gm rl d) ∅ ws = fill_graph gm rl d.
Proof.
  intros Hnd <-. apply map_eq. intros u.
  rewrite fill_graph_lookup, foldl_try_word_lookup by done.
  rewrite adj_empty, lookup_empty. simpl.
  destruct (decide (u ∈ ws ∧ _)) as [[? ?]|Hno].
  - rewrite decide_True; [done |]. split; [by apply elem_of_list_to_set | done].
  - rewrite decide_False; [done |]. intros [?%elem_of_list_to_set ?]. by apply Hno.
Qed.

Lemma fill_graph_any_order_witness :
  NoDup (w <$> ["dot"; "cat"; "hot"; "bat"; "hat"]%string)
  ∧ list_to_set (w <$> ["dot"; "cat"; "hot"; "bat"; "hat"]%string)
    = dictionaries five_words Beginner
  ∧ foldl (try_word Beginner ∅ (dictionaries five_words Beginner)) ∅
      (w <$> ["dot"; "cat"; "hot"; "bat"; "hat"]%string)
    = fill_graph Beginner ∅ (dictionaries five_words Beginner).
Proof.
  assert (NoDup (w <$> ["dot"; "cat"; "hot"; "bat"; "hat"]%string)) as Hnd
    by by_compute.
  assert (list_to_set (w <$> ["dot"; "cat"; "hot"; "bat"; "hat"]%string)
          = dictionaries five_words Beginner) as Hd by by_compute.
  split_and!; [exact Hnd | exact Hd |].
  exact (fill_graph_any_order Beginner ∅ _ _ Hnd Hd).
Defined.

(** X3. [build_word_graph] raises [ValueError] exactly in Challenge mode
    over a dictionary of fewer than five words, where the sample of
    five banned words cannot be drawn; in every other case it returns,
    and the sample of three letters never fails. *)
Theorem build_word_graph_raises self rnd_words rnd_letters :
  (build_word_graph self rnd_words rnd_letters = Raise ValueError
   ↔ game_mode self = Challenge ∧ size (dictionaries self Challenge) < 5)
  ∧ (¬ (game_mode self = Challenge ∧ size (dictionaries self Challenge) < 5)
     ↔ ∃ built, build_word_graph self rnd_words rnd_letters = Ret built).
Proof.
  unfold build_word_graph, random_sample. case_bool_decide as Hm.
  - rewrite Hm. change (length (elements ?X)) with (size X).
    destruct (Nat.ltb_spec (size (dictionaries self Challenge)) 5) as [Hlt|Hge];
      cbn.
    + split; [naive_solver |]. split; [naive_solver | by intros [? ?]].
    + split; [split; [done | lia] |]. split; [eauto | lia].
  - split; [split; [done | naive_solver] |]. split; [eauto | naive_solver].
Qed.

Lemma build_word_graph_raises_witness :
  (game_mode cat_dog_challenge = Challenge
   ∧ size (dictionaries cat_dog_challenge Challenge) < 5)
  ∧ build_word_graph cat_dog_challenge [] [] = Raise ValueError.
Proof.
  assert (game_mode cat_dog_challenge = Challenge
          ∧ size (dictionaries cat_dog_challenge Challenge) < 5) as H
    by by_compute.
  split; [exact H |].
  exact (proj2 (proj1 (build_word_graph_raises cat_dog_challenge [] [])) H).
Defined.

Lemma fill_graph_unrestricted (gm gm' : mode) (rl rl' : gset ascii)
    (d : gset str) :
  gm ≠ Challenge → gm' ≠ Challenge → fill_graph gm rl d = fill_graph gm' rl' d.
Proof.
  intros Hgm Hgm'. unfold fill_graph. f_equal.
  unfold try_word, try_position, try_letter.
  rewrite !(bool_decide_false (_ = Challenge)) by done. done.
Qed.

(** X4. In Challenge mode the drawn words and letters become the banned
    words and restricted letters, and no banned word is a key or an
    entry of the graph.  In the other modes [build_word_graph] leaves
    the banned words and restricted letters as they were and ignores
    them: the graph is the one of the whole dictionary with every
    letter allowed. *)
Theorem build_word_graph_policy self rnd_words rnd_letters built :
  build_word_graph self rnd_words rnd_letters = Ret built →
  (game_mode self = Challenge →
     banned_words built = list_to_set rnd_words
     ∧ restricted_letters built = list_to_set rnd_letters
     ∧ ∀ b, b ∈ banned_words built →
         word_graph built !! b = None ∧ ∀ u, b ∉ adj (word_graph built) u)
  ∧ (game_mode self ≠ Challenge →
     banned_words built = banned_words self
     ∧ restricted_letters built = restricted_letters self
     ∧ word_graph built
       = fill_graph Beginner ∅ (dictionaries self (game_mode self))).
Proof.
  intros Hb. split.
  - intros Hm.
    assert (banned_words built = list_to_set rnd_words
            ∧ restricted_letters built = list_to_set rnd_letters) as [Hbw Hrl].
    { revert Hb. unfold build_word_graph, random_sample.
      rewrite bool_decide_true by done.
      destruct (_ <? 5); [by cbn |]. cbn. by intros [= <-]. }
    split_and!; [done.. |]. intros b Hbanned.
    assert (b ∉ effective_words built) as Hout.
    { unfold effective_words.
      destruct (build_word_graph_frame _ _ _ _ Hb) as (_ & -> & _).
      rewrite bool_decide_true by done. set_solver. }
    split.
    + rewrite (build_word_graph_lookup _ _ _ _ _ Hb).
      rewrite decide_False; [done | naive_solver].
    + intros u (_ & _ & _ & _ & _ & _ & _ & ? & _)%(build_word_graph_adj _ _ _ _ _ _ Hb).
      done.
  - intros Hm. revert Hb. unfold build_word_graph.
    rewrite bool_decide_false by done. intros [= <-]. simpl.
    split_and!; [done.. |]. by apply fill_graph_unrestricted.
Qed.

Lemma build_word_graph_policy_witness :
  build_word_graph hot_hat_cat hot_hat_cat_banned hot_hat_cat_letters
  = Ret hot_hat_cat_built
  ∧ (game_mode hot_hat_cat = Challenge →
     banned_words hot_hat_cat_built = list_to_set hot_hat_cat_banned
     ∧ restricted_letters hot_hat_cat_built = list_to_set hot_hat_cat_letters
     ∧ ∀ b, b ∈ banned_words hot_hat_cat_built →
         word_graph hot_hat_cat_built !! b = None
         ∧ ∀ u, b ∉ adj (word_graph hot_hat_cat_built) u).
Proof.
  assert (build_word_graph hot_hat_cat hot_hat_cat_banned hot_hat_cat_letters
          = Ret hot_hat_cat_built) as Hb by by_return.
  split; [exact Hb |].
  exact (proj1 (build_word_graph_policy _ _ _ _ Hb)).
Defined.

(** * The heuristic as a distance *)

Lemma heuristic_refl t : heuristic t t = 0.
Proof.
  induction t as [|a t IH]; [done |]. by rewrite heuristic_cons, decide_True.
Qed.

Lemma heuristic_sym t u : heuristic t u = heuristic u t.
Proof.
  revert u. induction t as [|b t IH]; intros [|a u];
    rewrite ?heuristic_nil_l, ?heuristic_nil_r; [done.. |].
  rewrite !heuristic_cons, IH. repeat case_decide; by simplify_eq.
Qed.

Lemma heuristic_le t u : heuristic t u ≤ length u `min` length t.
Proof.
  revert u. induction t as [|b t IH]; intros [|a u];
    rewrite ?heuristic_nil_l, ?heuristic_nil_r; simpl; [lia.. |].
  rewrite heuristic_cons. specialize (IH u). case_decide; lia.
Qed.

Lemma heuristic_zero t u : length u = length t → heuristic t u = 0 ↔ u = t.
Proof.
  revert u. induction t as [|b t IH]; intros [|a u] Hlen; simplify_eq/=;
    [done |].
  rewrite heuristic_cons. specialize (IH u Hlen).
  destruct (decide (a = b)) as [->|Hab]; simpl.
  - rewrite IH. split; [by intros -> | by intros [= ->]].
  - split; [lia | by intros [= ? ?]].
Qed.

Lemma one_letter_apart_cons a u b t i :
  one_letter_apart (a :: u) (b :: t) i
  ↔ match i with
    | 0 => a ≠ b ∧ u = t
    | S i => a = b ∧ one_letter_apart u t i
    end.
Proof.
  unfold one_letter_apart. destruct i as [|i]; simpl.
  - split.
    + intros (Hlen & Hd & Hs). split; [congruence |].
      apply list_eq. intros j. apply (Hs (S j)). lia.
    + intros [Hab ->]. split_and!; [done | congruence |].
      intros [|j] ?; [done | done].
  - split.
    + intros (Hlen & Hd & Hs). split; [by specialize (Hs 0 ltac:(lia)); simplify_eq |].
      split_and!; [lia | done |]. intros j ?. apply (Hs (S j)). lia.
    + intros [-> (Hlen & Hd & Hs)]. split_and!; [lia | done |].
      intros [|j] ?; [done |]. apply Hs. lia.
Qed.

Lemma heuristic_one t u :
  length u = length t →
  heuristic t u = 1 ↔ ∃ i, one_letter_apart u t i.
Proof.
  revert u. induction t as [|b t IH]; intros [|a u] Hlen; simplify_eq/=.
  - split; [done |]. intros [i (_ & Hd & _)]. by destruct i.
  - rewrite heuristic_cons. specialize (IH u Hlen).
    setoid_rewrite one_letter_apart_cons. case_decide as Hab.
    + subst b. simpl. rewrite IH. split.
      * intros [i ?]. by exists (S i).
      * intros [[|i] [? ?]]; [done | eauto].
    + split.
      * intros H. exists 0. split; [done |]. apply heuristic_zero; [done | lia].
      * intros [[|i] [? ?]]; [|done]. subst t. rewrite heuristic_refl. lia.
Qed.

Lemma heuristic_insert_le t u i c : heuristic t (<[i:=c]> u) ≤ S (heuristic t u).
Proof.
  revert t i. induction u as [|a u IH]; intros t i; [simpl; rewrite heuristic_nil_r; lia |].
  destruct t as [|b t]; [rewrite !heuristic_nil_l; lia |].
  destruct i as [|i]; simpl; rewrite !heuristic_cons.
  - repeat case_decide; lia.
  - specialize (IH t i). lia.
Qed.

(** X5. [heuristic] counts the positions where the word differs from
    the target: nothing for the target itself, the same count from
    either side, never more than the shorter of the two lengths; for
    words of equal length it is 0 only for the target and 1 exactly
    for the words one letter apart from it. *)
Theorem heuristic_counts_differences t u :
  heuristic t t = 0
  ∧ heuristic t u = heuristic u t
  ∧ heuristic t u ≤ length u `min` length t
  ∧ (length u = length t →
     (heuristic t u = 0 ↔ u = t)
     ∧ (heuristic t u = 1 ↔ ∃ i, one_letter_apart u t i)).
Proof.
  split_and!; [apply heuristic_refl | apply heuristic_sym | apply heuristic_le |].
  intros Hlen. split; [by apply heuristic_zero | by apply heuristic_one].
Qed.

Lemma heuristic_counts_differences_witness :
  length (w "hot") = length (w "hat")
  ∧ (heuristic (w "hat") (w "hot") = 0 ↔ w "hot" = w "hat")
  ∧ (heuristic (w "hat") (w "hot") = 1
     ↔ ∃ i, one_letter_apart (w "hot") (w "hat") i).
Proof.
  assert (length (w "hot") = length (w "hat")) as Hlen by reflexivity.
  split; [exact Hlen |].
  exact (proj2 (proj2 (proj2 (heuristic_counts_differences (w "hat") (w "hot")))) Hlen).
Defined.

(** X6. On a built graph the heuristic changes by at most one along an
    entry, in either direction, and never exceeds the number of entries
    of a walk that reaches the goal: it is consistent and admissible. *)
Theorem heuristic_admissible self rnd_words rnd_letters built goal :
  build_word_graph self rnd_words rnd_letters = Ret built →
  (∀ u v, v ∈ adj (word_graph built) u →
     heuristic goal u ≤ S (heuristic goal v)
     ∧ heuristic goal v ≤ S (heuristic goal u))
  ∧ (∀ u n, walk (word_graph built) u goal n → heuristic goal u ≤ n).
Proof.
  intros Hb. split.
  - intros u v Huv. split; [by eapply built_consistent |].
    apply (build_word_graph_adj _ _ _ _ _ _ Hb) in Huv
      as (_ & i & c & Hi & _ & _ & -> & _).
    rewrite substitute_insert by done. apply heuristic_insert_le.
  - intros u n Hw.
    pose proof (walk_estimate (word_graph built) (heuristic goal)
      (λ u v, built_consistent _ _ _ _ goal u v Hb) u goal n Hw) as Hle.
    rewrite heuristic_refl in Hle. lia.
Qed.

Lemma heuristic_admissible_witness :
  build_word_graph five_words [] [] = Ret five_words_built
  ∧ (∀ u n, walk (word_graph five_words_built) u (w "dot") n →
       heuristic (w "dot") u ≤ n).
Proof.
  assert (build_word_graph five_words [] [] = Ret five_words_built) as Hb
    by by_return.
  split; [exact Hb |].
  exact (proj2 (heuristic_admissible five_words [] [] five_words_built (w "dot") Hb)).
Defined.

(** * The searches on any graph *)

Lemma astar_cut_walk g0 start goal st t n :
  astar_cut g0 start goal st → walk g0 start t n → t ∉ st.2 →
  ∃ f c y p, (f, c, y, p) ∈ st.1.2.
Proof.
  intros (_ & HD & HE & _) Hw. induction Hw as [|x t n Hw IH Ht]; intros HtX.
  - destruct HE as [?|(f & c & p & ?)]; [done | eauto].
  - destruct (decide (x ∈ st.2)) as [Hx|Hx]; [|by apply IH].
    destruct (HD x t Hx Ht HtX) as (f & c & p & ?). eauto.
Qed.

Lemma a_star_body_cut g0 start goal st st' :
  astar_cut g0 start goal st → a_star_body goal st = Continue st' →
  astar_cut g0 start goal st'.
Proof.
  destruct st as [[g fr] X]. intros (Hadj & HD & HE & HG). simpl in *.
  unfold a_star_body.
  destruct (heappop astar_ltb fr) as [[[[[f c] x] p] rest]|] eqn:Hpop; [|done].
  apply heappop_perm in Hpop.
  assert (∀ f' c' y p', (f', c', y, p') ∈ fr → y ≠ x → (f', c', y, p') ∈ rest)
    as Hrest.
  { intros f' c' y p'. rewrite Hpop. intros [[= -> -> -> ->]|?]%elem_of_cons; done. }
  case_bool_decide as Hgoal; [done |]. case_bool_decide as HX.
  - intros [= <-]. split_and!; simpl; [done | | | done].
    + intros a b Ha Hb HbX. destruct (HD a b Ha Hb HbX) as (f' & c' & p' & Hin).
      exists f', c', p'. apply Hrest; [done |]. by intros ->.
    + destruct HE as [?|(f' & c' & p' & Hin)]; [by left |].
      destruct (decide (start = x)) as [->|?]; [by left |].
      right. exists f', c', p'. by apply Hrest.
  - pose proof (dd_get_fst g x) as Hfst. pose proof (dd_get_adj g x) as Hadj'.
    destruct (dd_get g x) as [nexts g'] eqn:Hget. simpl in *. subst nexts.
    intros [= <-]. split_and!; simpl.
    + intros u. by rewrite Hadj'.
    + intros a b Ha Hb HbX. setoid_rewrite elem_of_a_star_visits.
      destruct (decide (a = x)) as [->|Hax].
      * eexists _, _, _. right. exists b. rewrite Hadj. done.
      * destruct (HD a b) as (f' & c' & p' & Hin); [set_solver | done | set_solver |].
        exists f', c', p'. left. apply Hrest; [done | set_solver].
    + destruct HE as [?|(f' & c' & p' & Hin)]; [left; set_solver |].
      destruct (decide (start = x)) as [->|?]; [left; set_solver |].
      right. exists f', c', p'. apply elem_of_a_star_visits. left. by apply Hrest.
    + set_solver.
Qed.

Lemma a_star_body_cut_ret g0 start goal st g' :
  astar_cut g0 start goal st → a_star_body goal st = Return (None, g') →
  ¬ reachable g0 start goal.
Proof.
  destruct st as [[g fr] X]. intros Hcut. unfold a_star_body.
  destruct (heappop astar_ltb fr) as [[[[[f c] x] p] rest]|] eqn:Hpop.
  - case_bool_decide; [done |]. case_bool_decide; [done |]. by destruct (dd_get g x).
  - apply heappop_None in Hpop as ->. intros _ [n Hw].
    destruct (astar_cut_walk _ _ _ _ _ _ Hcut Hw) as (? & ? & ? & ? & Hin).
    + by destruct Hcut as (_ & _ & _ & ?).
    + by apply elem_of_nil in Hin.
Qed.

Lemma a_star_complete g start goal fuel g' :
  while_loop (a_star_body goal) fuel
    (g, [(heuristic goal start, 0, start, [start])], ∅) = Some (None, g') →
  ¬ reachable g start goal.
Proof.
  intros Hrun.
  refine (while_loop_post (a_star_body goal) (astar_cut g start goal)
            (λ rg, rg.1 = None → ¬ reachable g start goal) _ _
            fuel _ (None, g') _ Hrun eq_refl).
  - apply a_star_body_cut.
  - intros s [r g''] Hs Hb. simpl. intros ->. by eapply a_star_body_cut_ret.
  - split_and!; simpl; [done | set_solver | | set_solver].
    right. eexists _, _, _. by apply list_elem_of_singleton.
Qed.

(** X7. On any graph held by the [defaultdict], built or not,
    [breadth_first_search] and [uniform_cost_search] return a path from
    the current word to the target with the least possible number of
    steps when the target can be reached, and the no-path result
    exactly when it cannot. *)
Theorem bfs_ucs_shortest self fuel :
  search_fuel (word_graph self) ≤ fuel →
  ∃ rb sb ru su,
    breadth_first_search fuel self = Some (rb, sb)
    ∧ uniform_cost_search fuel self = Some (ru, su)
    ∧ shortest (word_graph self) (current_word self) (target_word self) rb
    ∧ shortest (word_graph self) (current_word self) (target_word self) ru
    ∧ (rb = None ↔ ¬ reachable (word_graph self) (current_word self) (target_word self))
    ∧ (ru = None ↔ ¬ reachable (word_graph self) (current_word self) (target_word self))
    ∧ fst <$> rb = fst <$> ru.
Proof.
  intros Hfuel.
  destruct (breadth_first_search_run self fuel Hfuel) as (rb & sb & Hb & Hsb & _).
  destruct (uniform_cost_search_run self fuel Hfuel) as (ru & su & Hu & Hsu & _).
  exists rb, sb, ru, su. split_and!; [done.. | | |].
  - split; [by intros -> |]. intros Hnr. by eapply sound_unreachable, Hnr; apply shortest_sound.
  - split; [by intros -> |]. intros Hnr. by eapply sound_unreachable, Hnr; apply shortest_sound.
  - destruct rb as [[cb pb]|], ru as [[cu pu]|]; simpl.
    + f_equal. by eapply shortest_cost.
    + destruct Hsu. destruct Hsb as [(n & _ & Hw)%path_to_walk _]. by exists n.
    + destruct Hsb. destruct Hsu as [(n & _ & Hw)%path_to_walk _]. by exists n.
    + done.
Qed.

Lemma bfs_ucs_shortest_witness :
  search_fuel (word_graph five_words_built) ≤ 30
  ∧ ∃ rb sb ru su,
      breadth_first_search 30 (set_words five_words_built (w "cat") (w "dot"))
      = Some (rb, sb)
      ∧ uniform_cost_search 30 (set_words five_words_built (w "cat") (w "dot"))
        = Some (ru, su)
      ∧ shortest (word_graph five_words_built) (w "cat") (w "dot") rb
      ∧ shortest (word_graph five_words_built) (w "cat") (w "dot") ru
      ∧ (rb = None ↔ ¬ reachable (word_graph five_words_built) (w "cat") (w "dot"))
      ∧ (ru = None ↔ ¬ reachable (word_graph five_words_built) (w "cat") (w "dot"))
      ∧ fst <$> rb = fst <$> ru.
Proof.
  assert (search_fuel (word_graph five_words_built) ≤ 30) as Hfuel by by_compute.
  split; [exact Hfuel |].
  exact (bfs_ucs_shortest (set_words five_words_built (w "cat") (w "dot")) 30
           Hfuel).
Defined.

(** X8. On any graph [a_star_search] returns a path exactly when the
    target can be reached from the current word, and a returned path
    runs along entries of the graph from the current word to the
    target and has cost + 1 words.  (That its cost is the least one is
    shown for built graphs only, where the heuristic is consistent.) *)
Theorem a_star_finds_a_path self fuel :
  search_fuel (word_graph self) ≤ fuel →
  ∃ r self',
    a_star_search fuel self = Some (r, self')
    ∧ (r = None ↔ ¬ reachable (word_graph self) (current_word self) (target_word self))
    ∧ ∀ c p, r = Some (c, p) →
        path_to (word_graph self) (current_word self) (target_word self) p
        ∧ length p = S c.
Proof.
  intros Hfuel.
  destruct (a_star_run_sound (word_graph self) (current_word self)
              (target_word self) fuel Hfuel) as (r & g' & Hrun & Hs & _).
  exists r, (set_word_graph self g'). unfold a_star_search, a_star_init.
  rewrite Hrun. split_and!; [done | | done].
  split.
  - intros ->. by eapply a_star_complete.
  - by apply sound_unreachable.
Qed.

Lemma a_star_finds_a_path_witness :
  search_fuel (word_graph five_words_built) ≤ 30
  ∧ ∃ r self',
      a_star_search 30 (set_words five_words_built (w "cat") (w "dot"))
      = Some (r, self')
      ∧ (r = None ↔ ¬ reachable (word_graph five_words_built) (w "cat") (w "dot"))
      ∧ ∀ c p, r = Some (c, p) →
          path_to (word_graph five_words_built) (w "cat") (w "dot") p
          ∧ length p = S c.
Proof.
  assert (search_fuel (word_graph five_words_built) ≤ 30) as Hfuel by by_compute.
  split; [exact Hfuel |].
  exact (a_star_finds_a_path (set_words five_words_built (w "cat") (w "dot")) 30
           Hfuel).
Defined.

(** * [check_path_exists] decides reachability *)

Lemma cpe_scan_closed (target : str) (nexts : list str) (X : gset str)
    (Q : list str) :
  match cpe_scan target nexts X Q with
  | Continue (X', Q') =>
      target ∉ nexts ∧ X ⊆ X' ∧ (∀ y, y ∈ nexts → y ∈ X')
      ∧ (∀ x, x ∈ X' → x ∈ X ∨ x ∈ Q') ∧ (∀ x, x ∈ Q → x ∈ Q')
      ∧ (target ∉ X → target ∉ X')
  | Return _ => True
  end.
Proof.
  revert X Q. induction nexts as [|y nexts IH]; intros X Q; simpl.
  - split_and!; [set_solver | set_solver | set_solver | by left | done | done].
  - case_bool_decide as Hy; [done |]. case_bool_decide as HyX.
    + specialize (IH (X ∪ {[y]}) (Q ++ [y])).
      destruct (cpe_scan target nexts (X ∪ {[y]}) (Q ++ [y])) as [[X' Q']|]; [|done].
      destruct IH as (Ht & Hsub & Hn & Hnew & HQ & HtX).
      split_and!.
      * set_solver.
      * set_solver.
      * intros z [->|?]%elem_of_cons; [set_solver | by apply Hn].
      * intros x Hx. destruct (Hnew x Hx) as [[?|Hxy%elem_of_singleton]%elem_of_union|?];
          [by left | right | by right]. subst x. apply HQ. set_solver.
      * intros x ?. apply HQ. set_solver.
      * intros ?. apply HtX. set_solver.
    + specialize (IH X Q).
      destruct (cpe_scan target nexts X Q) as [[X' Q']|]; [|done].
      destruct IH as (Ht & Hsub & Hn & Hnew & HQ & HtX).
      split_and!; [set_solver | done | | done | done | done].
      intros z [->|?]%elem_of_cons; [set_solver | by apply Hn].
Qed.

Lemma cpe_body_closed g0 start target st st' :
  cpe_closed g0 start target st → cpe_body target st = Continue st' →
  cpe_closed g0 start target st'.
Proof.
  destruct st as [[g q] X]. intros (Hadj & Hcl & Hs & Ht). simpl in *.
  unfold cpe_body. destruct q as [|x q]; [done |].
  pose proof (dd_get_fst g x) as Hfst. pose proof (dd_get_adj g x) as Hadj'.
  destruct (dd_get g x) as [nexts g'] eqn:Hget. simpl in *. subst nexts.
  pose proof (cpe_scan_closed target (adj g x) X q) as Hscan.
  destruct (cpe_scan target (adj g x) X q) as [[X' q']|b]; [|done].
  destruct Hscan as (_ & Hsub & Hn & Hnew & HQ & HtX).
  intros [= <-]. split_and!; simpl.
  - intros u. by rewrite Hadj'.
  - intros z Hz. destruct (decide (z = x)) as [->|Hzx].
    { right. intros y Hy. apply Hn. by rewrite Hadj. }
    destruct (Hnew z Hz) as [HzX|?]; [|by left].
    destruct (Hcl z HzX) as [[?|?]%elem_of_cons|Hall]; [done | left; by apply HQ |].
    right. intros y Hy. apply Hsub. by apply Hall.
  - by apply Hsub.
  - by apply HtX.
Qed.

Lemma cpe_body_closed_ret g0 start target st g' :
  cpe_closed g0 start target st → cpe_body target st = Return (false, g') →
  ¬ reachable g0 start target.
Proof.
  destruct st as [[g q] X]. intros (Hadj & Hcl & Hs & Ht). simpl in *.
  unfold cpe_body. destruct q as [|x q].
  - intros _ [n Hw]. apply Ht. clear Ht.
    induction Hw as [|x y n _ IH Hy]; [done |].
    destruct (Hcl x IH) as [Hin|Hall]; [by apply elem_of_nil in Hin | by apply Hall].
  - pose proof (cpe_scan_inv g0 start target (adj g x) X q) as Hscan.
    pose proof (dd_get_fst g x) as Hfst.
    destruct (dd_get g x) as [nexts g'']. simpl in *. subst nexts.
    destruct (cpe_scan target (adj g x) X q) as [[X' q']|b] eqn:Hsc; [done |].
    intros [= -> <-]. clear Hscan.
    (* the inner loop returns [True] only *)
    exfalso. revert Hsc. generalize (adj g x) X q.
    intros nexts. induction nexts as [|y nexts IH]; intros X0 q0; simpl; [done |].
    case_bool_decide; [done |]. case_bool_decide; apply IH.
Qed.

Lemma cpe_complete g start target fuel g' :
  start ≠ target →
  while_loop (cpe_body target) fuel (g, [start], {[start]}) = Some (false, g') →
  ¬ reachable g start target.
Proof.
  intros Hne Hrun.
  refine (while_loop_post (cpe_body target) (cpe_closed g start target)
            (λ bg, bg.1 = false → ¬ reachable g start target) _ _
            fuel _ (false, g') _ Hrun eq_refl).
  - apply cpe_body_closed.
  - intros s [b g''] Hs Hb. simpl. intros ->. by eapply cpe_body_closed_ret.
  - split_and!; simpl; [done | | set_solver..].
    intros x Hx%elem_of_singleton. subst x. left. set_solver.
Qed.

(** X9. On any graph [check_path_exists] returns [True] exactly when
    the target can be reached from the start along entries of the
    graph (a word reaches itself), and it returns within [search_fuel]
    iterations. *)
Theorem check_path_exists_decides self start target fuel :
  search_fuel (word_graph self) ≤ fuel →
  ∃ b self',
    check_path_exists fuel self start target = Some (b, self')
    ∧ (b = true ↔ reachable (word_graph self) start target).
Proof.
  intros Hfuel. unfold check_path_exists. case_bool_decide as Heq.
  - exists true, self. split; [done |]. split; [|done].
    intros _. subst. exists 0. constructor.
  - destruct (cpe_run (word_graph self) start target fuel Hfuel)
      as (b & g' & Hrun & Hb & _).
    exists b, (set_word_graph self g'). rewrite Hrun. split; [done |].
    split; [done |]. intros Hreach. destruct b; [done |].
    by destruct (cpe_complete _ _ _ _ _ Heq Hrun).
Qed.

Lemma check_path_exists_decides_witness :
  search_fuel (word_graph five_words_built) ≤ 30
  ∧ ∃ b self',
      check_path_exists 30 five_words_built (w "cat") (w "dot") = Some (b, self')
      ∧ (b = true ↔ reachable (word_graph five_words_built) (w "cat") (w "dot")).
Proof.
  assert (search_fuel (word_graph five_words_built) ≤ 30) as Hfuel by by_compute.
  split; [exact Hfuel |].
  exact (check_path_exists_decides five_words_built (w "cat") (w "dot") 30 Hfuel).
Defined.

Lemma found_iff (b : bool) (r : result) (P : Prop) :
  (b = true ↔ P) → (r = None ↔ ¬ P) → (b = true ↔ is_Some r).
Proof.
  intros Hb Hr. destruct b, r as [cp|]; split; try done; try by eauto.
  - intros _. exfalso. apply (proj1 Hr eq_refl). by apply Hb.
  - intros _. assert (¬ P) as HP by (intros p; by apply Hb in p).
    by pose proof (proj2 Hr HP).
Qed.

(** X10. On any graph the four searches agree on whether there is a
    path: [check_path_exists] returns [True] exactly when
    [breadth_first_search], [uniform_cost_search] and [a_star_search]
    each return a path rather than the no-path result. *)
Theorem check_path_exists_agrees self start target fuel :
  search_fuel (word_graph self) ≤ fuel →
  ∃ b sc rb sb ru su ra sa,
    check_path_exists fuel self start target = Some (b, sc)
    ∧ breadth_first_search fuel (set_words self start target) = Some (rb, sb)
    ∧ uniform_cost_search fuel (set_words self start target) = Some (ru, su)
    ∧ a_star_search fuel (set_words self start target) = Some (ra, sa)
    ∧ (b = true ↔ is_Some rb) ∧ (b = true ↔ is_Some ru) ∧ (b = true ↔ is_Some ra).
Proof.
  intros Hfuel.
  destruct (check_path_exists_run self start target fuel Hfuel)
    as (b & sc & Hc & Hb & _).
  assert (b = true ↔ reachable (word_graph self) start target) as Hb'.
  { split; [done |]. intros Hreach. destruct b; [done |]. exfalso.
    revert Hc. unfold check_path_exists. case_bool_decide as Heq; [done |].
    destruct (while_loop _ _ _) as [[b' g']|] eqn:Hrun; [|done].
    intros [= -> _]. by destruct (cpe_complete _ _ _ _ _ Heq Hrun). }
  destruct (breadth_first_search_run (set_words self start target) fuel Hfuel)
    as (rb & sb & Hrb & Hsb & _).
  destruct (uniform_cost_search_run (set_words self start target) fuel Hfuel)
    as (ru & su & Hru & Hsu & _).
  destruct (a_star_search_run (set_words self start target) fuel Hfuel)
    as (ra & sa & Hra & Hsa & _).
  assert (ra = None → ¬ reachable (word_graph self) start target) as Hna.
  { intros ->. revert Hra. unfold a_star_search, a_star_init. simpl.
    destruct (while_loop _ _ _) as [[r' g']|] eqn:Hrun; [|done].
    intros [= -> _]. by eapply a_star_complete. }
  simpl in *. exists b, sc, rb, sb, ru, su, ra, sa.
  split_and!; [done.. | | |]; (eapply found_iff; [exact Hb' |]).
  - split; [by intros -> | by apply sound_unreachable, shortest_sound].
  - split; [by intros -> | by apply sound_unreachable, shortest_sound].
  - split; [done | by apply sound_unreachable].
Qed.

Lemma check_path_exists_agrees_witness :
  search_fuel (word_graph five_words_built) ≤ 30
  ∧ ∃ b sc rb sb ru su ra sa,
      check_path_exists 30 five_words_built (w "cat") (w "dot") = Some (b, sc)
      ∧ breadth_first_search 30 (set_words five_words_built (w "cat") (w "dot"))
        = Some (rb, sb)
      ∧ uniform_cost_search 30 (set_words five_words_built (w "cat") (w "dot"))
        = Some (ru, su)
      ∧ a_star_search 30 (set_words five_words_built (w "cat") (w "dot"))
        = Some (ra, sa)
      ∧ (b = true ↔ is_Some rb) ∧ (b = true ↔ is_Some ru) ∧ (b = true ↔ is_Some ra).
Proof.
  assert (search_fuel (word_graph five_words_built) ≤ 30) as Hfuel by by_compute.
  split; [exact Hfuel |].
  exact (check_path_exists_agrees five_words_built (w "cat") (w "dot") 30 Hfuel).
Defined.

(** * [is_valid_move] *)

Lemma differing_cons a u b t :
  differing (a :: u) (b :: t)
  = if decide (a = b) then differing u t else (a, b) :: differing u t.
Proof.
  unfold differing. simpl. rewrite filter_cons. simpl.
  repeat case_decide; by simplify_eq.
Qed.

Lemma differing_nil_r u : differing u [] = [].
Proof. by destruct u. Qed.

Lemma differing_refl u : differing u u = [].
Proof.
  induction u as [|a u IH]; [done |]. by rewrite differing_cons, decide_True.
Qed.

(** [zip] stops at the end of the shorter word. *)
Lemma differing_take u t :
  differing u t = differing (take (length t) u) (take (length u) t).
Proof.
  revert t. induction u as [|a u IH]; intros [|b t]; simpl; [done.. |].
  rewrite !differing_cons, <- IH. done.
Qed.

Lemma heuristic_differing t u :
  heuristic t u = sum_list ((λ _, 1) <$> differing u t).
Proof. done. Qed.

Lemma differing_one u t i :
  one_letter_apart u t i →
  ∃ a c, u !! i = Some a ∧ t !! i = Some c ∧ differing u t = [(a, c)].
Proof.
  revert t i. induction u as [|a u IH]; intros [|b t] i.
  - intros (_ & Hd & _). by destruct i.
  - by intros (? & _).
  - by intros (? & _).
  - rewrite one_letter_apart_cons. destruct i as [|i].
    + intros [Hab ->]. exists a, b. rewrite differing_cons, decide_False by done.
      by rewrite differing_refl.
    + intros [-> Hone]. destruct (IH t i Hone) as (a' & c & ? & ? & Hdiff).
      exists a', c. by rewrite differing_cons, decide_True.
Qed.

Lemma one_letter_apart_inj u v i j :
  one_letter_apart u v i → one_letter_apart u v j → i = j.
Proof.
  intros (_ & Hd & _) (_ & _ & Hs). destruct (decide (i = j)); [done |].
  by destruct Hd; apply Hs.
Qed.

(** The positions [is_valid_move] compares: those of the shorter word. *)
Lemma is_valid_move_true self new_word :
  is_valid_move self new_word = Returns true
  ↔ new_word ∈ dictionaries self (game_mode self)
    ∧ new_word ∉ banned_words self
    ∧ ∃ i, one_letter_apart (take (length new_word) (current_word self))
             (take (length (current_word self)) new_word) i
           ∧ ∀ c, new_word !! i = Some c → game_mode self = Challenge →
               c ∉ restricted_letters self.
Proof.
  unfold is_valid_move, next_changed.
  set (u := take (length new_word) (current_word self)).
  set (t := take (length (current_word self)) new_word).
  rewrite (differing_take (current_word self) new_word). fold u t.
  rewrite <- (heuristic_differing t u).
  assert (length u = length t) as Hlen.
  { subst u t. rewrite !length_take. lia. }
  pose proof (heuristic_one t u Hlen) as Hone.
  case_bool_decide as Hnil.
  { split; [done |]. intros (_ & _ & i & (_ & Hd & _) & _). subst new_word.
    subst u t. rewrite take_nil in Hd. simpl in Hd. by rewrite lookup_nil in Hd. }
  case_bool_decide as Hdict; [naive_solver |].
  case_bool_decide as Hban; [naive_solver |].
  case_bool_decide as Hdiff.
  { split; [done |]. intros (_ & _ & i & Hi & _). destruct Hdiff. apply Hone. eauto. }
  apply Hone in Hdiff as [i Hi].
  destruct (differing_one _ _ _ Hi) as (a & c & Ha & Hc & Hdf).
  assert (new_word !! i = Some c) as Hnc.
  { subst t. by apply lookup_take_Some in Hc as [? _]. }
  case_bool_decide as Hmode.
  - rewrite Hdf. case_bool_decide as Hr.
    + split; [done |]. intros (_ & _ & j & Hj & Hok).
      rewrite (one_letter_apart_inj _ _ _ _ Hj Hi) in Hok. by destruct (Hok c).
    + split; [|done]. intros _. split_and!; [done.. |]. exists i.
      split; [done |]. intros c' ? _. by simplify_eq.
  - split; [|done]. intros _. split_and!; [done.. |]. exists i. by split.
Qed.

Lemma is_valid_move_returns self new_word :
  ∃ b, is_valid_move self new_word = Returns b.
Proof.
  unfold is_valid_move, next_changed.
  do 3 (case_bool_decide; [by eauto |]).
  case_bool_decide as Hdiff; [by eauto |].
  case_bool_decide; [|by eauto].
  destruct (differing _ _) as [|[a b] l]; [done |].
  case_bool_decide; eauto.
Qed.

(** X11. [is_valid_move] never raises: the search for the changed letter
    runs only after exactly one difference was counted.  It accepts a
    word exactly when the word is in the dictionary of the mode, is not
    a banned word, differs from the current word at exactly one of the
    positions the two words share, and in Challenge mode its letter
    there is not restricted.  The empty word is never accepted. *)
Theorem is_valid_move_accepts self new_word :
  (∃ b, is_valid_move self new_word = Returns b)
  ∧ (is_valid_move self new_word = Returns true
     ↔ new_word ∈ dictionaries self (game_mode self)
       ∧ new_word ∉ banned_words self
       ∧ ∃ i, one_letter_apart (take (length new_word) (current_word self))
                (take (length (current_word self)) new_word) i
              ∧ ∀ c, new_word !! i = Some c → game_mode self = Challenge →
                  c ∉ restricted_letters self)
  ∧ is_valid_move self [] = Returns false.
Proof.
  split_and!; [apply is_valid_move_returns | apply is_valid_move_true | done].
Qed.

Lemma is_valid_move_accepts_witness :
  is_valid_move cat_bat_bath (w "bath") = Returns true
  ∧ w "bath" ∈ dictionaries cat_bat_bath (game_mode cat_bat_bath)
  ∧ w "bath" ∉ banned_words cat_bat_bath
  ∧ ∃ i, one_letter_apart
           (take (length (w "bath")) (current_word cat_bat_bath))
           (take (length (current_word cat_bat_bath)) (w "bath")) i
         ∧ ∀ c, w "bath" !! i = Some c → game_mode cat_bat_bath = Challenge →
             c ∉ restricted_letters cat_bat_bath.
Proof.
  assert (is_valid_move cat_bat_bath (w "bath") = Returns true) as H
    by (vm_compute; reflexivity).
  split; [exact H |].
  exact (proj1 (proj1 (proj2 (is_valid_move_accepts cat_bat_bath (w "bath")))) H).
Defined.

(** An entry of the built graph is a valid move, unless the word is
    banned. *)
Lemma adj_valid_move self rw rl built cur tgt new_word :
  build_word_graph self rw rl = Ret built →
  new_word ∈ adj (word_graph built) cur →
  new_word ∉ banned_words built →
  is_valid_move (set_words built cur tgt) new_word = Returns true.
Proof.
  intros Hb Hadj Hban.
  apply (build_word_graph_adj _ _ _ _ _ _ Hb) in Hadj
    as (Hcur & i & c & Hi & _ & Hc & Hnew & Heff & Hne).
  destruct (proj1 (substitute_spec cur new_word i c Hi) (conj Hnew Hne))
    as [Hone Hnc].
  apply is_valid_move_true. simpl.
  split_and!; [by apply effective_words_subseteq | done |].
  exists i. pose proof Hone as (Hlen & _).
  rewrite <- Hlen, firstn_all. rewrite Hlen, firstn_all. split; [done |].
  intros c' ? Hm. simplify_eq. unfold active_letters in Hc.
  by rewrite bool_decide_true in Hc.
Qed.

Lemma valid_move_adj self rw rl built cur tgt new_word :
  lowercase_dict (dictionaries self (game_mode self)) →
  build_word_graph self rw rl = Ret built →
  cur ∈ effective_words built →
  length new_word = length cur →
  is_valid_move (set_words built cur tgt) new_word = Returns true →
  new_word ∈ adj (word_graph built) cur.
Proof.
  intros Hlow Hb Hcur Hlen (Hd & Hban & i & Hone & Hc)%is_valid_move_true.
  simpl in *. rewrite Hlen, firstn_all in Hone.
  rewrite <- Hlen, firstn_all in Hone.
  apply (built_edge_iff _ _ _ _ Hlow Hb).
  assert (new_word ∈ effective_words built) as Hnew.
  { unfold effective_words. case_bool_decide; set_solver. }
  split_and!; [done | done | |].
  - intros ->. by destruct Hone as (_ & ? & _).
  - exists i. split; [done |]. intros c ?. unfold active_letters.
    case_bool_decide; [by apply Hc | set_solver].
Qed.

(** X12. In a game whose graph was just built, every entry of the graph
    under the current word is a move [is_valid_move] accepts, unless the
    word is in the banned set (which can only happen outside Challenge
    mode, where the graph ignores that set).  For a word of the length
    of the current word the converse holds when the current word is in
    the effective dictionary and the dictionary is lowercase: an
    accepted move is an entry of the graph. *)
Theorem is_valid_move_graph self rnd_words rnd_letters built cur tgt new_word :
  build_word_graph self rnd_words rnd_letters = Ret built →
  (new_word ∈ adj (word_graph built) cur →
   (game_mode built = Challenge → new_word ∉ banned_words built)
   ∧ (new_word ∉ banned_words built →
      is_valid_move (set_words built cur tgt) new_word = Returns true))
  ∧ (lowercase_dict (dictionaries self (game_mode self)) →
     cur ∈ effective_words built → length new_word = length cur →
     is_valid_move (set_words built cur tgt) new_word = Returns true →
     new_word ∈ adj (word_graph built) cur).
Proof.
  intros Hb. split.
  - intros Hadj. split; [|by eapply adj_valid_move].
    intros Hm.
    apply (build_word_graph_adj _ _ _ _ _ _ Hb) in Hadj
      as (_ & i & c & _ & _ & _ & _ & Heff & _).
    unfold effective_words in Heff. rewrite bool_decide_true in Heff by done.
    set_solver.
  - intros. by eapply valid_move_adj.
Qed.

Lemma is_valid_move_graph_witness :
  build_word_graph hot_hat_cat hot_hat_cat_banned hot_hat_cat_letters
  = Ret hot_hat_cat_built
  ∧ w "hat" ∈ adj (word_graph hot_hat_cat_built) (w "cat")
  ∧ w "hat" ∉ banned_words hot_hat_cat_built
  ∧ is_valid_move (set_words hot_hat_cat_built (w "cat") (w "hot")) (w "hat")
    = Returns true.
Proof.
  assert (build_word_graph hot_hat_cat hot_hat_cat_banned hot_hat_cat_letters
          = Ret hot_hat_cat_built) as Hb by by_return.
  assert (w "hat" ∈ adj (word_graph hot_hat_cat_built) (w "cat")) as Hadj
    by by_compute.
  assert (w "hat" ∉ banned_words hot_hat_cat_built) as Hban by by_compute.
  split_and!; [exact Hb | exact Hadj | exact Hban |].
  exact (proj2 (proj1 (is_valid_move_graph _ _ _ _ (w "cat") (w "hot") (w "hat") Hb)
                  Hadj) Hban).
Defined.

(** X13. [is_valid_move] does not compare the lengths of the two words:
    what it answers depends on the new word only through its membership
    in the dictionary and the banned set and through its first letters,
    as many as the current word has.  Two words of the dictionary, not
    banned, that agree on those letters are accepted or rejected
    together. *)
Theorem is_valid_move_ignores_tail self new_word new_word' :
  take (length (current_word self)) new_word
  = take (length (current_word self)) new_word' →
  new_word ∈ dictionaries self (game_mode self) ∖ banned_words self →
  new_word' ∈ dictionaries self (game_mode self) ∖ banned_words self →
  is_valid_move self new_word = is_valid_move self new_word'.
Proof.
  intros Htake [Hd Hb]%elem_of_difference [Hd' Hb']%elem_of_difference.
  assert (∀ x y, take (length (current_word self)) x
                 = take (length (current_word self)) y →
            x ∈ dictionaries self (game_mode self) → x ∉ banned_words self →
            y ∈ dictionaries self (game_mode self) → y ∉ banned_words self →
            is_valid_move self x = Returns true →
            is_valid_move self y = Returns true) as Himp.
  { intros x y Hxy ? ? ? ? (_ & _ & i & Hone & Hc)%is_valid_move_true.
    apply is_valid_move_true. split_and!; [done.. |].
    pose proof (f_equal length Hxy) as Hl. rewrite !length_take in Hl.
    assert (take (length y) (current_word self)
            = take (length x) (current_word self)) as Hcur.
    { destruct (decide (length (current_word self) ≤ length x)).
      - rewrite !take_ge by lia. done.
      - f_equal. lia. }
    assert (i < length (current_word self)) as Hi.
    { apply one_letter_apart_lt in Hone. rewrite length_take in Hone. lia. }
    exists i. rewrite Hcur, <- Hxy. split; [done |].
    intros c Hyc. apply Hc.
    rewrite <- (lookup_take_lt x (length (current_word self)) i) by done.
    rewrite Hxy. by rewrite lookup_take_lt. }
  destruct (is_valid_move_returns self new_word) as [[] H1],
    (is_valid_move_returns self new_word') as [[] H2]; rewrite H1, H2; [done | | | done].
  - rewrite (Himp new_word new_word') in H2 by done. done.
  - rewrite (Himp new_word' new_word) in H1 by done. done.
Qed.

Lemma is_valid_move_ignores_tail_witness :
  take (length (current_word cat_bat_bath)) (w "bat")
  = take (length (current_word cat_bat_bath)) (w "bath")
  ∧ w "bat" ∈ dictionaries cat_bat_bath (game_mode cat_bat_bath)
              ∖ banned_words cat_bat_bath
  ∧ w "bath" ∈ dictionaries cat_bat_bath (game_mode cat_bat_bath)
               ∖ banned_words cat_bat_bath
  ∧ is_valid_move cat_bat_bath (w "bat") = is_valid_move cat_bat_bath (w "bath").
Proof.
  assert (take (length (current_word cat_bat_bath)) (w "bat")
          = take (length (current_word cat_bat_bath)) (w "bath")) as Ht
    by reflexivity.
  assert (w "bat" ∈ dictionaries cat_bat_bath (game_mode cat_bat_bath)
                    ∖ banned_words cat_bat_bath) as H1 by by_compute.
  assert (w "bath" ∈ dictionaries cat_bat_bath (game_mode cat_bat_bath)
                     ∖ banned_words cat_bat_bath) as H2 by by_compute.
  split_and!; [exact Ht | exact H1 | exact H2 |].
  exact (is_valid_move_ignores_tail cat_bat_bath (w "bat") (w "bath") Ht H1 H2).
Defined.

(** * [get_hint] *)

Lemma path_to_uncons g start goal p :
  path_to g start goal p →
  (p = [start] ∧ goal = start)
  ∨ ∃ x q, p = start :: x :: q ∧ x ∈ adj g start ∧ path_to g x goal (x :: q).
Proof.
  induction 1 as [|x y p Hp IH Hy]; [by left |]. right.
  destruct IH as [[-> ->]|(x0 & q & -> & Hx0 & Hq)].
  - exists y, []. split_and!; [done | done | constructor].
  - exists x0, (q ++ [y]). split_and!; [done | done |].
    by apply (path_step g x0 x y (x0 :: q)).
Qed.

Lemma second_word_spec g start goal c p :
  path_to g start goal p → length p = S c →
  match second_word (Some p) with
  | None => c = 0 ∧ p = [start] ∧ goal = start
  | Some x => ∃ n, c = S n ∧ x ∈ adj g start ∧ walk g x goal n
  end.
Proof.
  intros [[-> ->]|(x & q & -> & Hx & Hq)]%path_to_uncons Hlen;
    unfold second_word.
  - rewrite (bool_decide_false (1 < _)) by (simpl; lia).
    rewrite andb_false_r. simpl in Hlen. split_and!; [lia | done..].
  - destruct (path_to_walk _ _ _ _ Hq) as (n & Hn & Hw).
    rewrite (bool_decide_true (_ ≠ _)) by done.
    rewrite (bool_decide_true (1 < _)) by (simpl; lia).
    simpl in *. exists n. split_and!; [lia | done..].
Qed.

(** What [get_hint] makes of the result of a search. *)
Lemma hint_of_result g start goal r :
  sound g start goal r →
  (start = goal → r = Some (0, [start])) →
  (r = None → ¬ reachable g start goal) →
  (second_word (snd <$> r) = None ↔ start = goal ∨ ¬ reachable g start goal)
  ∧ ∀ x, second_word (snd <$> r) = Some x →
      ∃ c p n, r = Some (c, p) ∧ c = S n ∧ x ∈ adj g start ∧ walk g x goal n.
Proof.
  intros Hs Hsame Hnone. destruct r as [[c p]|]; cbn [fmap option_fmap option_map snd].
  - destruct (Hs c p eq_refl) as [Hp Hlen].
    pose proof (second_word_spec _ _ _ _ _ Hp Hlen) as Hsw.
    destruct (second_word (Some p)) as [x|].
    + destruct Hsw as (n & -> & Hx & Hw). split.
      * split; [done |]. intros [Heq|Hnr].
        -- by specialize (Hsame Heq).
        -- destruct Hnr. exists (S n).
           clear -Hx Hw. induction Hw as [|a b n Hw IH Hb].
           ++ by apply (walk_S g start start x 0); [constructor |].
           ++ by econstructor.
      * intros ? [= <-]. by exists (S n), p, n.
    + destruct Hsw as (-> & -> & ->). split; [|done]. split; [by left | done].
  - split; [|done]. split; [|done]. intros _. right. by apply Hnone.
Qed.

Lemma shortest_same_word g start r :
  shortest g start start r → r = Some (0, [start]).
Proof.
  destruct r as [[c p]|]; simpl.
  - intros (Hp & Hlen & Hmin). specialize (Hmin 0 (walk_O g start)).
    assert (c = 0) as -> by lia.
    apply path_to_head in Hp. destruct p as [|a [|b p]]; by simplify_eq/=.
  - intros Hnr. destruct Hnr. exists 0. constructor.
Qed.

Lemma a_star_search_none self fuel self' :
  a_star_search fuel self = Some (None, self') →
  ¬ reachable (word_graph self) (current_word self) (target_word self).
Proof.
  unfold a_star_search, a_star_init.
  destruct (while_loop _ _ _) as [[r' g']|] eqn:Hrun; [|done].
  intros [= -> _]. by eapply a_star_complete.
Qed.

Lemma a_star_search_same self fuel r self' :
  0 < fuel → current_word self = target_word self →
  a_star_search fuel self = Some (r, self') → r = Some (0, [current_word self]).
Proof.
  intros Hfuel Heq. destruct fuel as [|fuel]; [lia |].
  unfold a_star_search, a_star_init. simpl.
  rewrite bool_decide_true by done. by intros [= <- _].
Qed.

Lemma is_valid_move_set_word_graph self g new_word :
  is_valid_move (set_word_graph self g) new_word = is_valid_move self new_word.
Proof. done. Qed.

(** The search [get_hint] runs under each of the three names. *)
Lemma get_hint_run self fuel algorithm :
  search_fuel (word_graph self) ≤ fuel →
  algorithm ∈ ["A*"; "UCS"; "BFS"]%string →
  ∃ r self',
    get_hint fuel self algorithm = Some (Returns (second_word (snd <$> r)), self')
    ∧ keeps_entries self self'
    ∧ sound (word_graph self) (current_word self) (target_word self) r
    ∧ (current_word self = target_word self → r = Some (0, [current_word self]))
    ∧ (r = None →
       ¬ reachable (word_graph self) (current_word self) (target_word self))
    ∧ (algorithm ≠ "A*"%string
       ∨ (∀ u v, v ∈ adj (word_graph self) u →
            heuristic (target_word self) u ≤ S (heuristic (target_word self) v)) →
       shortest (word_graph self) (current_word self) (target_word self) r).
Proof.
  intros Hfuel Halg. unfold get_hint.
  assert (0 < fuel) as Hpos by (unfold search_fuel in Hfuel; lia).
  repeat apply elem_of_cons in Halg as [->|Halg]; [| | |by apply elem_of_nil in Halg].
  - rewrite bool_decide_true by done.
    destruct (a_star_search_run self fuel Hfuel) as (r & self' & Hrun & Hs & Hk & Hopt).
    exists r, self'. rewrite Hrun. split_and!; [done.. | | |].
    + intros Heq. by eapply a_star_search_same.
    + intros ->. by eapply a_star_search_none.
    + intros [?|Hcons]; [done | by apply Hopt].
  - rewrite bool_decide_false, bool_decide_true by done.
    destruct (uniform_cost_search_run self fuel Hfuel) as (r & self' & Hrun & Hs & Hk).
    exists r, self'. rewrite Hrun.
    split_and!; [done | done | by apply shortest_sound | | by intros -> | done].
    intros Heq. rewrite <- Heq in Hs. by apply shortest_same_word in Hs.
  - rewrite !bool_decide_false, bool_decide_true by done.
    destruct (breadth_first_search_run self fuel Hfuel) as (r & self' & Hrun & Hs & Hk).
    exists r, self'. rewrite Hrun.
    split_and!; [done | done | by apply shortest_sound | | by intros -> | done].
    intros Heq. rewrite <- Heq in Hs. by apply shortest_same_word in Hs.
Qed.

(** X14. With one of the names A*, UCS, BFS, [get_hint] returns, and
    leaves the game as a search does.  It returns [None] exactly when
    the current word is the target or the target cannot be reached;
    otherwise it returns an entry of the graph under the current word
    from which the target can be reached, and with UCS and BFS one
    that starts a shortest ladder.  With any other name it raises
    [UnboundLocalError] and runs no search. *)
Theorem get_hint_first_step self fuel algorithm :
  search_fuel (word_graph self) ≤ fuel →
  (algorithm ∈ ["A*"; "UCS"; "BFS"]%string →
   ∃ h self',
     get_hint fuel self algorithm = Some (Returns h, self')
     ∧ keeps_entries self self'
     ∧ (h = None ↔
        current_word self = target_word self
        ∨ ¬ reachable (word_graph self) (current_word self) (target_word self))
     ∧ ∀ x, h = Some x →
         x ∈ adj (word_graph self) (current_word self)
         ∧ reachable (word_graph self) x (target_word self)
         ∧ (algorithm ≠ "A*"%string →
            ∃ n, walk (word_graph self) x (target_word self) n
                 ∧ ∀ m, walk (word_graph self) (current_word self)
                          (target_word self) m → S n ≤ m))
  ∧ (algorithm ∉ ["A*"; "UCS"; "BFS"]%string →
     get_hint fuel self algorithm = Some (Raises UnboundLocalError, self)).
Proof.
  intros Hfuel. split.
  - intros Halg.
    destruct (get_hint_run self fuel algorithm Hfuel Halg)
      as (r & self' & Hrun & Hk & Hs & Hsame & Hnone & Hopt).
    exists (second_word (snd <$> r)), self'.
    destruct (hint_of_result _ _ _ r Hs Hsame Hnone) as [Hn Hsome].
    split_and!; [done.. |]. intros x Hx.
    destruct (Hsome x Hx) as (c & p & n & -> & -> & Hadj & Hw).
    split_and!; [done | by exists n |]. intros Hne. exists n. split; [done |].
    intros m Hm. by apply (Hopt (or_introl Hne)).
  - intros Halg. unfold get_hint.
    rewrite !bool_decide_false; [done | set_solver..].
Qed.

Lemma get_hint_first_step_witness :
  search_fuel (word_graph five_words_built) ≤ 30
  ∧ "BFS"%string ∈ ["A*"; "UCS"; "BFS"]%string
  ∧ ∃ h self',
      get_hint 30 (set_words five_words_built (w "cat") (w "dot")) "BFS"
      = Some (Returns h, self')
      ∧ keeps_entries (set_words five_words_built (w "cat") (w "dot")) self'
      ∧ (h = None ↔
         w "cat" = w "dot"
         ∨ ¬ reachable (word_graph five_words_built) (w "cat") (w "dot"))
      ∧ ∀ x, h = Some x →
          x ∈ adj (word_graph five_words_built) (w "cat")
          ∧ reachable (word_graph five_words_built) x (w "dot")
          ∧ ("BFS"%string ≠ "A*"%string →
             ∃ n, walk (word_graph five_words_built) x (w "dot") n
                  ∧ ∀ m, walk (word_graph five_words_built) (w "cat") (w "dot") m →
                      S n ≤ m).
Proof.
  assert (search_fuel (word_graph five_words_built) ≤ 30) as Hfuel by by_compute.
  assert ("BFS"%string ∈ ["A*"; "UCS"; "BFS"]%string) as Halg by by_compute.
  split_and!; [exact Hfuel | exact Halg |].
  exact (proj1 (get_hint_first_step
                  (set_words five_words_built (w "cat") (w "dot")) 30 "BFS" Hfuel)
           Halg).
Defined.

(** X15. In a game whose graph was just built, a hint of any of the
    three algorithms, A* included, is an entry of the graph under the
    current word that starts a shortest ladder to the target, and
    [is_valid_move] accepts it as the next move; the one exception is a
    hint that is in the banned set, which cannot happen in Challenge
    mode. *)
Theorem hint_is_valid_move self rnd_words rnd_letters built cur tgt fuel algorithm :
  build_word_graph self rnd_words rnd_letters = Ret built →
  search_fuel (word_graph built) ≤ fuel →
  algorithm ∈ ["A*"; "UCS"; "BFS"]%string →
  ∃ h self',
    get_hint fuel (set_words built cur tgt) algorithm = Some (Returns h, self')
    ∧ ∀ x, h = Some x →
        x ∈ adj (word_graph built) cur
        ∧ (∃ n, walk (word_graph built) x tgt n
                ∧ ∀ m, walk (word_graph built) cur tgt m → S n ≤ m)
        ∧ (game_mode built = Challenge → x ∉ banned_words built)
        ∧ (x ∉ banned_words built → is_valid_move self' x = Returns true).
Proof.
  intros Hb Hfuel Halg.
  destruct (get_hint_run (set_words built cur tgt) fuel algorithm Hfuel Halg)
    as (r & self' & Hrun & Hk & Hs & Hsame & Hnone & Hopt).
  exists (second_word (snd <$> r)), self'. split; [done |]. intros x Hx.
  destruct (hint_of_result _ _ _ r Hs Hsame Hnone) as [_ Hsome].
  destruct (Hsome x Hx) as (c & p & n & -> & -> & Hadj & Hw). simpl in *.
  split_and!.
  - done.
  - exists n. split; [done |]. intros m Hm.
    assert (shortest (word_graph built) cur tgt (Some (S n, p)))
      as (_ & _ & Hmin).
    { apply Hopt. right. intros u v Huv. by eapply built_consistent. }
    by apply Hmin.
  - intros Hm.
    apply (build_word_graph_adj _ _ _ _ _ _ Hb) in Hadj
      as (_ & i & a & _ & _ & _ & _ & Heff & _).
    unfold effective_words in Heff. rewrite bool_decide_true in Heff by done.
    set_solver.
  - intros Hban. destruct Hk as (Hk & _). rewrite Hk.
    rewrite is_valid_move_set_word_graph. by eapply adj_valid_move.
Qed.

Lemma hint_is_valid_move_witness :
  build_word_graph five_words [] [] = Ret five_words_built
  ∧ search_fuel (word_graph five_words_built) ≤ 30
  ∧ "A*"%string ∈ ["A*"; "UCS"; "BFS"]%string
  ∧ ∃ h self',
      get_hint 30 (set_words five_words_built (w "cat") (w "dot")) "A*"
      = Some (Returns h, self')
      ∧ ∀ x, h = Some x →
          x ∈ adj (word_graph five_words_built) (w "cat")
          ∧ (∃ n, walk (word_graph five_words_built) x (w "dot") n
                  ∧ ∀ m, walk (word_graph five_words_built) (w "cat") (w "dot") m →
                      S n ≤ m)
          ∧ (game_mode five_words_built = Challenge →
             x ∉ banned_words five_words_built)
          ∧ (x ∉ banned_words five_words_built →
             is_valid_move self' x = Returns true).
Proof.
  assert (build_word_graph five_words [] [] = Ret five_words_built) as Hb
    by by_return.
  assert (search_fuel (word_graph five_words_built) ≤ 30) as Hfuel by by_compute.
  assert ("A*"%string ∈ ["A*"; "UCS"; "BFS"]%string) as Halg by by_compute.
  split_and!; [exact Hb | exact Hfuel | exact Halg |].
  exact (hint_is_valid_move five_words [] [] five_words_built (w "cat") (w "dot")
           30 "A*" Hb Hfuel Halg).
Defined.

(** * The methods that play the game *)

Lemma walk_adj g g' start x n :
  (∀ u, adj g' u = adj g u) → walk g' start x n → walk g start x n.
Proof.
  intros Hadj. induction 1 as [|x y n _ IH Hy]; [constructor |].
  econstructor; [done |]. by rewrite <- Hadj.
Qed.

Lemma reachable_adj g g' start goal :
  (∀ u, adj g' u = adj g u) → reachable g' start goal ↔ reachable g start goal.
Proof.
  intros Hadj. split; intros [n Hw]; exists n.
  - by eapply walk_adj.
  - eapply walk_adj; [|done]. intros u. by rewrite Hadj.
Qed.

Lemma targets_adj g g' : (∀ u, adj g' u = adj g u) → targets g' = targets g.
Proof.
  intros Hadj. apply set_eq. intros y. rewrite !elem_of_targets.
  by setoid_rewrite Hadj.
Qed.

Lemma scan_fuel_adj g g' :
  (∀ u, adj g' u = adj g u) → scan_fuel g' = scan_fuel g.
Proof. intros Hadj. unfold scan_fuel. by rewrite (targets_adj g g'). Qed.

Lemma scan_fuel_le g : scan_fuel g ≤ search_fuel g.
Proof. unfold scan_fuel, search_fuel. lia. Qed.

(** [check_path_exists] within [scan_fuel] iterations. *)
Lemma check_path_exists_scan self start target fuel :
  scan_fuel (word_graph self) ≤ fuel →
  ∃ b self', check_path_exists fuel self start target = Some (b, self')
    ∧ (b = true ↔ reachable (word_graph self) start target)
    ∧ keeps_entries self self'.
Proof.
  intros Hfuel.
  assert (is_Some (check_path_exists fuel self start target)) as [[b self'] Hrun].
  { unfold check_path_exists. case_bool_decide; [by eexists |].
    destruct (while_loop_terminates (cpe_body target) queue_measure
                (cpe_body_measure target) fuel
                (word_graph self, [start], {[start]})) as [r Hr].
    - unfold queue_measure, scan_fuel in *. simpl.
      pose proof (subseteq_size (targets (word_graph self) ∖ {[start]})
                    (targets (word_graph self)) ltac:(set_solver)). lia.
    - rewrite Hr. by eexists. }
  exists b, self'. split; [done |].
  set (fuel' := fuel `max` search_fuel (word_graph self)).
  assert (check_path_exists fuel' self start target = Some (b, self')) as Hrun'.
  { revert Hrun. unfold check_path_exists. case_bool_decide; [done |].
    destruct (while_loop _ fuel _) as [r|] eqn:Hr; [|done].
    rewrite (while_loop_mono _ fuel fuel' _ r Hr) by lia. done. }
  destruct (check_path_exists_run self start target fuel' ltac:(lia))
    as (b' & self'' & Hrun'' & Hsound & Hkeep).
  rewrite Hrun' in Hrun''. simplify_eq. split; [|done].
  split; [done |]. intros Hreach. destruct b'; [done |]. exfalso.
  revert Hrun. unfold check_path_exists. case_bool_decide as Heq; [done |].
  destruct (while_loop _ _ _) as [[b' g']|] eqn:Hr; [|done].
  intros [= -> _]. by destruct (cpe_complete _ _ _ _ _ Heq Hr).
Qed.

Lemma keeps_entries_scan_fuel self self' :
  keeps_entries self self' →
  scan_fuel (word_graph self') = scan_fuel (word_graph self).
Proof. intros (_ & _ & Hadj). by apply scan_fuel_adj. Qed.

(** ** [create_custom_ladder] *)

(** X16. [create_custom_ladder] sets up the ladder, showing no error,
    exactly when the two words have the same length, both are in the
    dictionary of the mode, and the target can be reached from the start
    in the graph.  It then makes them the current and the target word and
    empties the moves, and leaves the score and the move limit as they
    were.  When it shows an error the game is unchanged but for the
    empty lists a search may add to the graph.  A word of the dictionary
    is always accepted as a ladder to itself. *)
Theorem create_custom_ladder_accepts self start target fuel :
  scan_fuel (word_graph (game_state self)) ≤ fuel →
  ∃ shown self',
    create_custom_ladder fuel self start target = Some (shown, self')
    ∧ only_empty_added (word_graph (game_state self))
        (word_graph (game_state self'))
    ∧ (shown = [] ↔
       length start = length target
       ∧ start ∈ dictionaries (game_state self) (game_mode (game_state self))
       ∧ target ∈ dictionaries (game_state self) (game_mode (game_state self))
       ∧ reachable (word_graph (game_state self)) start target)
    ∧ (shown = [] →
       self' = Session
                 (set_words
                    (set_word_graph (game_state self)
                       (word_graph (game_state self'))) start target)
                 [] (max_moves self) (score self) (multiplayer_mode self)
                 (player_scores self) (current_player self))
    ∧ (shown ≠ [] →
       self' = set_game self
                 (set_word_graph (game_state self)
                    (word_graph (game_state self'))))
    ∧ (start = target →
       start ∈ dictionaries (game_state self) (game_mode (game_state self)) →
       shown = []).
Proof.
  intros Hfuel. unfold create_custom_ladder.
  case_bool_decide as Hlen.
  { eexists _, _. split; [done |].
    split_and!; [apply only_empty_added_refl | | done | |].
    - split; [done |]. by intros (? & _).
    - intros _. destruct self as [g ? ? ? ? ? ?]. simpl.
      by rewrite set_word_graph_id.
    - intros -> _. done. }
  destruct (bool_decide (start ∈ _) && bool_decide (target ∈ _)) eqn:Hdict; simpl.
  2:{ eexists _, _. split; [done |].
      split_and!; [apply only_empty_added_refl | | done | |].
      - split; [done |]. intros (_ & Hs & Ht & _).
        by rewrite !bool_decide_true in Hdict.
      - intros _. destruct self as [g ? ? ? ? ? ?]. simpl.
        by rewrite set_word_graph_id.
      - intros -> Hs. by rewrite !bool_decide_true in Hdict. }
  apply andb_prop in Hdict as [Hs%bool_decide_eq_true_1 Ht%bool_decide_eq_true_1].
  destruct (check_path_exists_scan (game_state self) start target fuel Hfuel)
    as (b & g' & -> & Hb & Hkeep & Hadd & _). simpl.
  destruct b; simpl.
  - eexists _, _. split; [done |]. simpl.
    split_and!; [done | | | done | ].
    + split; [intros _ | done]. split_and!; [|done..|by apply Hb].
      by destruct (decide (length start = length target)).
    + intros _. by rewrite Hkeep at 1.
    + done.
  - eexists _, _. split; [done |]. simpl.
    split_and!; [done | | done | |].
    + split; [done |]. intros (_ & _ & _ & Hr). by apply Hb in Hr.
    + intros _. unfold set_game. by rewrite Hkeep at 1.
    + intros -> _. assert (false = true); [|done]. apply Hb. exists 0. constructor.
Qed.

Lemma create_custom_ladder_accepts_witness :
  scan_fuel (word_graph five_words_built) ≤ 30
  ∧ ∃ shown self',
      create_custom_ladder 30
        (Session five_words_built [] 10 100 false (λ _, 0%Z) Player1)
        (w "cat") (w "dot") = Some (shown, self')
      ∧ (shown = [] ↔
         length (w "cat") = length (w "dot")
         ∧ w "cat" ∈ dictionaries five_words_built (game_mode five_words_built)
         ∧ w "dot" ∈ dictionaries five_words_built (game_mode five_words_built)
         ∧ reachable (word_graph five_words_built) (w "cat") (w "dot")).
Proof.
  assert (scan_fuel (word_graph five_words_built) ≤ 30) as Hfuel by by_compute.
  split; [exact Hfuel |].
  destruct (create_custom_ladder_accepts
              (Session five_words_built [] 10 100 false (λ _, 0%Z) Player1)
              (w "cat") (w "dot") 30 Hfuel)
    as (shown & self' & Hrun & _ & Hiff & _).
  exists shown, self'. split; [exact Hrun | exact Hiff].
Defined.

(** ** [start_new_game] *)

(** The attempts of [start_new_game], run to their end. *)
Lemma choose_target_run fuel picks n :
  ∀ attempts self,
    scan_fuel (word_graph self) ≤ fuel →
    ∃ k g',
      choose_target fuel picks n attempts self
      = Some (k, Game (dictionaries self) g' (current_word self)
                   (if decide (n = 0) then target_word self
                    else picks (k `min` (attempts + n - 1)))
                   (game_mode self) (banned_words self) (restricted_letters self))
      ∧ only_empty_added (word_graph self) g'
      ∧ attempts ≤ k ≤ attempts + n
      ∧ (∀ j, attempts ≤ j < k →
           picks j = current_word self
           ∨ ¬ reachable (word_graph self) (current_word self) (picks j))
      ∧ (k < attempts + n →
         picks k ≠ current_word self
         ∧ reachable (word_graph self) (current_word self) (picks k)).
Proof.
  induction n as [|n IH]; intros attempts self Hfuel.
  - exists attempts, (word_graph self). simpl.
    split_and!; [by destruct self | apply only_empty_added_refl | lia.. | | ]; intros; lia.
  - cbn [choose_target]. cbn [target_word current_word set_words].
    case_bool_decide as Hne.
    + destruct (check_path_exists_scan
                  (set_words self (current_word self) (picks attempts))
                  (current_word self) (picks attempts) fuel Hfuel)
        as (b & self2 & -> & Hb & Hkeep). cbn [mbind option_bind fst snd].
      pose proof (keeps_entries_scan_fuel _ _ Hkeep) as Hscan.
      destruct Hkeep as (Hself2 & Hadd & Hadj).
      destruct self2 as [d2 g2 c2 t2 m2 b2 r2].
      unfold set_word_graph, set_words in Hself2. simpl in *.
      injection Hself2 as -> -> -> -> -> ->.
      destruct b.
      * exists attempts, g2.
        replace (attempts `min` (attempts + S n - 1)) with attempts by lia.
        split_and!; [done | done | lia.. | |].
        -- intros j ?. lia.
        -- intros _. split; [done |]. by apply Hb.
      * destruct (IH (attempts + 1)
                    (Game (dictionaries self) g2 (current_word self)
                       (picks attempts) (game_mode self) (banned_words self)
                       (restricted_letters self)))
          as (k & g' & Hrun & Hadd' & Hk & Hbad & Hgood).
        { unfold scan_fuel in *. simpl. lia. }
        simpl in *.
        exists k, g'. split_and!.
        -- rewrite Hrun. do 2 f_equal. f_equal.
           destruct (decide (n = 0)) as [->|?]; [f_equal; lia | f_equal; lia].
        -- by eapply only_empty_added_trans.
        -- lia.
        -- lia.
        -- intros j Hj. destruct (decide (j = attempts)) as [->|?].
           ++ right. intros Hr. by apply Hb in Hr.
           ++ destruct (Hbad j ltac:(lia)) as [?|Hnr]; [by left | right].
              by rewrite <- (reachable_adj _ _ _ _ Hadj).
        -- intros Hlt.
           destruct Hgood as [? Hr]; [lia |]. split; [done |].
           by rewrite <- (reachable_adj _ _ _ _ Hadj).
    + destruct (IH (attempts + 1) (set_words self (current_word self) (picks attempts)))
        as (k & g' & Hrun & Hadd' & Hk & Hbad & Hgood); [done |].
      simpl in *. exists k, g'. split_and!.
      * rewrite Hrun. do 2 f_equal. f_equal.
        destruct (decide (n = 0)) as [->|?]; [f_equal; lia | f_equal; lia].
      * done.
      * lia.
      * lia.
      * intros j Hj. destruct (decide (j = attempts)) as [->|?]; [by left |].
        apply Hbad. lia.
      * intros Hlt. apply Hgood. lia.
Qed.

(** [start_new_game], run to its end. *)
Lemma start_new_game_run self first picks fuel :
  scan_fuel (word_graph (game_state self)) ≤ fuel →
  ∃ shown g' c t,
    start_new_game fuel self first picks
    = Some (shown,
            Session
              (Game (dictionaries (game_state self)) g' c t
                 (game_mode (game_state self)) (banned_words (game_state self))
                 (restricted_letters (game_state self)))
              [] (mode_max_moves (game_mode (game_state self))) 100
              (multiplayer_mode self) (player_scores self) (current_player self))
    ∧ only_empty_added (word_graph (game_state self)) g'
    ∧ (size (dictionaries (game_state self) (game_mode (game_state self))
               ∖ banned_words (game_state self)) < 2 →
       shown = [NotEnoughValidWords] ∧ g' = word_graph (game_state self)
       ∧ c = current_word (game_state self) ∧ t = target_word (game_state self))
    ∧ (2 ≤ size (dictionaries (game_state self) (game_mode (game_state self))
                   ∖ banned_words (game_state self)) →
       c = first
       ∧ ((shown = [NoValidWordPair] ∧ t = picks 99
           ∧ ∀ k, k < 100 →
               picks k = first
               ∨ ¬ reachable (word_graph (game_state self)) first (picks k))
          ∨ (shown = (if bool_decide (game_mode (game_state self) = Challenge)
                      then [ChallengeModeRules (banned_words (game_state self))
                              (restricted_letters (game_state self))]
                      else [])
             ∧ t ≠ first
             ∧ reachable (word_graph (game_state self)) first t
             ∧ ∃ k, k < 100 ∧ t = picks k
                    ∧ ∀ j, j < k →
                        picks j = first
                        ∨ ¬ reachable (word_graph (game_state self)) first
                              (picks j)))).
Proof.
  intros Hfuel. unfold start_new_game.
  change (length (elements ?X)) with (size X).
  destruct (Nat.ltb_spec
              (size (dictionaries (game_state self) (game_mode (game_state self))
                       ∖ banned_words (game_state self))) 2) as [Hlt|Hge].
  - exists [NotEnoughValidWords], (word_graph (game_state self)),
      (current_word (game_state self)), (target_word (game_state self)).
    split_and!; [by destruct self as [[] ? ? ? ? ? ?]
                | apply only_empty_added_refl | done | lia].
  - destruct (choose_target_run fuel picks 100 0
                (set_words (game_state self) first (target_word (game_state self)))
                Hfuel) as (k & g' & Hrun & Hadd & Hk & Hbad & Hgood).
    cbn [set_words dictionaries word_graph current_word target_word game_mode
         banned_words restricted_letters] in Hrun, Hadd, Hbad, Hgood.
    rewrite Hrun. cbn [mbind option_bind fst snd set_game moves max_moves score
         multiplayer_mode player_scores current_player].
    rewrite decide_False in * by lia.
    case_bool_decide as Hmax.
    + assert (k = 100) as -> by lia.
      eexists _, g', first, (picks 99). split; [done |].
      split_and!; [done | lia |]. intros _. split; [done |]. left.
      split_and!; [done.. |]. intros j Hj. apply Hbad. lia.
    + destruct Hgood as [Hne Hr]; [lia |].
      replace (k `min` (0 + 100 - 1)) with k in * by lia.
      exists (if bool_decide (game_mode (game_state self) = Challenge)
              then [ChallengeModeRules (banned_words (game_state self))
                      (restricted_letters (game_state self))]
              else []), g', first, (picks k). split.
      { destruct (decide (game_mode (game_state self) = Challenge));
          [rewrite !bool_decide_true by done | rewrite !bool_decide_false by done];
          done. }
      split_and!; [done | lia |]. intros _. split; [done |]. right.
      split_and!; [done.. |].
      exists k. split_and!; [lia | done |]. intros j Hj. apply Hbad. lia.
Qed.

(** X17. [start_new_game] returns within the bound.  It always resets
    the moves, the score to 100 and the move limit to that of the mode,
    and changes nothing else but the two words and empty entries of the
    graph.  With fewer than two valid words it reports so and keeps the
    two words.  Otherwise the current word is the first pick, and
    either an attempt among the hundred picked a target that differs from
    it and can be reached from it in the graph (the first such pick
    becomes the target), or the method reports that there is no pair and
    leaves the last pick as the target. *)
Theorem start_new_game_outcome self first picks fuel :
  scan_fuel (word_graph (game_state self)) ≤ fuel →
  ∃ shown self',
    start_new_game fuel self first picks = Some (shown, self')
    ∧ in_play self'
    ∧ self' = Session (game_state self') [] 
                (mode_max_moves (game_mode (game_state self))) 100
                (multiplayer_mode self) (player_scores self) (current_player self)
    ∧ set_words (set_word_graph (game_state self')
                   (word_graph (game_state self)))
        (current_word (game_state self)) (target_word (game_state self))
      = game_state self
    ∧ only_empty_added (word_graph (game_state self))
        (word_graph (game_state self'))
    ∧ (size (dictionaries (game_state self) (game_mode (game_state self))
               ∖ banned_words (game_state self)) < 2 →
       shown = [NotEnoughValidWords] ∧ game_state self' = game_state self)
    ∧ (2 ≤ size (dictionaries (game_state self) (game_mode (game_state self))
                   ∖ banned_words (game_state self)) →
       current_word (game_state self') = first
       ∧ ((shown = [NoValidWordPair]
           ∧ target_word (game_state self') = picks 99
           ∧ ∀ k, k < 100 →
               picks k = first
               ∨ ¬ reachable (word_graph (game_state self)) first (picks k))
          ∨ (shown ≠ [NoValidWordPair]
             ∧ target_word (game_state self') ≠ first
             ∧ reachable (word_graph (game_state self)) first
                 (target_word (game_state self'))
             ∧ ∃ k, k < 100 ∧ target_word (game_state self') = picks k
                    ∧ ∀ j, j < k →
                        picks j = first
                        ∨ ¬ reachable (word_graph (game_state self)) first
                              (picks j)))).
Proof.
  intros Hfuel.
  destruct (start_new_game_run self first picks fuel Hfuel)
    as (shown & g' & c & t & Hrun & Hadd & Hfew & Hmany).
  eexists shown, _. split; [exact Hrun |]. cbn.
  split_and!.
  - split; simpl; [done |]. destruct (game_mode (game_state self)); simpl; lia.
  - done.
  - by destruct self as [[] ? ? ? ? ? ?].
  - done.
  - intros Hlt. destruct (Hfew Hlt) as (-> & -> & -> & ->).
    split; [done |]. by destruct self as [[] ? ? ? ? ? ?].
  - intros Hge. destruct (Hmany Hge) as [-> [(-> & -> & Hall)|(-> & Hne & Hr & Hk)]].
    + split; [done |]. by left.
    + split; [done |]. right. split_and!; [by case_bool_decide | done..].
Qed.

Lemma start_new_game_outcome_witness :
  scan_fuel (word_graph five_words_built) ≤ 30
  ∧ ∃ shown self',
      start_new_game 30 (Session five_words_built [] 0 0 false (λ _, 0%Z) Player1)
        (w "cat") (λ _, w "dot") = Some (shown, self')
      ∧ in_play self'.
Proof.
  assert (scan_fuel (word_graph five_words_built) ≤ 30) as Hfuel by by_compute.
  split; [exact Hfuel |].
  destruct (start_new_game_outcome
              (Session five_words_built [] 0 0 false (λ _, 0%Z) Player1)
              (w "cat") (λ _, w "dot") 30 Hfuel)
    as (shown & self' & Hrun & Hplay & _).
  exists shown, self'. split; [exact Hrun | exact Hplay].
Defined.

(** ** [make_move] *)

Lemma foldl_dd_get_only_empty_added ws g :
  only_empty_added g (foldl (λ wg word, (dd_get wg word).2) g ws).
Proof.
  revert g. induction ws as [|x ws IH]; intros g; simpl.
  - apply only_empty_added_refl.
  - eapply only_empty_added_trans; [apply dd_get_only_empty_added | apply IH].
Qed.

(** Drawing the graph changes the game by empty entries only. *)
Lemma update_graph_visualization_graph self :
  ∃ g', update_graph_visualization self
        = set_game self (set_word_graph (game_state self) g')
        ∧ only_empty_added (word_graph (game_state self)) g'.
Proof.
  unfold update_graph_visualization.
  destruct (bool_decide _ || bool_decide _).
  - exists (word_graph (game_state self)).
    split; [|apply only_empty_added_refl].
    rewrite set_word_graph_id. by destruct self.
  - eexists. split; [done |]. apply foldl_dd_get_only_empty_added.
Qed.

Lemma scan_fuel_only_empty_added g g' :
  only_empty_added g g' → scan_fuel g' = scan_fuel g.
Proof.
  intros Hadd. apply scan_fuel_adj. intros u. by apply only_empty_added_adj.
Qed.

Lemma reachable_only_empty_added g g' start goal :
  only_empty_added g g' → reachable g' start goal ↔ reachable g start goal.
Proof.
  intros Hadd. apply reachable_adj. intros u. by apply only_empty_added_adj.
Qed.

(** X18. [make_move] returns and never raises.  A move that
    [is_valid_move] rejects changes nothing.  After an accepted move the
    number of moves is below the move limit, and the score is 100 less
    5 per move if it was so before.  An accepted move that neither
    reaches the target nor uses up the moves is appended to the moves,
    becomes the current word and costs 5 points; one that reaches the
    target or uses up the moves starts a new game.  In multiplayer mode
    reaching the target adds the score left to the current player's
    total, and either end of a game passes the turn to the other
    player.  The graph only gains empty entries. *)
Theorem make_move_outcome self new_word first picks fuel :
  scan_fuel (word_graph (game_state self)) ≤ fuel →
  ∃ shown self',
    make_move fuel self new_word first picks = Some (Returns (shown, self'))
    ∧ only_empty_added (word_graph (game_state self))
        (word_graph (game_state self'))
    ∧ (is_valid_move (game_state self) new_word = Returns false →
       shown = [InvalidMove] ∧ self' = self)
    ∧ (is_valid_move (game_state self) new_word = Returns true →
       length (moves self') < max_moves self'
       ∧ (score self = (100 - 5 * Z.of_nat (length (moves self)))%Z →
          in_play self')
       ∧ (new_word ≠ target_word (game_state self) →
          S (length (moves self)) < max_moves self →
          shown = []
          ∧ self' = Session (set_word_graph
                               (set_words (game_state self) new_word
                                  (target_word (game_state self)))
                               (word_graph (game_state self')))
                      (moves self ++ [new_word]) (max_moves self)
                      (score self - 5) (multiplayer_mode self)
                      (player_scores self) (current_player self))
       ∧ (new_word = target_word (game_state self)
          ∨ max_moves self ≤ S (length (moves self)) →
          moves self' = [] ∧ score self' = 100%Z
          ∧ max_moves self' = mode_max_moves (game_mode (game_state self))
          ∧ multiplayer_mode self' = multiplayer_mode self
          ∧ (multiplayer_mode self = true →
             current_player self' = switch_player (current_player self))
          ∧ (multiplayer_mode self = false →
             current_player self' = current_player self
             ∧ player_scores self' = player_scores self))
       ∧ (new_word = target_word (game_state self) →
          if multiplayer_mode self then
            player_scores self' (current_player self)
            = (player_scores self (current_player self) + (score self - 5))%Z
            ∧ player_scores self' (switch_player (current_player self))
              = player_scores self (switch_player (current_player self))
          else head shown = Some (Congratulations (score self - 5)))
       ∧ (new_word ≠ target_word (game_state self) →
          max_moves self ≤ S (length (moves self)) →
          player_scores self' = player_scores self
          ∧ head shown
            = Some (if multiplayer_mode self
                    then TurnOver (switch_player (current_player self))
                    else MaximumMovesReached))).
Proof.
  intros Hfuel. unfold make_move.
  destruct (is_valid_move_returns (game_state self) new_word) as [b ->].
  destruct b.
  2:{ eexists _, _. split; [done |].
      split_and!; [apply only_empty_added_refl | done | done]. }
  set (moved := Session (set_words (game_state self) new_word
                           (target_word (game_state self)))
                  (moves self ++ [new_word]) (max_moves self) (score self - 5)
                  (multiplayer_mode self) (player_scores self)
                  (current_player self)).
  destruct (update_graph_visualization_graph moved) as (g1 & -> & Hadd1).
  subst moved.
  cbn [set_game set_word_graph set_words game_state moves max_moves score
       multiplayer_mode player_scores current_player dictionaries word_graph
       current_word target_word game_mode banned_words restricted_letters]
    in *.
  assert (scan_fuel g1 ≤ fuel) as Hfuel1.
  { by rewrite (scan_fuel_only_empty_added _ _ Hadd1). }
  rewrite length_app. cbn [length].
  case_bool_decide as Htarget.
  - destruct (multiplayer_mode self) eqn:Hmulti.
    + match goal with
      | |- context [start_new_game fuel ?s first picks] =>
          destruct (start_new_game_run s first picks fuel Hfuel1)
            as (shown & g' & c & t & Hrun & Hadd & _)
      end.
      cbn [set_game set_word_graph set_words game_state moves max_moves score
           multiplayer_mode player_scores current_player dictionaries word_graph
           current_word target_word game_mode banned_words restricted_letters]
        in *.
      rewrite Hrun. cbn [mbind option_bind fst snd].
      eexists _, _. split; [done |]. cbn.
      split_and!; [by eapply only_empty_added_trans | done |]. intros _.
      split_and!.
      * destruct (game_mode (game_state self)); simpl; lia.
      * intros _. split; simpl; [done |].
        destruct (game_mode (game_state self)); simpl; lia.
      * done.
      * intros _. by split_and!.
      * intros _. rewrite bool_decide_true by done. split; [done |].
        rewrite bool_decide_false; [done |].
        destruct (current_player self); vm_compute; congruence.
      * done.
    + match goal with
      | |- context [start_new_game fuel ?s first picks] =>
          destruct (start_new_game_run s first picks fuel Hfuel1)
            as (shown & g' & c & t & Hrun & Hadd & _)
      end.
      cbn [set_game set_word_graph set_words game_state moves max_moves score
           multiplayer_mode player_scores current_player dictionaries word_graph
           current_word target_word game_mode banned_words restricted_letters]
        in *.
      rewrite Hrun. cbn [mbind option_bind fst snd].
      eexists _, _. split; [done |]. cbn.
      split_and!; [by eapply only_empty_added_trans | done |]. intros _.
      split_and!.
      * destruct (game_mode (game_state self)); simpl; lia.
      * intros _. split; simpl; [done |].
        destruct (game_mode (game_state self)); simpl; lia.
      * done.
      * intros _. by split_and!.
      * done.
      * done.
  - case_bool_decide as Hmax.
    + destruct (multiplayer_mode self) eqn:Hmulti.
      * match goal with
        | |- context [start_new_game fuel ?s first picks] =>
            destruct (start_new_game_run s first picks fuel Hfuel1)
              as (shown & g' & c & t & Hrun & Hadd & _)
        end.
        cbn [set_game set_word_graph set_words game_state moves max_moves score
             multiplayer_mode player_scores current_player dictionaries
             word_graph current_word target_word game_mode banned_words
             restricted_letters] in *.
        rewrite Hrun. cbn [mbind option_bind fst snd].
        eexists _, _. split; [done |]. cbn.
        split_and!; [by eapply only_empty_added_trans | done |]. intros _.
        split_and!.
        -- destruct (game_mode (game_state self)); simpl; lia.
        -- intros _. split; simpl; [done |].
           destruct (game_mode (game_state self)); simpl; lia.
        -- intros _ ?. lia.
        -- intros _. by split_and!.
        -- done.
        -- done.
      * match goal with
        | |- context [start_new_game fuel ?s first picks] =>
            destruct (start_new_game_run s first picks fuel Hfuel1)
              as (shown & g' & c & t & Hrun & Hadd & _)
        end.
        cbn [set_game set_word_graph set_words game_state moves max_moves score
             multiplayer_mode player_scores current_player dictionaries
             word_graph current_word target_word game_mode banned_words
             restricted_letters] in *.
        rewrite Hrun. cbn [mbind option_bind fst snd].
        eexists _, _. split; [done |]. cbn.
        split_and!; [by eapply only_empty_added_trans | done |]. intros _.
        split_and!.
        -- destruct (game_mode (game_state self)); simpl; lia.
        -- intros _. split; simpl; [done |].
           destruct (game_mode (game_state self)); simpl; lia.
        -- intros _ ?. lia.
        -- intros _. by split_and!.
        -- done.
        -- done.
    + eexists _, _. split; [done |]. cbn.
      split_and!; [done | done |]. intros _.
      split_and!.
      * rewrite length_app. simpl. lia.
      * intros Hscore. split; simpl; rewrite length_app; simpl; lia.
      * done.
      * intros [?|?]; [done | lia].
      * done.
      * intros _ ?. lia.
Qed.

Lemma make_move_outcome_witness :
  scan_fuel (word_graph five_words_built) ≤ 30
  ∧ ∃ shown self',
      make_move 30
        (Session (set_words five_words_built (w "cat") (w "dot")) [] 10 100
           false (λ _, 0%Z) Player1)
        (w "hat") (w "cat") (λ _, w "dot") = Some (Returns (shown, self'))
      ∧ only_empty_added (word_graph five_words_built)
          (word_graph (game_state self')).
Proof.
  assert (scan_fuel (word_graph five_words_built) ≤ 30) as Hfuel by by_compute.
  split; [exact Hfuel |].
  destruct (make_move_outcome
              (Session (set_words five_words_built (w "cat") (w "dot")) [] 10 100
                 false (λ _, 0%Z) Player1)
              (w "hat") (w "cat") (λ _, w "dot") 30 Hfuel)
    as (shown & self' & Hrun & Hadd & _).
  exists shown, self'. split; [exact Hrun | exact Hadd].
Defined.

(** * Searches in a row: a bound that the searches do not raise *)

Lemma owed_mono X X' kl : X ⊆ X' → owed X' kl ≤ owed X kl.
Proof. intros HX. unfold owed. repeat case_decide; try lia. set_solver. Qed.

Lemma work_dd_get g k X :
  k ∉ X →
  work (dd_get g k).2 (X ∪ {[k]}) + length (dd_get g k).1 ≤ work g X.
Proof.
  intros Hk. unfold work, dd_get. destruct (g !! k) as [l|] eqn:Hg; simpl.
  - rewrite <- (map_to_list_delete g k l Hg). simpl.
    unfold owed at 1. simpl. rewrite decide_True by set_solver.
    unfold owed at 2. simpl. rewrite decide_False by done.
    pose proof (sum_list_with_mono (owed (X ∪ {[k]})) (owed X)
      (map_to_list (delete k g))) as Hle.
    specialize (Hle (λ kl, owed_mono X (X ∪ {[k]}) kl ltac:(set_solver))). lia.
  - rewrite (map_to_list_insert g k [] Hg). simpl.
    unfold owed at 1. simpl. rewrite decide_True by set_solver.
    pose proof (sum_list_with_mono (owed (X ∪ {[k]})) (owed X)
      (map_to_list g)) as Hle.
    specialize (Hle (λ kl, owed_mono X (X ∪ {[k]}) kl ltac:(set_solver))). lia.
Qed.

Lemma a_star_body_work goal st st' :
  a_star_body goal st = Continue st' → heap_work st' < heap_work st.
Proof.
  destruct st as [[g fr] X]. unfold a_star_body, heap_work. simpl.
  destruct (heappop astar_ltb fr) as [[[[[f c] x] p] rest]|] eqn:Hpop; [|done].
  apply heappop_perm, Permutation_length in Hpop. simpl in Hpop.
  case_bool_decide; [done |]. case_bool_decide as HX.
  - intros [= <-]. simpl. lia.
  - pose proof (work_dd_get g x X HX) as Hwork.
    pose proof (dd_get_fst g x) as Hfst.
    destruct (dd_get g x) as [nexts g'] eqn:Hget. simpl in *.
    intros [= <-]. simpl.
    pose proof (length_a_star_visits goal c p (X ∪ {[x]}) nexts rest). lia.
Qed.

Lemma ucs_body_work goal st st' :
  ucs_body goal st = Continue st' → heap_work st' < heap_work st.
Proof.
  destruct st as [[g fr] X]. unfold ucs_body, heap_work. simpl.
  destruct (heappop ucs_ltb fr) as [[[[c x] p] rest]|] eqn:Hpop; [|done].
  apply heappop_perm, Permutation_length in Hpop. simpl in Hpop.
  case_bool_decide; [done |]. case_bool_decide as HX.
  - intros [= <-]. simpl. lia.
  - pose proof (work_dd_get g x X HX) as Hwork.
    pose proof (dd_get_fst g x) as Hfst.
    destruct (dd_get g x) as [nexts g'] eqn:Hget. simpl in *.
    intros [= <-]. simpl.
    pose proof (length_ucs_visits c p (X ∪ {[x]}) nexts rest). lia.
Qed.

(** Empty lists under new keys add no work. *)
Lemma work_only_empty_added g g' X :
  only_empty_added g g' → work g' X = work g X.
Proof.
  revert g. induction g' as [|k l m Hk IH] using map_ind; intros g Hadd.
  - assert (g = ∅) as ->; [|done]. apply map_empty. intros i.
    destruct (Hadd i) as [H|[H _]]; [|done]. by rewrite lookup_empty in H.
  - unfold work. rewrite (map_to_list_insert m k l Hk). simpl.
    destruct (g !! k) as [l0|] eqn:Hg.
    + assert (l0 = l) as ->.
      { destruct (Hadd k) as [H|[H _]]; [|congruence].
        rewrite lookup_insert_eq in H. congruence. }
      rewrite <- (map_to_list_delete g k l Hg). simpl. f_equal.
      apply IH. intros i. destruct (decide (i = k)) as [->|Hne].
      * left. by rewrite lookup_delete_eq.
      * rewrite lookup_delete_ne by done. specialize (Hadd i).
        by rewrite lookup_insert_ne in Hadd.
    + assert (l = []) as ->.
      { destruct (Hadd k) as [H|[_ H]]; rewrite lookup_insert_eq in H; congruence. }
      unfold owed at 1. simpl. replace (if decide (k ∈ X) then 0 else 0) with 0
        by by case_decide.
      simpl. apply IH. intros i. destruct (decide (i = k)) as [->|Hne].
      * left. congruence.
      * specialize (Hadd i). by rewrite lookup_insert_ne in Hadd.
Qed.

Lemma stable_fuel_only_empty_added g g' :
  only_empty_added g g' → stable_fuel g' = stable_fuel g.
Proof.
  intros Hadd. unfold stable_fuel.
  rewrite (work_only_empty_added g g') by done.
  rewrite (targets_adj g g'); [done |].
  intros u. by apply only_empty_added_adj.
Qed.

Lemma work_le_pot g X : work g X ≤ pot g X.
Proof.
  apply sum_list_with_mono. intros kl. unfold owed, pending. case_decide; lia.
Qed.

Lemma stable_fuel_le g : stable_fuel g ≤ search_fuel g.
Proof. unfold stable_fuel, search_fuel. pose proof (work_le_pot g ∅). lia. Qed.

(** Each search within [stable_fuel] iterations. *)
Lemma a_star_search_stable self fuel :
  stable_fuel (word_graph self) ≤ fuel →
  ∃ r self', a_star_search fuel self = Some (r, self')
    ∧ sound (word_graph self) (current_word self) (target_word self) r
    ∧ (r = None →
       ¬ reachable (word_graph self) (current_word self) (target_word self))
    ∧ keeps_entries self self'
    ∧ ((∀ u v, v ∈ adj (word_graph self) u →
          heuristic (target_word self) u ≤ S (heuristic (target_word self) v)) →
       shortest (word_graph self) (current_word self) (target_word self) r).
Proof.
  intros Hfuel.
  destruct (while_loop_terminates (a_star_body (target_word self)) heap_work
              (a_star_body_work (target_word self)) fuel (a_star_init self))
    as [[r g'] Hrun].
  { unfold heap_work, a_star_init, stable_fuel in *. simpl. lia. }
  set (fuel' := fuel `max` search_fuel (word_graph self)).
  pose proof (while_loop_mono _ fuel fuel' _ _ Hrun ltac:(lia)) as Hrun'.
  destruct (a_star_search_run self fuel' ltac:(lia))
    as (r' & self' & Hs' & Hsound & Hkeep & Hopt).
  assert (a_star_search fuel self = Some (r', self')) as Hs.
  { revert Hs'. unfold a_star_search. by rewrite Hrun, Hrun'. }
  exists r', self'. split_and!; [done.. | | done | done].
  intros ->. by eapply a_star_search_none.
Qed.

Lemma uniform_cost_search_stable self fuel :
  stable_fuel (word_graph self) ≤ fuel →
  ∃ r self', uniform_cost_search fuel self = Some (r, self')
    ∧ shortest (word_graph self) (current_word self) (target_word self) r
    ∧ keeps_entries self self'.
Proof.
  intros Hfuel.
  destruct (while_loop_terminates (ucs_body (target_word self)) heap_work
              (ucs_body_work (target_word self)) fuel (ucs_init self))
    as [[r g'] Hrun].
  { unfold heap_work, ucs_init, stable_fuel in *. simpl. lia. }
  set (fuel' := fuel `max` search_fuel (word_graph self)).
  pose proof (while_loop_mono _ fuel fuel' _ _ Hrun ltac:(lia)) as Hrun'.
  destruct (uniform_cost_search_run self fuel' ltac:(lia))
    as (r' & self' & Hs' & Hshort & Hkeep).
  assert (uniform_cost_search fuel self = Some (r', self')) as Hs.
  { revert Hs'. unfold uniform_cost_search. by rewrite Hrun, Hrun'. }
  by exists r', self'.
Qed.

Lemma breadth_first_search_stable self fuel :
  stable_fuel (word_graph self) ≤ fuel →
  ∃ r self', breadth_first_search fuel self = Some (r, self')
    ∧ shortest (word_graph self) (current_word self) (target_word self) r
    ∧ keeps_entries self self'.
Proof.
  intros Hfuel.
  destruct (while_loop_terminates (bfs_body (target_word self)) queue_measure
              (bfs_body_measure (target_word self)) fuel (bfs_init self))
    as [[r g'] Hrun].
  { unfold queue_measure, bfs_init, stable_fuel in *. simpl.
    pose proof (subseteq_size
                  (targets (word_graph self) ∖ {[current_word self]})
                  (targets (word_graph self)) ltac:(set_solver)). lia. }
  set (fuel' := fuel `max` search_fuel (word_graph self)).
  pose proof (while_loop_mono _ fuel fuel' _ _ Hrun ltac:(lia)) as Hrun'.
  destruct (breadth_first_search_run self fuel' ltac:(lia))
    as (r' & self' & Hs' & Hshort & Hkeep).
  assert (breadth_first_search fuel self = Some (r', self')) as Hs.
  { revert Hs'. unfold breadth_first_search. by rewrite Hrun, Hrun'. }
  by exists r', self'.
Qed.

(** ** [show_algorithm_comparison] *)

Lemma path_to_adj g g' start x p :
  (∀ u, adj g' u = adj g u) → path_to g' start x p → path_to g start x p.
Proof.
  intros Hadj. induction 1 as [|x y p _ IH Hy]; [constructor |].
  econstructor; [done |]. by rewrite <- Hadj.
Qed.

Lemma shortest_adj g g' start goal r :
  (∀ u, adj g' u = adj g u) → shortest g' start goal r → shortest g start goal r.
Proof.
  intros Hadj. destruct r as [[c p]|]; simpl.
  - intros (Hp & Hlen & Hmin). split_and!; [by eapply path_to_adj | done |].
    intros n Hw. apply Hmin. eapply walk_adj; [|done]. intros u. by rewrite Hadj.
  - by rewrite (reachable_adj g g').
Qed.

Lemma comparison_entry_path g start goal name c p :
  path_to g start goal p →
  comparison_entry name (Some (c, p)) = [(name, (c, length p, p))].
Proof.
  intros Hp. unfold comparison_entry. rewrite bool_decide_true; [done |].
  apply path_to_head in Hp. by destruct p.
Qed.

(** X19. [show_algorithm_comparison] runs A*, UCS and BFS one after the
    other on the same query, each on the graph the one before left.  Its
    results are empty exactly when the target cannot be reached;
    otherwise they hold the three algorithms in that order, each with a
    path along entries of the graph whose length is its cost plus one.
    UCS and BFS show the same cost, the least possible; the cost A*
    shows is not below it, and equals it when the heuristic is
    consistent on the graph, as it is on a built graph. *)
Theorem show_algorithm_comparison_results self fuel :
  stable_fuel (word_graph self) ≤ fuel →
  ∃ results self',
    show_algorithm_comparison fuel self = Some (results, self')
    ∧ keeps_entries self self'
    ∧ (results = [] ↔
       ¬ reachable (word_graph self) (current_word self) (target_word self))
    ∧ (reachable (word_graph self) (current_word self) (target_word self) →
       ∃ ca pa c pu pb,
         results = [("A*"%string, (ca, length pa, pa));
                    ("UCS"%string, (c, length pu, pu));
                    ("BFS"%string, (c, length pb, pb))]
         ∧ path_to (word_graph self) (current_word self) (target_word self) pa
         ∧ path_to (word_graph self) (current_word self) (target_word self) pu
         ∧ path_to (word_graph self) (current_word self) (target_word self) pb
         ∧ length pa = S ca ∧ length pu = S c ∧ length pb = S c
         ∧ c ≤ ca
         ∧ (∀ n, walk (word_graph self) (current_word self) (target_word self) n →
              c ≤ n)
         ∧ ((∀ u v, v ∈ adj (word_graph self) u →
               heuristic (target_word self) u
               ≤ S (heuristic (target_word self) v)) →
            ca = c)).
Proof.
  intros Hfuel. unfold show_algorithm_comparison.
  destruct (a_star_search_stable self fuel Hfuel)
    as (ra & s1 & -> & Hsa & Hna & Hk1 & Hopt). cbn [mbind option_bind fst snd].
  pose proof Hk1 as (Hs1 & Hadd1 & Hadj1).
  assert (stable_fuel (word_graph s1) ≤ fuel) as Hfuel1.
  { by rewrite (stable_fuel_only_empty_added _ _ Hadd1). }
  destruct (uniform_cost_search_stable s1 fuel Hfuel1)
    as (ru & s2 & -> & Hsu & Hk2). cbn [mbind option_bind fst snd].
  pose proof Hk2 as (Hs2 & Hadd2 & Hadj2).
  assert (stable_fuel (word_graph s2) ≤ fuel) as Hfuel2.
  { by rewrite (stable_fuel_only_empty_added _ _ Hadd2). }
  destruct (breadth_first_search_stable s2 fuel Hfuel2)
    as (rb & s3 & -> & Hsb & Hk3). cbn [mbind option_bind fst snd].
  pose proof Hk3 as (Hs3 & Hadd3 & Hadj3).
  assert (current_word s1 = current_word self
          ∧ target_word s1 = target_word self) as [Hc1 Ht1] by by rewrite Hs1.
  assert (current_word s2 = current_word self
          ∧ target_word s2 = target_word self) as [Hc2 Ht2].
  { rewrite Hs2. simpl. done. }
  rewrite Hc1, Ht1 in Hsu. rewrite Hc2, Ht2 in Hsb.
  apply (shortest_adj (word_graph self)) in Hsu; [|done].
  apply (shortest_adj (word_graph self)) in Hsb;
    [|by intros u; rewrite Hadj2, Hadj1].
  exists (comparison_entry "A*" ra ++ comparison_entry "UCS" ru
            ++ comparison_entry "BFS" rb), s3.
  split; [done |]. split.
  { split_and!.
    - rewrite Hs3, Hs2, Hs1 at 1. done.
    - by do 2 (eapply only_empty_added_trans; [|done]).
    - intros u. by rewrite Hadj3, Hadj2, Hadj1. }
  destruct (decide (ra = None)) as [->|Hra].
  - pose proof (Hna eq_refl) as Hnr.
    rewrite (sound_unreachable _ _ _ _ (shortest_sound _ _ _ _ Hsu) Hnr).
    rewrite (sound_unreachable _ _ _ _ (shortest_sound _ _ _ _ Hsb) Hnr).
    simpl. split; [done |]. by intros Hr.
  - destruct ra as [[ca pa]|]; [|done].
    destruct (Hsa ca pa eq_refl) as [Hpa Hla].
    destruct (path_to_walk _ _ _ _ Hpa) as (n & Hn & Hwa).
    assert (n = ca) as -> by lia.
    assert (reachable (word_graph self) (current_word self) (target_word self))
      as Hreach by by exists ca.
    destruct ru as [[cu pu]|]; [|by destruct Hsu].
    destruct rb as [[cb pb]|]; [|by destruct Hsb].
    destruct Hsu as (Hpu & Hlu & Hmu), Hsb as (Hpb & Hlb & Hmb).
    rewrite (comparison_entry_path _ _ _ _ _ _ Hpa).
    rewrite (comparison_entry_path _ _ _ _ _ _ Hpu).
    rewrite (comparison_entry_path _ _ _ _ _ _ Hpb). simpl.
    assert (cb = cu) as ->.
    { destruct (path_to_walk _ _ _ _ Hpu) as (nu & ? & Hwu).
      destruct (path_to_walk _ _ _ _ Hpb) as (nb & ? & Hwb).
      specialize (Hmu nb Hwb). specialize (Hmb nu Hwu). lia. }
    split; [split; [done | by intros Hnr] |]. intros _.
    exists ca, pa, cu, pu, pb. split_and!; [done.. | by apply Hmu | done |].
    intros Hcons. destruct (Hopt Hcons) as (_ & _ & Hma).
    destruct (path_to_walk _ _ _ _ Hpu) as (nu & ? & Hwu).
    specialize (Hma nu Hwu). specialize (Hmu ca Hwa). lia.
Qed.

Lemma show_algorithm_comparison_results_witness :
  stable_fuel (word_graph five_words_built) ≤ 30
  ∧ ∃ results self',
      show_algorithm_comparison 30
        (set_words five_words_built (w "cat") (w "dot")) = Some (results, self')
      ∧ (results = [] ↔
         ¬ reachable (word_graph five_words_built) (w "cat") (w "dot")).
Proof.
  assert (stable_fuel (word_graph five_words_built) ≤ 30) as Hfuel by by_compute.
  split; [exact Hfuel |].
  destruct (show_algorithm_comparison_results
              (set_words five_words_built (w "cat") (w "dot")) 30 Hfuel)
    as (results & self' & Hrun & _ & Hiff & _).
  exists results, self'. split; [exact Hrun | exact Hiff].
Defined.

(** * Returned paths visit no word twice *)

Lemma path_to_prefix g start x p1 p2 :
  ∀ goal, path_to g start goal (p1 ++ x :: p2) → path_to g start x (p1 ++ [x]).
Proof.
  induction p2 as [|y q IH] using rev_ind; intros goal Hp.
  - pose proof (path_to_last _ _ _ _ Hp) as Hlast.
    rewrite last_snoc in Hlast. by simplify_eq.
  - inversion Hp as [Heq|x' y' p Hp' Hy' Hgoal Heq].
    + destruct p1 as [|? [|? ?]], q; simplify_eq/=.
    + assert (p1 ++ x :: q ++ [y] = (p1 ++ x :: q) ++ [y]) as Hre
        by by rewrite <- app_assoc.
      rewrite Hre in Heq. apply app_inj_tail in Heq as [-> _]. eauto.
Qed.

Lemma shortest_NoDup g start goal p :
  path_to g start goal p →
  ∀ c, length p = S c → (∀ n, walk g start goal n → c ≤ n) → NoDup p.
Proof.
  induction 1 as [|x y p Hp IH Hy]; intros c Hlen Hmin.
  - apply NoDup_singleton.
  - rewrite length_app in Hlen. simpl in Hlen.
    destruct (path_to_walk _ _ _ _ Hp) as (m & Hm & Hw).
    apply NoDup_app. split_and!.
    + apply (IH m Hm). intros n Hn.
      specialize (Hmin (S n) (walk_S g start x y n Hn Hy)). lia.
    + intros z Hz ->%list_elem_of_singleton.
      apply list_elem_of_split in Hz as (l1 & l2 & ->).
      apply path_to_prefix in Hp.
      destruct (path_to_walk _ _ _ _ Hp) as (n & Hn & Hwn).
      specialize (Hmin n Hwn).
      rewrite !length_app in *. simpl in *. lia.
    + apply NoDup_singleton.
Qed.

Lemma a_star_body_fresh goal st st' :
  astar_fresh st → a_star_body goal st = Continue st' → astar_fresh st'.
Proof.
  destruct st as [[g fr] X]. intros Hfr. unfold astar_fresh in *. simpl in *.
  unfold a_star_body.
  destruct (heappop astar_ltb fr) as [[[[[f c] x] p] rest]|] eqn:Hpop; [|done].
  apply heappop_perm in Hpop.
  assert (∀ e, e ∈ rest → e ∈ fr) as Hrest by (intros e; rewrite Hpop; set_solver).
  destruct (Hfr f c x p ltac:(rewrite Hpop; set_solver)) as (Hnd & Hlast & Hin).
  case_bool_decide; [done |]. case_bool_decide.
  - intros [= <-]. simpl. by eauto.
  - destruct (dd_get g x) as [nexts g'] eqn:Hget. intros [= <-]. simpl.
    intros f' c' y p' [Hold|(z & Hz & Hnew & [= -> -> -> ->])]%elem_of_a_star_visits.
    + destruct (Hfr f' c' y p' (Hrest _ Hold)) as (? & ? & Hin').
      split_and!; [done.. |]. intros z Hz.
      destruct (Hin' z Hz); [by left | right; set_solver].
    + split_and!.
      * apply NoDup_app. split_and!; [done | | apply NoDup_singleton].
        intros a Ha ->%list_elem_of_singleton.
        destruct (Hin _ Ha); set_solver.
      * by rewrite last_snoc.
      * intros a [Ha|Ha%list_elem_of_singleton]%elem_of_app; [|by left].
        right. destruct (Hin _ Ha); set_solver.
Qed.

Lemma a_star_body_fresh_ret goal st c p g' :
  astar_fresh st → a_star_body goal st = Return (Some (c, p), g') → NoDup p.
Proof.
  destruct st as [[g fr] X]. intros Hfr. unfold astar_fresh in *. simpl in *.
  unfold a_star_body.
  destruct (heappop astar_ltb fr) as [[[[[f c0] x] p0] rest]|] eqn:Hpop; [|done].
  apply heappop_perm in Hpop.
  destruct (Hfr f c0 x p0 ltac:(rewrite Hpop; set_solver)) as (Hnd & _).
  case_bool_decide; [by intros [= <- <- _] |].
  case_bool_decide; [done |]. by destruct (dd_get g x).
Qed.

Lemma a_star_search_NoDup self fuel c p self' :
  a_star_search fuel self = Some (Some (c, p), self') → NoDup p.
Proof.
  unfold a_star_search.
  destruct (while_loop _ _ _) as [[r g']|] eqn:Hrun; [|done].
  intros [= -> _].
  refine (while_loop_post (a_star_body (target_word self)) astar_fresh
            (λ rg, ∀ c p, rg.1 = Some (c, p) → NoDup p) _ _
            fuel _ (Some (c, p), g') _ Hrun c p eq_refl).
  - intros s s'. apply a_star_body_fresh.
  - intros s [r g''] Hs Hb c' p' Hr. simpl in Hr. subst r.
    by eapply a_star_body_fresh_ret.
  - unfold astar_fresh, a_star_init. simpl.
    intros f c' x p' [= -> -> -> ->]%list_elem_of_singleton.
    split_and!; [apply NoDup_singleton | done |].
    intros z ->%list_elem_of_singleton. by left.
Qed.

(** X20. No search returns a path that holds a word twice, on any
    graph: a shortest path cannot, and every path [a_star_search] keeps
    in its frontier is extended by words not yet explored only. *)
Theorem returned_path_no_repeat self fuel :
  search_fuel (word_graph self) ≤ fuel →
  ∃ rb sb ru su ra sa,
    breadth_first_search fuel self = Some (rb, sb)
    ∧ uniform_cost_search fuel self = Some (ru, su)
    ∧ a_star_search fuel self = Some (ra, sa)
    ∧ (∀ c p, rb = Some (c, p) → NoDup p)
    ∧ (∀ c p, ru = Some (c, p) → NoDup p)
    ∧ (∀ c p, ra = Some (c, p) → NoDup p).
Proof.
  intros Hfuel.
  destruct (breadth_first_search_run self fuel Hfuel) as (rb & sb & Hb & Hsb & _).
  destruct (uniform_cost_search_run self fuel Hfuel) as (ru & su & Hu & Hsu & _).
  destruct (a_star_search_run self fuel Hfuel) as (ra & sa & Ha & _).
  exists rb, sb, ru, su, ra, sa. split_and!; [done.. | | |].
  - intros c p ->. destruct Hsb as (Hp & Hlen & Hmin). by eapply shortest_NoDup.
  - intros c p ->. destruct Hsu as (Hp & Hlen & Hmin). by eapply shortest_NoDup.
  - intros c p ->. by eapply a_star_search_NoDup.
Qed.

Lemma returned_path_no_repeat_witness :
  search_fuel (word_graph five_words_built) ≤ 30
  ∧ ∃ rb sb ru su ra sa,
      breadth_first_search 30 (set_words five_words_built (w "cat") (w "dot"))
      = Some (rb, sb)
      ∧ uniform_cost_search 30 (set_words five_words_built (w "cat") (w "dot"))
        = Some (ru, su)
      ∧ a_star_search 30 (set_words five_words_built (w "cat") (w "dot"))
        = Some (ra, sa)
      ∧ (∀ c p, rb = Some (c, p) → NoDup p)
      ∧ (∀ c p, ru = Some (c, p) → NoDup p)
      ∧ (∀ c p, ra = Some (c, p) → NoDup p).
Proof.
  assert (search_fuel (word_graph five_words_built) ≤ 30) as Hfuel by by_compute.
  split; [exact Hfuel |].
  exact (returned_path_no_repeat
           (set_words five_words_built (w "cat") (w "dot")) 30 Hfuel).
Defined.

(** ** [update_graph_visualization] *)

Lemma foldl_dd_get_lookup ws g k :
  foldl (λ wg word, (dd_get wg word).2) g ws !! k
  = match g !! k with
    | Some l => Some l
    | None => if decide (k ∈ ws) then Some [] else None
    end.
Proof.
  revert g. induction ws as [|x ws IH]; intros g; simpl.
  - by destruct (g !! k).
  - rewrite IH. unfold dd_get. destruct (g !! x) as [l|] eqn:Hx; simpl.
    + destruct (g !! k) eqn:Hk; [done |].
      destruct (decide (k = x)) as [->|Hne]; [congruence |].
      destruct (decide (k ∈ ws)).
      * by rewrite decide_True by set_solver.
      * by rewrite decide_False by set_solver.
    + destruct (decide (k = x)) as [->|Hne].
      * rewrite lookup_insert_eq, Hx. by rewrite decide_True by set_solver.
      * rewrite lookup_insert_ne by done. destruct (g !! k); [done |].
        destruct (decide (k ∈ ws)).
        -- by rewrite decide_True by set_solver.
        -- by rewrite decide_False by set_solver.
Qed.

(** X21. Drawing the graph is not read-only: unless the current or the
    target word is empty, [update_graph_visualization] leaves every
    word it shows - the current word, the target and the moves made -
    as a key of the graph, with an empty list where the word was not a
    key; the entries that were there stay as they are and nothing else
    of the game changes.  With an empty current or target word it
    changes nothing. *)
Theorem update_graph_visualization_keys self :
  (current_word (game_state self) = [] ∨ target_word (game_state self) = [] →
   update_graph_visualization self = self)
  ∧ (current_word (game_state self) ≠ [] →
     target_word (game_state self) ≠ [] →
     ∃ g',
       update_graph_visualization self
       = set_game self (set_word_graph (game_state self) g')
       ∧ only_empty_added (word_graph (game_state self)) g'
       ∧ ∀ k, g' !! k
              = match word_graph (game_state self) !! k with
                | Some l => Some l
                | None =>
                    if decide (k ∈ [current_word (game_state self);
                                    target_word (game_state self)]
                                   ++ moves self)
                    then Some [] else None
                end).
Proof.
  unfold update_graph_visualization. split.
  - intros [->| ->]; [done |]. by rewrite orb_true_r.
  - intros Hc Ht. rewrite !bool_decide_false by done. cbn [orb].
    eexists. split; [done |]. split; [apply foldl_dd_get_only_empty_added |].
    intros k. rewrite foldl_dd_get_lookup.
    destruct (word_graph (game_state self) !! k); [done |].
    destruct (decide (k ∈ elements _)) as [Hin|Hout].
    + apply elem_of_elements, elem_of_list_to_set in Hin.
      by rewrite decide_True.
    + rewrite decide_False; [done |]. intros Hin. apply Hout.
      by apply elem_of_elements, elem_of_list_to_set.
Qed.

Lemma update_graph_visualization_keys_witness :
  current_word cat_bat_bath ≠ []
  ∧ target_word cat_bat_bath ≠ []
  ∧ ∃ g',
      update_graph_visualization
        (Session cat_bat_bath [] 10 100 false (λ _, 0%Z) Player1)
      = set_game (Session cat_bat_bath [] 10 100 false (λ _, 0%Z) Player1)
          (set_word_graph cat_bat_bath g')
      ∧ only_empty_added (word_graph cat_bat_bath) g'.
Proof.
  assert (current_word cat_bat_bath ≠ []) as Hc by by_compute.
  assert (target_word cat_bat_bath ≠ []) as Ht by by_compute.
  split_and!; [exact Hc | exact Ht |].
  destruct (proj2 (update_graph_visualization_keys
                     (Session cat_bat_bath [] 10 100 false (λ _, 0%Z) Player1))
              Hc Ht) as (g' & Hrun & Hadd & _).
  exists g'. split; [exact Hrun | exact Hadd].
Defined.

(** * A started game can be played *)

Lemma get_hint_stable self fuel algorithm :
  stable_fuel (word_graph self) ≤ fuel →
  algorithm ∈ ["A*"; "UCS"; "BFS"]%string →
  ∃ r self',
    get_hint fuel self algorithm = Some (Returns (second_word (snd <$> r)), self')
    ∧ keeps_entries self self'
    ∧ sound (word_graph self) (current_word self) (target_word self) r
    ∧ (current_word self = target_word self → r = Some (0, [current_word self]))
    ∧ (r = None →
       ¬ reachable (word_graph self) (current_word self) (target_word self)).
Proof.
  intros Hfuel Halg. unfold get_hint.
  assert (0 < fuel) as Hpos by (unfold stable_fuel in Hfuel; lia).
  repeat apply elem_of_cons in Halg as [->|Halg]; [| | |by apply elem_of_nil in Halg].
  - rewrite bool_decide_true by done.
    destruct (a_star_search_stable self fuel Hfuel)
      as (r & self' & Hrun & Hs & Hnone & Hk & _).
    exists r, self'. rewrite Hrun. split_and!; [done.. | | done].
    intros Heq. by eapply a_star_search_same.
  - rewrite bool_decide_false, bool_decide_true by done.
    destruct (uniform_cost_search_stable self fuel Hfuel)
      as (r & self' & Hrun & Hs & Hk).
    exists r, self'. rewrite Hrun.
    split_and!; [done | done | by apply shortest_sound | | by intros ->].
    intros Heq. rewrite <- Heq in Hs. by apply shortest_same_word in Hs.
  - rewrite !bool_decide_false, bool_decide_true by done.
    destruct (breadth_first_search_stable self fuel Hfuel)
      as (r & self' & Hrun & Hs & Hk).
    exists r, self'. rewrite Hrun.
    split_and!; [done | done | by apply shortest_sound | | by intros ->].
    intros Heq. rewrite <- Heq in Hs. by apply shortest_same_word in Hs.
Qed.

(** X22. A game started on a graph just built can be played: when
    [start_new_game] shows neither of its two errors, [get_hint] with
    any of the three algorithms returns a word, not [None], and
    [is_valid_move] accepts that word as the next move unless it is in
    the banned set, which cannot happen in Challenge mode. *)
Theorem new_game_is_playable self rnd_words rnd_letters built s first picks
    fuel algorithm :
  build_word_graph self rnd_words rnd_letters = Ret built →
  game_state s = built →
  stable_fuel (word_graph built) ≤ fuel →
  algorithm ∈ ["A*"; "UCS"; "BFS"]%string →
  ∃ shown s',
    start_new_game fuel s first picks = Some (shown, s')
    ∧ (shown ≠ [NotEnoughValidWords] → shown ≠ [NoValidWordPair] →
       ∃ h self',
         get_hint fuel (game_state s') algorithm
         = Some (Returns (Some h), self')
         ∧ h ∈ adj (word_graph built) (current_word (game_state s'))
         ∧ (game_mode built = Challenge → h ∉ banned_words built)
         ∧ (h ∉ banned_words built → is_valid_move self' h = Returns true)).
Proof.
  intros Hb <- Hfuel Halg.
  assert (scan_fuel (word_graph (game_state s)) ≤ fuel) as Hscan.
  { unfold scan_fuel, stable_fuel in *. lia. }
  destruct (start_new_game_run s first picks fuel Hscan)
    as (shown & g' & c & t & Hrun & Hadd & Hfew & Hmany).
  eexists shown, _. split; [exact Hrun |]. cbn [game_state].
  intros Hne1 Hne2.
  destruct (decide (size (dictionaries (game_state s) (game_mode (game_state s))
                            ∖ banned_words (game_state s)) < 2)) as [Hlt|Hge].
  { by destruct (Hfew Hlt) as (? & _). }
  destruct (Hmany ltac:(lia)) as [-> [(? & _)|(_ & Hneq & Hreach & _)]]; [done |].
  set (g := Game (dictionaries (game_state s)) g' first t
              (game_mode (game_state s)) (banned_words (game_state s))
              (restricted_letters (game_state s))).
  assert (∀ u, adj g' u = adj (word_graph (game_state s)) u) as Hadj.
  { intros u. by apply only_empty_added_adj. }
  assert (stable_fuel (word_graph g) ≤ fuel) as Hfuel'.
  { simpl. by rewrite (stable_fuel_only_empty_added _ _ Hadd). }
  destruct (get_hint_stable g fuel algorithm Hfuel' Halg)
    as (r & self' & Hhint & Hk & Hs & Hsame & Hnone).
  destruct (hint_of_result _ _ _ r Hs Hsame Hnone) as [Hn Hsome].
  simpl in Hn, Hsome.
  destruct (second_word (snd <$> r)) as [h|] eqn:Hh.
  2:{ destruct (proj1 Hn eq_refl) as [?|Hnr]; [done |].
      destruct Hnr. by apply (reachable_adj _ _ _ _ Hadj). }
  destruct (Hsome h eq_refl) as (c & p & n & _ & _ & Hin & _).
  rewrite Hadj in Hin.
  exists h, self'. split_and!; [done | done | |].
  - intros Hm.
    apply (build_word_graph_adj _ _ _ _ _ _ Hb) in Hin
      as (_ & i & a & _ & _ & _ & _ & Heff & _).
    unfold effective_words in Heff. rewrite bool_decide_true in Heff by done.
    set_solver.
  - intros Hban. destruct Hk as (Hk & _). rewrite Hk.
    rewrite is_valid_move_set_word_graph.
    change g with (set_word_graph (set_words (game_state s) first t) g').
    rewrite is_valid_move_set_word_graph. by eapply adj_valid_move.
Qed.

Lemma new_game_is_playable_witness :
  build_word_graph five_words [] [] = Ret five_words_built
  ∧ stable_fuel (word_graph five_words_built) ≤ 30
  ∧ "BFS"%string ∈ ["A*"; "UCS"; "BFS"]%string
  ∧ ∃ shown s',
      start_new_game 30
        (Session five_words_built [] 0 0 false (λ _, 0%Z) Player1)
        (w "cat") (λ _, w "dot") = Some (shown, s')
      ∧ (shown ≠ [NotEnoughValidWords] → shown ≠ [NoValidWordPair] →
         ∃ h self',
           get_hint 30 (game_state s') "BFS" = Some (Returns (Some h), self')
           ∧ h ∈ adj (word_graph five_words_built) (current_word (game_state s'))
           ∧ (game_mode five_words_built = Challenge →
              h ∉ banned_words five_words_built)
           ∧ (h ∉ banned_words five_words_built →
              is_valid_move self' h = Returns true)).
Proof.
  assert (build_word_graph five_words [] [] = Ret five_words_built) as Hb
    by by_return.
  assert (stable_fuel (word_graph five_words_built) ≤ 30) as Hfuel by by_compute.
  assert ("BFS"%string ∈ ["A*"; "UCS"; "BFS"]%string) as Halg by by_compute.
  split_and!; [exact Hb | exact Hfuel | exact Halg |].
  exact (new_game_is_playable five_words [] [] five_words_built
           (Session five_words_built [] 0 0 false (λ _, 0%Z) Player1)
           (w "cat") (λ _, w "dot") 30 "BFS" Hb eq_refl Hfuel Halg).
Defined.

(** ** [change_game_mode] *)

Lemma build_word_graph_Raise self rw rl :
  build_word_graph self rw rl = Raise ValueError
  ↔ game_mode self = Challenge ∧ size (dictionaries self Challenge) < 5.
Proof.
  unfold build_word_graph, random_sample. case_bool_decide as Hm.
  - rewrite Hm. change (length (elements ?X)) with (size X).
    destruct (Nat.ltb_spec (size (dictionaries self Challenge)) 5) as [Hlt|Hge];
      cbn; [naive_solver |]. split; [done | lia].
  - split; [done | naive_solver].
Qed.

Lemma build_word_graph_banned self rw rl built :
  build_word_graph self rw rl = Ret built →
  game_mode self = Challenge → banned_words built = list_to_set rw.
Proof.
  unfold build_word_graph, random_sample. intros Hb Hm. revert Hb.
  rewrite bool_decide_true by done.
  destruct (_ <? 5); [by cbn |]. cbn. by intros [= <-].
Qed.

Lemma size_without_sample (d : gset str) (pick : list str) k :
  is_sample pick (elements d) k → size (d ∖ list_to_set pick) = size d - k.
Proof.
  intros (Hlen & Hnd & Hin).
  assert (list_to_set pick ⊆ d) as Hsub.
  { intros x Hx%elem_of_list_to_set. rewrite Forall_forall in Hin.
    by apply elem_of_elements, Hin. }
  rewrite size_difference by done. by rewrite size_list_to_set, Hlen.
Qed.

(** X23. [change_game_mode] raises [ValueError] exactly when the chosen
    mode is Challenge and its dictionary has fewer than five words.
    Otherwise it builds the graph of the chosen mode and starts a game
    on it: in Challenge mode the game cannot start, for want of valid
    words, exactly when the dictionary has fewer than seven words; and
    when a game starts without an error the current word and the target
    are two different words of the effective dictionary, of the same
    length, the target reachable from the current word. *)
Theorem change_game_mode_outcome self mode_var rnd_words rnd_letters first picks
    fuel :
  (change_game_mode fuel self mode_var rnd_words rnd_letters first picks
   = Raise ValueError
   ↔ mode_var = Challenge ∧ size (dictionaries (game_state self) Challenge) < 5)
  ∧ ∀ built,
      build_word_graph (set_game_mode (game_state self) mode_var)
        rnd_words rnd_letters = Ret built →
      scan_fuel (word_graph built) ≤ fuel →
      ∃ shown s',
        change_game_mode fuel self mode_var rnd_words rnd_letters first picks
        = Ret (Some (shown, s'))
        ∧ game_mode (game_state s') = mode_var
        ∧ only_empty_added (word_graph built) (word_graph (game_state s'))
        ∧ (mode_var = Challenge →
           is_sample rnd_words
             (elements (dictionaries (game_state self) Challenge)) 5 →
           (shown = [NotEnoughValidWords]
            ↔ size (dictionaries (game_state self) Challenge) < 7))
        ∧ (shown ≠ [NotEnoughValidWords] → shown ≠ [NoValidWordPair] →
           current_word (game_state s') ≠ target_word (game_state s')
           ∧ current_word (game_state s') ∈ effective_words built
           ∧ target_word (game_state s') ∈ effective_words built
           ∧ length (target_word (game_state s'))
             = length (current_word (game_state s'))
           ∧ reachable (word_graph built) (current_word (game_state s'))
               (target_word (game_state s'))).
Proof.
  unfold change_game_mode. cbn [game_state set_game]. split.
  - destruct (build_word_graph _ rnd_words rnd_letters) as [built|[]] eqn:Hb;
      cbn.
    + split; [done |]. intros H.
      apply (build_word_graph_Raise (set_game_mode (game_state self) mode_var)
               rnd_words rnd_letters) in H. congruence.
    + split; [intros _ | done].
      by apply (build_word_graph_Raise
                  (set_game_mode (game_state self) mode_var)) in Hb.
  - intros built Hb Hfuel. rewrite Hb. cbn.
    destruct (build_word_graph_frame _ _ _ _ Hb) as (Hd & Hm & _).
    simpl in Hd, Hm.
    match goal with
    | |- context [start_new_game fuel ?s first picks] =>
        destruct (start_new_game_run s first picks fuel Hfuel)
          as (shown & g' & c & t & Hrun & Hadd & Hfew & Hmany)
    end.
    cbn [game_state set_game moves max_moves score multiplayer_mode
         player_scores current_player] in *. rewrite Hrun.
    eexists shown, _. split; [done |]. cbn [game_state game_mode word_graph
      current_word target_word].
    split_and!; [done | done | |].
    + intros -> Hsample. rewrite (build_word_graph_banned _ _ _ _ Hb) in * by done.
      rewrite Hm, Hd in *. simpl in Hfew, Hmany.
      rewrite (size_without_sample _ _ 5 Hsample) in *.
      split.
      * intros ->.
        destruct (decide (size (dictionaries (game_state self) Challenge) < 7));
          [done |].
        destruct Hmany as [_ [(? & _)|(Hs & _)]]; [lia | done |].
        done.
      * intros Hlt. apply Hfew. lia.
    + intros Hne1 Hne2.
      destruct (decide (size (dictionaries built (game_mode built)
                                ∖ banned_words built) < 2)) as [Hlt|Hge].
      { by destruct (Hfew Hlt) as (? & _). }
      destruct (Hmany ltac:(lia)) as [-> [(? & _)|(_ & Hneq & [n Hw] & _)]];
        [done |].
      destruct (built_walk_members _ _ _ _ _ _ _ Hb Hw) as [?|[? ?]]; [done |].
      split_and!; [done.. | by eapply built_walk_length | by exists n].
Qed.

Lemma change_game_mode_outcome_witness :
  build_word_graph five_words [] [] = Ret five_words_built
  ∧ scan_fuel (word_graph five_words_built) ≤ 30
  ∧ ∃ shown s',
      change_game_mode 30 (Session five_words [] 0 0 false (λ _, 0%Z) Player1)
        Beginner [] [] (w "cat") (λ _, w "dot") = Ret (Some (shown, s'))
      ∧ game_mode (game_state s') = Beginner.
Proof.
  assert (build_word_graph five_words [] [] = Ret five_words_built) as Hb
    by by_return.
  assert (scan_fuel (word_graph five_words_built) ≤ 30) as Hfuel by by_compute.
  split_and!; [exact Hb | exact Hfuel |].
  destruct (proj2 (change_game_mode_outcome
                     (Session five_words [] 0 0 false (λ _, 0%Z) Player1)
                     Beginner [] [] (w "cat") (λ _, w "dot") 30)
              five_words_built Hb Hfuel)
    as (shown & s' & Hrun & Hmode & _).
  exists shown, s'. split; [exact Hrun | exact Hmode].
Defined.
